(** * Morpheme segmentation: length bucketing, label grammar, constrained
      decoding, label-to-morpheme conversion and flat-mode context features.

    A shallow embedding of the pure core of [network.py]:
    [make_bucket_lengths], [collect_buckets], [get_next_morpheme_types],
    [get_next_morpheme], [is_correct_morpheme_sequence],
    [Partitioner._decode_best], [Partitioner.get_possible_next_states],
    [Partitioner.labels_to_morphemes],
    [Partitioner._make_morpheme_data_simple], [_make_vocabulary],
    [Partitioner._recode_bucket_data], [Partitioner._make_bucket_data],
    [Partitioner._preprocess], [Partitioner._predict_label_probs] and
    [make_model_file].

    Python exceptions are modelled by the [result] type below; Python [int]
    is [Z]; list indices that the code only ever uses as non-negative
    positions are [nat]; [str] is [string], one [ascii] per character. *)

From Stdlib Require Import String Ascii List ZArith Lia Bool Arith.
From Stdlib Require Import Permutation Sorted QArith DecimalString.
Import ListNotations.

Close Scope Q_scope.
Close Scope Z_scope.
Open Scope nat_scope.
Open Scope string_scope.
Open Scope list_scope.

(** ** Python prelude: exceptions, strings, slices *)

Module Py.

Inductive exn : Type :=
| IndexError
| KeyError
| ValueError
| TypeError
| ZeroDivisionError
| OverflowError.

Inductive result (A : Type) : Type :=
| Ok (a : A)
| Raise (e : exn).

Arguments Ok {A} a.
Arguments Raise {A} e.

Definition bind {A B : Type} (c : result A) (k : A -> result B) : result B :=
  match c with
  | Ok a => k a
  | Raise e => Raise e
  end.

(** [l[i]] for a non-negative position [i]. *)
Definition index {A : Type} (l : list A) (i : nat) : result A :=
  match nth_error l i with
  | Some a => Ok a
  | None => Raise IndexError
  end.

(** [l[i] = v] for a non-negative position [i]. *)
Fixpoint set_index {A : Type} (l : list A) (i : nat) (v : A) : result (list A) :=
  match l, i with
  | [], _ => Raise IndexError
  | _ :: t, O => Ok (v :: t)
  | h :: t, S j =>
      match set_index t j v with
      | Ok t' => Ok (h :: t')
      | Raise e => Raise e
      end
  end.

(** [l[z]] for a Python integer [z]: a negative [z] counts from the end. *)
Definition index_Z {A : Type} (l : list A) (z : Z) : result A :=
  let n := Z.of_nat (length l) in
  if (z <? - n)%Z then Raise IndexError
  else if (z <? 0)%Z then index l (Z.to_nat (z + n))
  else index l (Z.to_nat z).

(** [l[a:b]] for non-negative [a], [b]. *)
Definition slice {A : Type} (a b : nat) (l : list A) : list A :=
  skipn a (firstn b l).

(** [l[:-1]]. *)
Definition drop_last {A : Type} (l : list A) : list A := removelast l.

(** Sequential [for] over a list inside the exception monad. *)
Fixpoint mapM {A B : Type} (f : A -> result B) (l : list A) : result (list B) :=
  match l with
  | [] => Ok []
  | a :: t =>
      match f a with
      | Raise e => Raise e
      | Ok b =>
          match mapM f t with
          | Raise e => Raise e
          | Ok bs => Ok (b :: bs)
          end
      end
  end.

Fixpoint foldM {A S : Type} (f : S -> A -> result S) (l : list A) (s : S)
  : result S :=
  match l with
  | [] => Ok s
  | a :: t =>
      match f s a with
      | Raise e => Raise e
      | Ok s' => foldM f t s'
      end
  end.

(** [sub in s] on strings: substring test. *)
Fixpoint contains (sub s : string) : bool :=
  String.prefix sub s ||
  match s with
  | EmptyString => false
  | String _ r => contains sub r
  end.

(** [x in l] on a list of strings. *)
Definition mem (x : string) (l : list string) : bool :=
  existsb (String.eqb x) l.

(** [s.split(sep)] for a one-character separator. *)
Fixpoint split_on (sep : ascii) (s : string) : list string :=
  match s with
  | EmptyString => [EmptyString]
  | String c r =>
      if Ascii.eqb c sep then EmptyString :: split_on sep r
      else match split_on sep r with
           | [] => [String c EmptyString]
           | p :: ps => String c p :: ps
           end
  end.

(** [a, b = parts]. *)
Definition unpack2 (parts : list string) : result (string * string) :=
  match parts with
  | [a; b] => Ok (a, b)
  | _ => Raise ValueError
  end.

(** Iterating over a [str] yields its one-character strings. *)
Fixpoint chars (s : string) : list string :=
  match s with
  | EmptyString => []
  | String c r => String c EmptyString :: chars r
  end.

(** ["{}-{}".format(x, y)]. *)
Definition format_dash (x y : string) : string := x ++ "-" ++ y.

(** Every two neighbouring elements of a list are related. *)
Fixpoint adjacent {A : Type} (R : A -> A -> Prop) (l : list A) : Prop :=
  match l with
  | a :: (b :: _) as t => R a b /\ adjacent R t
  | _ => True
  end.

End Py.

Import Py.

Notation "x <- c ;; k" := (Py.bind c (fun x => k))
  (at level 61, c at next level, right associativity).
Notation "' p <- c ;; k" := (Py.bind c (fun p => k))
  (at level 61, p pattern, c at next level, right associativity).

(** ** Reserved codes *)

Definition PAD : nat := 0.
Definition BEGIN : nat := 1.
Definition END : nat := 2.
Definition UNKNOWN : nat := 3.
Definition AUXILIARY_CODES : list nat := [PAD; BEGIN; END; UNKNOWN].
Definition AUXILIARY : list string := ["PAD"; "BEGIN"; "END"; "UNKNOWN"].

(** ** Grammar automaton *)

Module Grammar.

Definition MORPHEMES : list string :=
  ["SUFF"; "END"; "LINK"; "POSTFIX"; "PREF"; "ROOT"].

Definition get_next_morpheme_types (morpheme_type : string) : list string :=
  if String.eqb morpheme_type "None" then ["None"]
  else
    let start :=
      if mem morpheme_type ["ROOT"; "SUFF"; "HYPH"] then 0
      else if String.eqb morpheme_type "END" then 2
      else if mem morpheme_type ["PREF"; "LINK"; "BEGIN"] then 4
      else 6 in
    let answer := slice start 6 MORPHEMES in
    let answer :=
      if Nat.ltb 0 (length answer) && negb (String.eqb morpheme_type "HYPH")
      then answer ++ ["HYPH"] else answer in
    if String.eqb morpheme_type "BEGIN" then answer ++ ["None"] else answer.

Definition get_next_morpheme (morpheme : string) : result (list string) :=
  if String.eqb morpheme "END" then Ok []
  else
    let morpheme := if String.eqb morpheme "BEGIN" then "S-BEGIN" else morpheme in
    '(morpheme_label, morpheme_type) <- unpack2 (split_on "-" morpheme) ;;
    let '(new_morpheme_labels, new_morpheme_types) :=
      if contains morpheme_label "BM"
      then ("ME", [morpheme_type])
      else ("BS", get_next_morpheme_types morpheme_type) in
    Ok (flat_map (fun x => map (fun y => format_dash x y) new_morpheme_types)
                 (chars new_morpheme_labels)).

(** The transition test of the last loop of [is_correct_morpheme_sequence]:
    [morphemes[i+1] not in get_next_morpheme(morpheme)] for
    [i, morpheme in enumerate(morphemes[:-1])]; [true] when no pair fails. *)
Fixpoint transitions_ok (morphemes : list string) : result bool :=
  match morphemes with
  | [] => Ok true
  | morpheme :: rest =>
      match rest with
      | [] => Ok true
      | next :: _ =>
          allowed <- get_next_morpheme morpheme ;;
          if negb (mem next allowed) then Ok false
          else transitions_ok rest
      end
  end.

Definition is_correct_morpheme_sequence (morphemes : list string) : result bool :=
  match morphemes with
  | [] => Ok false
  | first :: _ =>
      if existsb (fun morpheme => negb (contains "-" morpheme)) morphemes
      then Ok false
      else
        '(morpheme_label, morpheme_type) <- unpack2 (split_on "-" first) ;;
        if negb (contains morpheme_label "BS")
           || negb (mem morpheme_type ["PREF"; "ROOT"; "None"])
        then Ok false
        else
          '(morpheme_label, morpheme_type) <-
             unpack2 (split_on "-" (last morphemes "")) ;;
          if negb (contains morpheme_label "ES")
             || negb (mem morpheme_type
                        ["ROOT"; "SUFF"; "ENDING"; "POSTFIX"; "None"])
          then Ok false
          else transitions_ok morphemes
  end.

(** [next] is one of the labels that may follow [label]. *)
Definition label_step (label next : string) : Prop :=
  exists allowed, get_next_morpheme label = Ok allowed /\ In next allowed.

(** The labels a sequence may start with according to
    [get_next_morpheme("BEGIN")], and the end labels the decoder admits. *)
Definition start_labels : list string :=
  ["B-PREF"; "B-ROOT"; "B-HYPH"; "B-None";
   "S-PREF"; "S-ROOT"; "S-HYPH"; "S-None"].

Definition admissible_end_labels : list string :=
  flat_map (fun x => map (fun y => format_dash x y)
                         ["ROOT"; "SUFF"; "END"; "POSTFIX"; "None"])
           (chars "ES").

(** The label space of the data model: the pseudo-labels [BEGIN] and [END]
    and every pair of a boundary tag and a morpheme type. *)
Definition boundary_tags : list string := ["B"; "M"; "E"; "S"].

Definition morpheme_types : list string :=
  ["PREF"; "ROOT"; "LINK"; "SUFF"; "END"; "POSTFIX"; "HYPH"; "None"].

Definition label_space : list string :=
  "BEGIN" :: "END" ::
  flat_map (fun x => map (fun y => format_dash x y) morpheme_types) boundary_tags.

End Grammar.

(** ** Length bucketing *)

Module Bucketing.

Local Open Scope Z_scope.

(** [sorted(lengths)] on integers: the ascending rearrangement. *)
Fixpoint insert_sorted (x : Z) (l : list Z) : list Z :=
  match l with
  | [] => [x]
  | y :: t => if x <=? y then x :: l else y :: insert_sorted x t
  end.

Definition sorted (l : list Z) : list Z := fold_right insert_sorted [] l.

(** [range(n)]. *)
Definition range (n : Z) : list Z := map Z.of_nat (seq 0 (Z.to_nat n)).

(** One iteration of the loop of [make_bucket_lengths]; the state is
    [(last_bucket_length, bucket_lengths)]. *)
Definition bucket_step (m : Z) (lengths : list Z) (buckets_number : Z)
    (st : Z * list Z) (i : Z) : result (Z * list Z) :=
  let '(last_bucket_length, bucket_lengths) := st in
  let level := m * (i + 1) / buckets_number - 1 in
  curr_length <- index_Z lengths level ;;
  if curr_length >? last_bucket_length
  then Ok (curr_length, bucket_lengths ++ [curr_length])
  else Ok (last_bucket_length, bucket_lengths).

Definition make_bucket_lengths (lengths : list Z) (buckets_number : Z)
  : result (list Z) :=
  let m := Z.of_nat (length lengths) in
  let lengths := sorted lengths in
  st <- foldM (bucket_step m lengths buckets_number) (range buckets_number) (0, []) ;;
  Ok (snd st).

(** [bisect.bisect_left(a, x)]: the loop
    [while lo < hi: mid = (lo+hi)//2; if a[mid] < x: lo = mid+1 else: hi = mid].
    The distance [hi - lo] shrinks at every iteration, so [length a]
    iterations are always enough. *)
Fixpoint bisect_loop (fuel : nat) (a : list Z) (x : Z) (lo hi : nat) : nat :=
  match fuel with
  | O => lo
  | S fuel' =>
      if Nat.ltb lo hi then
        let mid := Nat.div (lo + hi) 2 in
        if nth mid a 0 <? x
        then bisect_loop fuel' a x (S mid) hi
        else bisect_loop fuel' a x lo mid
      else lo
  end.

Definition bisect_left (a : list Z) (x : Z) : nat :=
  bisect_loop (length a) a x 0%nat (length a).

(** [enumerate(l)]. *)
Definition enumerate {A : Type} (l : list A) : list (nat * A) :=
  combine (seq 0 (length l)) l.

(** [indexes[index].append(i)]. *)
Definition append_at (indexes : list (list nat)) (index i : nat)
  : result (list (list nat)) :=
  curr <- Py.index indexes index ;;
  set_index indexes index (curr ++ [i]).

Definition assign_step (bucket_lengths : list Z) (indexes : list (list nat))
    (il : nat * Z) : result (list (list nat)) :=
  let '(i, length) := il in
  append_at indexes (bisect_left bucket_lengths length) i.

(** [[L] * n]: empty when [n <= 0]. *)
Definition replicate (L : Z) (n : Z) : list Z := repeat L (Z.to_nat n).

(** [range(0, stop, step)] for [stop >= 0]. *)
Definition range_step (stop step : Z) : result (list nat) :=
  if step =? 0 then Raise ValueError
  else if step <? 0 then Ok []
  else Ok (map (fun k => (k * Z.to_nat step)%nat)
               (seq 0 (Z.to_nat ((stop + step - 1) / step)))).

Definition nonempty {A B : Type} (p : A * list B) : bool :=
  Nat.ltb 0 (length (snd p)).

(** [(len(curr_indexes)-1) // max_bucket_size + 1] copies of [L]. *)
Definition split_threshold (max_bucket_size : Z) (p : Z * list nat)
  : result (list Z) :=
  let '(L, curr_indexes) := p in
  if max_bucket_size =? 0 then Raise ZeroDivisionError
  else Ok (replicate L ((Z.of_nat (length curr_indexes) - 1) / max_bucket_size + 1)).

(** [curr_indexes[start:start+max_bucket_size]] for
    [start in range(0, len(curr_indexes), max_bucket_size)]. *)
Definition split_indexes (max_bucket_size : Z) (curr_indexes : list nat)
  : result (list (list nat)) :=
  starts <- range_step (Z.of_nat (length curr_indexes)) max_bucket_size ;;
  Ok (map (fun start =>
             slice start (Z.to_nat (Z.of_nat start + max_bucket_size)) curr_indexes)
          starts).

Definition collect_buckets (lengths : list Z) (buckets_number : Z)
    (max_bucket_size : Z) : result (list (Z * list nat)) :=
  bucket_lengths <- make_bucket_lengths lengths buckets_number ;;
  let indexes := map (fun _ => @nil nat) bucket_lengths in
  indexes <- foldM (assign_step bucket_lengths) (enumerate lengths) indexes ;;
  if negb (max_bucket_size =? -1) then
    new_lengths <- mapM (split_threshold max_bucket_size)
                     (filter nonempty (combine bucket_lengths indexes)) ;;
    new_indexes <- mapM (split_indexes max_bucket_size) indexes ;;
    Ok (filter nonempty (combine (concat new_lengths) (concat new_indexes)))
  else
    Ok (filter nonempty (combine bucket_lengths indexes)).

(** *** Invariants of the loops *)

(** The state [(last_bucket_length, bucket_lengths)] of the loop of
    [make_bucket_lengths]: the thresholds are positive and strictly
    increasing, and the last one accepted is the largest. *)
Definition thresholds_ok (st : Z * list Z) : Prop :=
  StronglySorted Z.lt (snd st) /\
  Forall (fun x => 0 < x <= fst st) (snd st) /\
  (fst st = 0 \/ In (fst st) (snd st)).

(** The lists [indexes] after the first [k] items have been assigned:
    one list per threshold, holding together the positions [0..k-1], each
    item under a threshold that is at least its length. *)
Definition assigned (lengths bucket_lengths : list Z) (k : nat)
    (indexes : list (list nat)) : Prop :=
  Permutation (concat indexes) (seq 0 k) /\
  Forall2 (fun L curr => Forall (fun i => nth i lengths 0 <= L) curr)
          bucket_lengths indexes.

(** The same lists, seen item by item: every list holds positions below
    [k] in increasing order, and each of its items lies under the least
    threshold that is not below the item's length. *)
Definition placed (lengths bucket_lengths : list Z) (k : nat)
    (indexes : list (list nat)) : Prop :=
  Forall2 (fun L curr =>
             StronglySorted Nat.lt curr /\
             Forall (fun i =>
                       (i < k)%nat /\
                       forall L', In L' bucket_lengths ->
                                  nth i lengths 0 <= L' -> L <= L')
                    curr)
          bucket_lengths indexes.

(** The pieces of [curr_indexes] cut at the multiples of [s]: [c] slices
    [curr_indexes[k*s : k*s+s]]. *)
Definition chunks (s c : nat) (curr_indexes : list nat) : list (list nat) :=
  map (fun k => slice (k * s) (k * s + s) curr_indexes) (seq 0 c).

(** The number of slices [range(0, n, size)] cuts a list of [n] items into. *)
Definition chunk_count (n : nat) (size : Z) : nat :=
  Z.to_nat ((Z.of_nat n + size - 1) / size).

(** One bucket after the split: its threshold paired with each slice. *)
Definition split_bucket (size : Z) (p : Z * list nat) : list (Z * list nat) :=
  map (pair (fst p))
      (chunks (Z.to_nat size) (chunk_count (length (snd p)) size) (snd p)).

End Bucketing.

(** ** Constrained decoder *)

Module Decoder.

Section Decode.

(** The numeric side of the decoder is floating point.  The embedding keeps
    it abstract: [prob] holds the entries of the probability matrix, [cost]
    the negative-log penalties, and the operations below are the ones the
    code applies to them.  Every statement proved about [decode_best] holds
    for any interpretation of these operations. *)
Variable prob : Type.
Variable cost : Type.
(** [a > b] on matrix entries, as used by [np.argmax]. *)
Variable prob_gt : prob -> prob -> bool.
(** [0.0] of [np.zeros] and the cast to [np.float32]. *)
Variable zero : prob.
Variable float32 : prob -> prob.
(** [np.inf], [np.isinf], [-np.log(p)], [c - np.log(p)], [a < b]. *)
Variable inf : cost.
Variable isinf : cost -> bool.
Variable neg_log : prob -> cost.
Variable sub_log : cost -> prob -> cost.
Variable cost_lt : cost -> cost -> bool.
(** [np.argsort] on one layer of costs. *)
Variable argsort : list cost -> list nat.

(** [self.target_symbols_]: the label alphabet, [AUXILIARY + sorted(symbols)]. *)
Variable target_symbols_ : list string.

Definition target_symbols_number_ : nat := length target_symbols_.

(** [{a: i for i, a in enumerate(symbols)}]: a later position overrides an
    earlier one. *)
Fixpoint last_position (x : string) (l : list string) (i : nat)
    (found : option nat) : option nat :=
  match l with
  | [] => found
  | a :: t => last_position x t (S i) (if String.eqb a x then Some i else found)
  end.

Definition target_symbol_codes_ (x : string) : option nat :=
  last_position x target_symbols_ 0 None.

(** [[codes[x] for x in labels if x in codes]]. *)
Fixpoint known_codes (labels : list string) : list nat :=
  match labels with
  | [] => []
  | x :: t =>
      match target_symbol_codes_ x with
      | Some c => c :: known_codes t
      | None => known_codes t
      end
  end.

Definition get_possible_next_states (state_index : nat) : result (list nat) :=
  state <- index target_symbols_ state_index ;;
  next_states <- Grammar.get_next_morpheme state ;;
  Ok (known_codes next_states).

(** [np.argmax] of one row: the first position of the largest entry. *)
Fixpoint argmax_from (best_i : nat) (best : prob) (i : nat) (l : list prob) : nat :=
  match l with
  | [] => best_i
  | x :: t =>
      if prob_gt x best then argmax_from i x (S i) t
      else argmax_from best_i best (S i) t
  end.

Definition argmax (row : list prob) : result nat :=
  match row with
  | [] => Raise ValueError
  | x :: t => Ok (argmax_from 0 x 1 t)
  end.

(** [probs[i, j]]. *)
Definition at2 (probs : list (list prob)) (i j : nat) : result prob :=
  row <- index probs i ;;
  index row j.

(** One layer under construction: [curr_costs], [prev_states], [inf_count]. *)
Record layer : Type := mkLayer {
  curr_costs : list cost;
  prev_states : list (option nat);
  inf_count : Z
}.

(** Body of [for state in possible_states] for the row [i+1] of [probs]. *)
Definition relax (probs : list (list prob)) (i : nat) (prev_cost : cost)
    (prev_state : nat) (st : layer) (state : nat) : result layer :=
  c <- index (curr_costs st) state ;;
  if isinf c then
    p <- at2 probs (i + 1) state ;;
    costs' <- set_index (curr_costs st) state (sub_log prev_cost p) ;;
    states' <- set_index (prev_states st) state (Some prev_state) ;;
    Ok (mkLayer costs' states' (inf_count st - 1))
  else Ok st.

Definition is_auxiliary (state : nat) : bool :=
  existsb (Nat.eqb state) AUXILIARY_CODES.

(** [for prev_state in state_order], with its [break]s and [continue]. *)
Fixpoint expand (probs : list (list prob)) (i : nat) (last_costs : list cost)
    (state_order : list nat) (st : layer) : result layer :=
  match state_order with
  | [] => Ok st
  | prev_state :: rest =>
      prev_cost <- index last_costs prev_state ;;
      if isinf prev_cost then Ok st
      else if is_auxiliary prev_state && negb (Nat.eqb i 0)
      then expand probs i last_costs rest st
      else
        possible_states <- get_possible_next_states prev_state ;;
        st' <- foldM (relax probs i prev_cost prev_state) possible_states st ;;
        if Z.eqb (inf_count st') (Z.of_nat (length AUXILIARY_CODES)) then Ok st'
        else expand probs i last_costs rest st'
  end.

(** The search state between two positions: [costs[-1]] and [states]. *)
Definition search : Type := (list cost * list (list (option nat)))%type.

(** Body of [for i in range(length)]. *)
Definition step (probs : list (list prob)) (s : search) (i : nat) : result search :=
  let '(last_costs, states) := s in
  let state_order := argsort last_costs in
  let fresh := mkLayer (repeat inf target_symbols_number_)
                       (repeat None target_symbols_number_)
                       (Z.of_nat target_symbols_number_) in
  st <- expand probs i last_costs state_order fresh ;;
  Ok (curr_costs st, states ++ [prev_states st]).

(** The admissible end states. *)
Definition end_states : list nat :=
  known_codes Grammar.admissible_end_labels.

(** [min(possible_states, key=lambda x: costs[-1][x])]: the first state of
    least cost. *)
Fixpoint min_from (last_costs : list cost) (best : nat) (best_cost : cost)
    (rest : list nat) : result nat :=
  match rest with
  | [] => Ok best
  | x :: t =>
      c <- index last_costs x ;;
      if cost_lt c best_cost then min_from last_costs x c t
      else min_from last_costs best best_cost t
  end.

Definition min_by_cost (last_costs : list cost) (possible_states : list nat)
  : result nat :=
  match possible_states with
  | [] => Raise ValueError
  | x :: t =>
      c <- index last_costs x ;;
      min_from last_costs x c t
  end.

(** [for j in range(length, 0, -1): best_states.append(states[j][best_states[-1]])]. *)
Fixpoint backtrack (states : list (list (option nat))) (j : nat)
    (best_states : list (option nat)) : result (list (option nat)) :=
  match j with
  | O => Ok best_states
  | S j' =>
      prev_states <- index states j ;;
      match last best_states None with
      | None => Raise TypeError
      | Some s =>
          p <- index prev_states s ;;
          backtrack states j' (best_states ++ [p])
      end
  end.

(** The layers of the shortest-path search: the initial layer and one layer
    per position; the result is [(costs[-1], states)]. *)
Definition search_layers (probs : list (list prob)) (length : nat)
  : result search :=
  let initial_costs := repeat inf target_symbols_number_ in
  let initial_states := repeat (@None nat) target_symbols_number_ in
  p <- at2 probs 0 BEGIN ;;
  initial_costs <- set_index initial_costs BEGIN (neg_log p) ;;
  initial_states <- set_index initial_states BEGIN (Some BEGIN) ;;
  foldM (step probs) (seq 0 length) (initial_costs, [initial_states]).

(** The branch taken when the row-wise best labels are not a correct
    sequence. *)
Definition fallback (probs : list (list prob)) (length : nat)
  : result (list (option nat)) :=
  s <- search_layers probs length ;;
  best <- min_by_cost (fst s) end_states ;;
  best_states <- backtrack (snd s) length [Some best] ;;
  Ok (rev best_states).

(** [self.target_symbols_[i]] and [get_possible_next_states(i)] when [i] may
    be [None]. *)
Definition symbol_of (i : option nat) : result string :=
  match i with
  | None => Raise TypeError
  | Some i => index target_symbols_ i
  end.

Definition next_states_of (state : option nat) : result (list nat) :=
  match state with
  | None => Raise TypeError
  | Some s => get_possible_next_states s
  end.

(** [probs_to_return[j, possible_states] = probs[j+1, possible_states]]. *)
Definition trim_step (probs : list (list prob)) (out : list (list prob))
    (js : nat * option nat) : result (list (list prob)) :=
  let '(j, state) := js in
  possible_states <- next_states_of state ;;
  source <- index probs (j + 1) ;;
  values <- mapM (index source) possible_states ;;
  row <- index out j ;;
  row' <- foldM (fun r kv => set_index r (fst kv) (float32 (snd kv)))
                (combine possible_states values) row ;;
  set_index out j row'.

Definition trim (probs : list (list prob)) (length : nat)
    (best_states : list (option nat)) : result (list (list prob)) :=
  let probs_to_return := repeat (repeat zero target_symbols_number_) length in
  foldM (trim_step probs)
        (combine (seq 0 (List.length (drop_last best_states))) (drop_last best_states))
        probs_to_return.

(** The labels of [np.argmax(probs[:1+length], axis=1)]. *)
Definition row_best_states (probs : list (list prob)) (length : nat)
  : result (list nat) :=
  mapM argmax (firstn (1 + length) probs).

(** Whether the row-wise best labels of the positions [1..length] form a
    correct sequence: the test that selects between the two branches of
    [_decode_best]. *)
Definition row_best_correct (probs : list (list prob)) (length : nat)
  : result bool :=
  best_states <- row_best_states probs length ;;
  best_labels <- mapM (index target_symbols_) best_states ;;
  Grammar.is_correct_morpheme_sequence (tl best_labels).

Definition _decode_best (probs : list (list prob)) (length : nat)
  : result (list string * list (list prob)) :=
  best_states <- row_best_states probs length ;;
  best_labels <- mapM (index target_symbols_) best_states ;;
  correct <- Grammar.is_correct_morpheme_sequence (tl best_labels) ;;
  best_states <-
    (if negb correct then fallback probs length
     else Ok (map Some best_states)) ;;
  probs_to_return <- trim probs length best_states ;;
  labels <- mapM symbol_of (tl best_states) ;;
  Ok (labels, probs_to_return).

(** *** Invariants of the search *)

(** [s] is among the possible next states of [p]. *)
Definition legal (p s : nat) : Prop :=
  exists ps, get_possible_next_states p = Ok ps /\ In s ps.

(** [states[k][s]] holds [x]. *)
Definition pointer (states : list (list (option nat))) (k s : nat)
    (x : option nat) : Prop :=
  exists prev_states,
    nth_error states k = Some prev_states /\ nth_error prev_states s = Some x.

(** A list of states read forwards from position [k]: every element is the
    predecessor recorded for its successor. *)
Fixpoint linked (states : list (list (option nat))) (k : nat)
    (l : list (option nat)) : Prop :=
  match l with
  | x :: (y :: _) as t =>
      (exists s, y = Some s /\ pointer states (S k) s x) /\
      linked states (S k) t
  | _ => True
  end.

(** The entry [x] of [best_states] is a state whose symbol is [label]. *)
Definition labelled (x : option nat) (label : string) : Prop :=
  exists s, x = Some s /\ nth_error target_symbols_ s = Some label.

(** A layer under construction above [last_costs]: a recorded predecessor
    has a finite cost in the layer below and allows the state, and every
    state of finite cost has a recorded predecessor. *)
Definition layer_ok (last_costs : list cost) (st : layer) : Prop :=
  (forall s p, nth_error (prev_states st) s = Some (Some p) ->
               legal p s /\
               exists c, nth_error last_costs p = Some c /\ isinf c = false) /\
  (forall s c, nth_error (curr_costs st) s = Some c -> isinf c = false ->
               exists p, nth_error (prev_states st) s = Some (Some p)).

(** The search state after [i] positions. *)
Definition search_ok (i : nat) (s : search) : Prop :=
  let '(last_costs, states) := s in
  length states = i + 1 /\
  (forall s c, nth_error last_costs s = Some c -> isinf c = false ->
               exists p, pointer states i s (Some p)) /\
  (forall s p, pointer states 0 s (Some p) -> s = BEGIN) /\
  (forall k s p, pointer states (S k) s (Some p) ->
                 legal p s /\ exists q, pointer states k p (Some q)).

(** *** Rows of the trimmed matrix *)

(** [row] is what the trimming loop leaves at position [j] for the entry
    [state] of [best_states]: at the possible next states of [state] it holds
    the casts of the entries of row [j+1] of [probs], and zero elsewhere. *)
Definition trimmed_row (probs : list (list prob)) (j : nat)
    (state : option nat) (row : list prob) : Prop :=
  exists s possible_states source,
    state = Some s /\
    get_possible_next_states s = Ok possible_states /\
    nth_error probs (j + 1) = Some source /\
    length row = target_symbols_number_ /\
    forall k v, nth_error row k = Some v ->
      (In k possible_states ->
       exists p, nth_error source k = Some p /\ v = float32 p) /\
      (~ In k possible_states -> v = zero).

(** *** Penalties of the paths *)

(** The penalty of a sequence of states given last state first, as
    backtracking collects it: minus the logarithm of the probability of its
    first state at position 0, from which the logarithm of the probability
    of every later state at its position is subtracted in turn. *)
Fixpoint path_cost (probs : list (list prob)) (path : list nat) : result cost :=
  match path with
  | [] => Raise ValueError
  | s :: rest =>
      match rest with
      | [] => p <- at2 probs 0 s ;; Ok (neg_log p)
      | _ :: _ =>
          c <- path_cost probs rest ;;
          p <- at2 probs (List.length rest) s ;;
          Ok (sub_log c p)
      end
  end.

(** [path], given last state first, is what following the recorded
    predecessors from its head at position [k] down to position 0 yields. *)
Fixpoint traced (states : list (list (option nat))) (k : nat)
    (path : list nat) : Prop :=
  match path with
  | [] => False
  | s :: rest =>
      match rest with
      | [] => k = 0 /\ exists q, pointer states 0 s (Some q)
      | p :: _ =>
          exists k', k = S k' /\ pointer states k s (Some p) /\
                     traced states k' rest
      end
  end.

(** In a layer under construction for the row [i+1], a state with a
    recorded predecessor holds the cost of the predecessor minus the
    logarithm of its own probability. *)
Definition layer_costed (probs : list (list prob)) (i : nat)
    (last_costs : list cost) (st : layer) : Prop :=
  forall s p, nth_error (prev_states st) s = Some (Some p) ->
    exists c pr,
      nth_error last_costs p = Some c /\
      at2 probs (i + 1) s = Ok pr /\
      nth_error (curr_costs st) s = Some (sub_log c pr).

(** After [i] positions the cost held for a state is the penalty of the
    path traced back from it. *)
Definition search_costed (probs : list (list prob)) (i : nat) (s : search)
  : Prop :=
  let '(last_costs, states) := s in
  List.length states = i + 1 /\
  forall path s, hd_error path = Some s -> traced states i path ->
    exists c, nth_error last_costs s = Some c /\ path_cost probs path = Ok c.

End Decode.

End Decoder.

(** ** Labels to morphemes *)

Module Morphemes.

(** ["".join(parts)]. *)
Definition join (parts : list string) : string := String.concat "" parts.

(** [label.split("-")[-1]]. *)
Definition label_type (label : string) : string := last (split_on "-" label) "".

Section Convert.

Variable prob : Type.
(** [1.0] and [a * b] on label probabilities. *)
Variable one : prob.
Variable mul : prob -> prob -> prob.

(** [self.use_morpheme_types] and [self.target_symbol_codes_]. *)
Variable use_morpheme_types : bool.
Variable target_symbol_codes_ : string -> option nat.

Definition end_labels : list string :=
  if use_morpheme_types
  then ["E-ROOT"; "E-PREF"; "E-SUFF"; "E-END"; "E-POSTFIX"; "S-ROOT";
        "S-PREF"; "S-SUFF"; "S-END"; "S-LINK"; "S-HYPH"]
  else ["E-None"; "S-None"].

(** The answer list holds morphemes, then optionally probabilities, then
    optionally types. *)
Inductive item : Type :=
| MorphemeList (morphemes : list string)
| ProbList (morpheme_probs : list prob)
| TypeList (morpheme_types : list string).

(** State of the first loop: [morphemes], [curr_morpheme], [morpheme_types]. *)
Definition span_step (st : list string * string * list string)
    (ll : string * string) : list string * string * list string :=
  let '(morphemes, curr_morpheme, morpheme_types) := st in
  let '(letter, label) := ll in
  let curr_morpheme := String.append curr_morpheme letter in
  if mem label end_labels
  then (morphemes ++ [curr_morpheme], "", morpheme_types ++ [label_type label])
  else (morphemes, curr_morpheme, morpheme_types).

(** State of the second loop: [morpheme_probs], [curr_morpheme_prob]. *)
Definition prob_step (st : list prob * prob) (lp : string * list prob)
  : result (list prob * prob) :=
  let '(morpheme_probs, curr_morpheme_prob) := st in
  let '(label, prob_row) := lp in
  code <- match target_symbol_codes_ label with
          | Some c => Ok c
          | None => Raise KeyError
          end ;;
  p <- index prob_row code ;;
  let curr_morpheme_prob := mul curr_morpheme_prob p in
  if mem label end_labels
  then Ok (morpheme_probs ++ [curr_morpheme_prob], one)
  else Ok (morpheme_probs, curr_morpheme_prob).

Definition labels_to_morphemes (word : string) (labels : list string)
    (probs : option (list (list prob))) (return_probs return_types : bool)
  : result (list item) :=
  let '(morphemes, _, morpheme_types) :=
    fold_left span_step (combine (chars word) labels) ([], "", []) in
  let return_probs :=
    if return_probs
    then match probs with None => false | Some _ => return_probs end
    else return_probs in
  answer <-
    (if return_probs then
       match probs with
       | None => Raise TypeError
       | Some probs =>
           st <- foldM prob_step (combine labels probs) ([], one) ;;
           Ok [MorphemeList morphemes; ProbList (fst st)]
       end
     else Ok [MorphemeList morphemes]) ;;
  if return_types then Ok (answer ++ [TypeList morpheme_types]) else Ok answer.

(** The number of letters up to and including the last position whose label
    is an end label; [0] when no label is one. *)
Fixpoint end_prefix_length (labels : list string) : nat :=
  match labels with
  | [] => 0
  | label :: rest =>
      match end_prefix_length rest with
      | O => if mem label end_labels then 1 else 0
      | S k => S (S k)
      end
  end.

End Convert.

End Morphemes.

(** ** Flat-mode context features *)

Module Context.

Local Open Scope Z_scope.

(** Storing a float into an integer array truncates toward zero. *)
Definition to_int (score : Q) : Z := Z.quot (Qnum score) (Zpos (Qden score)).

(** The integer that [max(cell, score)] asks to store back into an integer
    cell: Python's [max] keeps its first argument unless the second is
    strictly greater.  Whether the integer fits the cell is decided when it
    is stored, by [set2]. *)
Definition max_cell_score (cell : Z) (score : Q) : Z :=
  if Qlt_le_dec (inject_Z cell) score then to_int score else cell.

(** The cells of the array are 64-bit integers. *)
Definition int64 (v : Z) : bool := (- 2 ^ 63 <=? v) && (v <? 2 ^ 63).

(** [a[i, k]]. *)
Definition get2 (a : list (list Z)) (i k : nat) : result Z :=
  row <- index a i ;;
  index row k.

(** [a[i, k] = v]: the position is looked up first; the value is then
    converted to a cell, which raises [OverflowError] when it does not fit. *)
Definition set2 (a : list (list Z)) (i k : nat) (v : Z) : result (list (list Z)) :=
  row <- index a i ;;
  cell <- index row k ;;
  if int64 v then
    row' <- set_index row k v ;;
    set_index a i row'
  else Raise OverflowError.

Section Simple.

(** [self.morpheme_trie_.find_substrings(word, return_positions=True)]:
    pairs of start offsets and an end offset. *)
Variable find_substrings : string -> list (list nat * nat).
(** [self.to_memorize_ngram_counts] and [self.morpheme_counts_]. *)
Variable to_memorize_ngram_counts : bool.
Variable morpheme_counts_ : string -> option (string -> option Q).

Definition _get_ngram_score (ngram mode : string) : result Q :=
  if to_memorize_ngram_counts then
    match morpheme_counts_ mode with
    | None => Raise KeyError
    | Some counts =>
        match counts ngram with
        | Some c => Ok c
        | None => Ok 0%Q
        end
    end
  else Ok 1%Q.

(** [word[start:end]]. *)
Definition segment (word : string) (start end_ : nat) : string :=
  substring start (end_ - start) word.

(** Body of [for start in starts]. *)
Definition write_match (word : string) (end_ : nat) (curr_answer : list (list Z))
    (start : nat) : result (list (list Z)) :=
  score <- _get_ngram_score (segment word start end_) "None" ;;
  if Nat.eqb end_ (start + 1) then
    old <- get2 curr_answer (start + 1) 2 ;;
    set2 curr_answer (start + 1) 2 (max_cell_score old score)
  else
    old <- get2 curr_answer (start + 0) 2 ;;
    curr_answer <- set2 curr_answer (start + 1) 0 (max_cell_score old score) ;;
    old <- get2 curr_answer end_ 1 ;;
    set2 curr_answer end_ 1 (max_cell_score old score).

(** The feature rows of one word. *)
Definition word_features (bucket_length : nat) (word : string)
  : result (list (list Z)) :=
  let curr_answer := repeat (repeat 0 3) bucket_length in
  foldM (fun curr_answer se =>
           foldM (write_match word (snd se)) (fst se) curr_answer)
        (find_substrings word) curr_answer.

Definition _make_morpheme_data_simple (data : list string)
    (bucket_length : nat)
  : result (list (list (list Z))) :=
  mapM (word_features bucket_length) data.

(** The combination rule as the specification words it: the left-boundary
    slot is combined with its own previous value. *)
Definition write_match_keep_max (word : string) (end_ : nat)
    (curr_answer : list (list Z)) (start : nat) : result (list (list Z)) :=
  score <- _get_ngram_score (segment word start end_) "None" ;;
  if Nat.eqb end_ (start + 1) then
    old <- get2 curr_answer (start + 1) 2 ;;
    set2 curr_answer (start + 1) 2 (max_cell_score old score)
  else
    old <- get2 curr_answer (start + 1) 0 ;;
    curr_answer <- set2 curr_answer (start + 1) 0 (max_cell_score old score) ;;
    old <- get2 curr_answer end_ 1 ;;
    set2 curr_answer end_ 1 (max_cell_score old score).

Definition word_features_keep_max (bucket_length : nat) (word : string)
  : result (list (list Z)) :=
  let curr_answer := repeat (repeat 0 3) bucket_length in
  foldM (fun curr_answer se =>
           foldM (write_match_keep_max word (snd se)) (fst se) curr_answer)
        (find_substrings word) curr_answer.

End Simple.

End Context.

(** ** Vocabulary and code matrices *)

Module Vocabulary.

(** [sorted(symbols)] on strings: the ascending rearrangement. *)
Fixpoint insert_sorted (x : string) (l : list string) : list string :=
  match l with
  | [] => [x]
  | y :: t => if String.leb x y then x :: l else y :: insert_sorted x t
  end.

Definition sorted (l : list string) : list string :=
  fold_right insert_sorted [] l.

(** [{a for word in source for a in word}], as the list of its members. *)
Definition symbol_set (source : list (list string)) : list string :=
  nodup string_dec (concat source).

(** A word is the sequence of the symbols met when iterating over it: the
    letters of a [str], the labels of a target. *)
Definition _make_vocabulary (source : list (list string))
  : list string * (string -> option nat) :=
  let symbols := symbol_set source in
  let symbols := AUXILIARY ++ sorted symbols in
  (symbols, Decoder.target_symbol_codes_ symbols).

End Vocabulary.

Module Preprocess.

Local Open Scope Z_scope.

(** [encoding.get(x, UNKNOWN)]. *)
Definition encode (encoding : string -> option nat) (x : string) : nat :=
  match encoding x with
  | Some c => c
  | None => UNKNOWN
  end.

(** [row[1:1+len(codes)] = codes] on one row of the array: the slice stops
    at the end of the row; the codes are written when there is one per
    cell, a single code is repeated over the cells, and any other number of
    codes is refused. *)
Definition assign_slice (row codes : list nat) : result (list nat) :=
  let n := length codes in
  let cells := (Nat.min (1 + n) (length row) - 1)%nat in
  if Nat.eqb n cells then Ok (firstn 1 row ++ codes ++ skipn (1 + n) row)
  else if Nat.eqb n 1
  then Ok (firstn 1 row ++ repeat (hd 0%nat codes) cells ++ skipn (1 + cells) row)
  else Raise ValueError.

(** Body of [for j, word in enumerate(data)], on row [j] as
    [np.full(.., PAD)] and [answer[:,0] = BEGIN] left it. *)
Definition recode_word (bucket_length : nat) (encoding : string -> option nat)
    (word : list string) : result (list nat) :=
  let row := BEGIN :: repeat PAD (bucket_length - 1) in
  row <- assign_slice row (map (encode encoding) word) ;;
  set_index row (1 + length word) END.

(** The array is given by its rows; [np.full] refuses a negative number of
    columns, and [answer[:,0]] an array without columns. *)
Definition _recode_bucket_data (data : list (list string)) (bucket_length : Z)
    (encoding : string -> option nat) : result (list (list nat)) :=
  if bucket_length <? 0 then Raise ValueError
  else if bucket_length =? 0 then Raise IndexError
  else mapM (recode_word (Z.to_nat bucket_length) encoding) data.

Section Buckets.

(** [self.use_inputs], [self.to_memorize_morphemes],
    [self.lm_embedder is not None], [self.buckets_number] and the two code
    tables. *)
Variable use_inputs : bool.
Variable to_memorize_morphemes : bool.
Variable has_lm_embedder : bool.
Variable buckets_number : Z.
Variable symbol_codes_ : string -> option nat.
Variable target_symbol_codes_ : string -> option nat.

(** The context features and the language-model embeddings of a bucket are
    built by [self._morpheme_memo_func] and [self._make_lm_embeddings_data];
    their values are kept abstract. *)
Variable memo : Type.
Variable embeddings : Type.
Variable _morpheme_memo_func : list (list string) -> Z -> result memo.
Variable _make_lm_embeddings_data : list (list string) -> Z -> result embeddings.

(** One input array of a bucket. *)
Inductive input : Type :=
| Codes (matrix : list (list nat))
| Memo (features : memo)
| Embeddings (vectors : embeddings).

(** What [_make_bucket_data] returns: the code matrix of the targets, or the
    list of the input arrays. *)
Inductive bucket : Type :=
| Target (matrix : list (list nat))
| Inputs (arrays : list input).

Definition _make_bucket_data (data : list (list string)) (bucket_length : Z)
    (bucket_indexes : list nat) (is_target : bool) : result bucket :=
  bucket_data <- mapM (index data) bucket_indexes ;;
  if is_target then
    matrix <- _recode_bucket_data bucket_data bucket_length target_symbol_codes_ ;;
    Ok (Target matrix)
  else
    answer <-
      (if use_inputs then
         matrix <- _recode_bucket_data bucket_data bucket_length symbol_codes_ ;;
         if to_memorize_morphemes then
           features <- _morpheme_memo_func bucket_data bucket_length ;;
           Ok [Codes matrix; Memo features]
         else Ok [Codes matrix]
       else Ok []) ;;
    if has_lm_embedder then
      vectors <- _make_lm_embeddings_data bucket_data bucket_length ;;
      Ok (Inputs (answer ++ [Embeddings vectors]))
    else Ok (Inputs answer).

Definition _preprocess (data : list (list string))
    (targets : option (list (list string)))
  : result (list bucket * option (list bucket) * list (Z * list nat)) :=
  let lengths := map (fun x => Z.of_nat (length x) + 2) data in
  buckets_with_indexes <- Bucketing.collect_buckets lengths buckets_number (-1) ;;
  data_by_buckets <-
    mapM (fun b => _make_bucket_data data (fst b) (snd b) false)
         buckets_with_indexes ;;
  match targets with
  | Some targets =>
      targets_by_buckets <-
        mapM (fun b => _make_bucket_data targets (fst b) (snd b) true)
             buckets_with_indexes ;;
      Ok (data_by_buckets, Some targets_by_buckets, buckets_with_indexes)
  | None => Ok (data_by_buckets, None, buckets_with_indexes)
  end.

End Buckets.

Section Predict.

Variable use_inputs : bool.
Variable to_memorize_morphemes : bool.
Variable has_lm_embedder : bool.
Variable buckets_number : Z.
Variable symbol_codes_ : string -> option nat.
Variable target_symbol_codes_ : string -> option nat.
Variable memo : Type.
Variable embeddings : Type.
Variable _morpheme_memo_func : list (list string) -> Z -> result memo.
Variable _make_lm_embeddings_data : list (list string) -> Z -> result embeddings.

(** The probabilities of the labels at the positions of one word, and
    [np.mean([model.predict(bucket_data) for model in self.models_], axis=0)]
    given by its entries along the first axis: the networks are kept
    abstract. *)
Variable probabilities : Type.
Variable predict_bucket : bucket memo embeddings -> result (list probabilities).

(** [for i, elem in zip(bucket_indexes, bucket_probs): word_probs[i] = elem]. *)
Definition scatter (word_probs : list (option probabilities))
    (bucket_indexes : list nat) (bucket_probs : list probabilities)
  : result (list (option probabilities)) :=
  foldM (fun word_probs ie => set_index word_probs (fst ie) (Some (snd ie)))
        (combine bucket_indexes bucket_probs) word_probs.

Definition _predict_label_probs (words : list (list string))
  : result (list (option probabilities)) :=
  r <- _preprocess use_inputs to_memorize_morphemes has_lm_embedder
         buckets_number symbol_codes_ target_symbol_codes_ memo embeddings
         _morpheme_memo_func _make_lm_embeddings_data words None ;;
  let '(data_by_buckets, _, indexes_by_buckets) := r in
  let word_probs := repeat None (length words) in
  foldM (fun word_probs bb =>
           let '(bucket_data, (_, bucket_indexes)) := bb in
           bucket_probs <- predict_bucket bucket_data ;;
           scatter word_probs bucket_indexes bucket_probs)
        (combine data_by_buckets indexes_by_buckets) word_probs.

End Predict.

(** The row of a word in a code matrix of [bucket_length] columns: [BEGIN],
    the codes of its symbols, [END], then [PAD] up to the end. *)
Definition padded_row (encoding : string -> option nat) (bucket_length : Z)
    (word : list string) : list nat :=
  BEGIN :: map (encode encoding) word
        ++ END :: repeat PAD (Z.to_nat bucket_length - length word - 2).

End Preprocess.

(** ** Names of the model files *)

Module ModelFile.

(** [s.rfind(c)] for a one-character [c]: the last position of [c] in [s],
    [None] standing for [-1]. *)
Fixpoint rfind (c : ascii) (s : string) : option nat :=
  match s with
  | EmptyString => None
  | String a r =>
      match rfind c r with
      | Some k => Some (S k)
      | None => if Ascii.eqb a c then Some 0 else None
      end
  end.

(** [str(i)] for an integer: its decimal digits, after a minus sign when it
    is negative. *)
Definition str (i : Z) : string := NilZero.string_of_int (Z.to_int i).

Definition make_model_file (name : string) (i : Z) : string :=
  match rfind "." name with
  | Some pos =>
      substring 0 pos name ++ "-" ++ str i ++ "."
      ++ substring (pos + 1) (String.length name - (pos + 1)) name
  | None => name ++ "-" ++ str i
  end.

End ModelFile.

(** ** A concrete numeric instance

    Probabilities that are [0] or a power [2^-k], with costs counted in whole
    units of [ln 2]: [-log (2^-k) = k] and [-log 0 = inf].  This is the
    arithmetic of the reals on these values, not that of [float64]: the code
    rounds every logarithm and every sum, so that two costs reached through
    different sums, equal here, may lie one rounding step apart there, while
    costs that differ here differ there in the same direction.  The instance
    serves to evaluate the decoder on small matrices; the theorems about the
    decoder are proved for every interpretation of the operations. *)

Module Dyadic.

Inductive prob : Type :=
| Zero
| Pow2 (k : nat).

(** [None] is [inf]. *)
Definition cost : Type := option nat.

Definition prob_gt (a b : prob) : bool :=
  match a, b with
  | Zero, _ => false
  | Pow2 _, Zero => true
  | Pow2 i, Pow2 j => Nat.ltb i j
  end.

Definition isinf (c : cost) : bool :=
  match c with None => true | Some _ => false end.

Definition neg_log (p : prob) : cost :=
  match p with Zero => None | Pow2 k => Some k end.

Definition sub_log (c : cost) (p : prob) : cost :=
  match c, p with
  | Some a, Pow2 k => Some (a + k)
  | _, _ => None
  end.

Definition cost_lt (a b : cost) : bool :=
  match a, b with
  | Some x, Some y => Nat.ltb x y
  | Some _, None => true
  | None, _ => false
  end.

(** Ascending positions by cost; equal costs keep their order, the smaller
    position first: [i] is put in front of the first position whose cost is
    not below its own. *)
Fixpoint insert_by (costs : list cost) (i : nat) (order : list nat) : list nat :=
  match order with
  | [] => [i]
  | j :: t =>
      if cost_lt (nth j costs None) (nth i costs None)
      then j :: insert_by costs i t
      else i :: order
  end.

Definition argsort (costs : list cost) : list nat :=
  fold_right (insert_by costs) [] (seq 0 (length costs)).

Definition decode_best (target_symbols_ : list string)
    (probs : list (list prob)) (length : nat) :=
  Decoder._decode_best prob cost prob_gt Zero (fun p => p) None isinf neg_log
    sub_log cost_lt argsort target_symbols_ probs length.

Definition search_layers (target_symbols_ : list string)
    (probs : list (list prob)) (length : nat) :=
  Decoder.search_layers prob cost None isinf neg_log sub_log argsort
    target_symbols_ probs length.

Definition row_best_correct (target_symbols_ : list string)
    (probs : list (list prob)) (length : nat) :=
  Decoder.row_best_correct prob prob_gt target_symbols_ probs length.

(** A row holding [hi] at the listed positions and [lo] elsewhere. *)
Definition row (n : nat) (hi : list (nat * prob)) (lo : prob) : list prob :=
  map (fun i => match find (fun kv => Nat.eqb (fst kv) i) hi with
                | Some kv => snd kv
                | None => lo
                end) (seq 0 n).

End Dyadic.

(** ** Concrete inputs used below *)

Module Examples.

Import Dyadic.

(** A label alphabet as [_make_vocabulary] builds it: the auxiliary symbols
    followed by the sorted target labels. *)
Definition labels9 : list string :=
  AUXILIARY ++ ["B-ROOT"; "E-ROOT"; "S-END"; "S-HYPH"; "S-ROOT"].

Definition labels6 : list string := AUXILIARY ++ ["B-ROOT"; "S-ROOT"].

(** A row with all its mass on one label. *)
Definition one_hot (n i : nat) : list prob := row n [(i, Pow2 0)] Zero.

(** A row of nine entries with mass 1/2 on one label and 1/16 on each of
    the other eight. *)
Definition peaked (i : nat) : list prob := row 9 [(i, Pow2 1)] (Pow2 4).

(** An empty word: rows for [BEGIN] and [END] only. *)
Definition probs_empty_word : list (list prob) := [one_hot 9 1; one_hot 9 2].

(** A one-letter word whose best label is [S-ROOT], with the best label of
    row 0 being [PAD]. *)
Definition probs_row0_pad : list (list prob) :=
  [one_hot 9 0; one_hot 9 8; one_hot 9 2].

(** A two-letter word whose best labels are [S-HYPH], [S-ROOT]. *)
Definition probs_hyph_root : list (list prob) :=
  [one_hot 9 1; peaked 7; peaked 8; one_hot 9 2].

(** A three-letter word whose best labels are [B-ROOT], [E-ROOT], [S-END]. *)
Definition probs_root_end : list (list prob) :=
  [one_hot 9 1; peaked 4; peaked 5; peaked 6; one_hot 9 2].

(** A two-letter word whose best labels are [B-ROOT], [B-ROOT]. *)
Definition probs_two_begins : list (list prob) :=
  [one_hot 9 1; peaked 4; peaked 4; one_hot 9 2].

(** A one-letter word over [labels6] with all the mass on [B-ROOT]. *)
Definition probs_only_begin : list (list prob) :=
  [one_hot 6 1; one_hot 6 4; one_hot 6 2].

(** An alphabet whose only end label, [E-ROOT], cannot open a word, and a
    one-letter word over it with all the mass on [B-ROOT]. *)
Definition labels_be : list string := AUXILIARY ++ ["B-ROOT"; "E-ROOT"].

Definition probs_be : list (list prob) :=
  [one_hot 6 1; one_hot 6 4; one_hot 6 2].

(** A one-letter word over [labels9] with all the mass on [B-ROOT]. *)
Definition probs_only_begin9 : list (list prob) :=
  [one_hot 9 1; one_hot 9 4; one_hot 9 2].

(** Flat-mode dictionary: the word ["abc"] contains the morphemes ["ab"] and
    ["abc"], both starting at offset 0; ["ab"] always occurs as a morpheme,
    ["abc"] half of the time. *)
Definition matches_abc (word : string) : list (list nat * nat) :=
  [([0], 2); ([0], 3)].

Definition counts_abc (mode : string) : option (string -> option Q) :=
  if String.eqb mode "None"
  then Some (fun ngram =>
               if String.eqb ngram "ab" then Some 1%Q
               else if String.eqb ngram "abc" then Some (1 # 2)%Q
               else None)
  else None.

(** What the decoder leaves of [probs_root_end] beside the labels [B-ROOT],
    [E-ROOT], [S-END]. *)
Definition trimmed_root_end : list (list prob) :=
  [[Zero; Zero; Zero; Zero; Pow2 1; Zero; Zero; Pow2 4; Pow2 4];
   [Zero; Zero; Zero; Zero; Zero; Pow2 1; Zero; Zero; Zero];
   [Zero; Zero; Zero; Zero; Pow2 4; Zero; Pow2 1; Pow2 4; Pow2 4]].

(** A stand-in for the networks: for every item of a bucket, the code of
    its first symbol. *)
Definition first_codes (bucket_data : Preprocess.bucket unit unit)
  : result (list nat) :=
  match bucket_data with
  | Preprocess.Inputs _ _ (Preprocess.Codes _ _ matrix :: _) =>
      Ok (map (fun row => nth 1 row 0) matrix)
  | _ => Raise ValueError
  end.

(** Three words and their code table. *)
Definition words3 : list (list string) := [["a"; "b"]; ["c"]; ["d"; "e"]].

Definition codes3 : string -> option nat :=
  snd (Vocabulary._make_vocabulary words3).

(** A five-letter word whose last two letters open a morpheme that is not
    closed. *)
Definition labels_abcde : list string :=
  ["B-ROOT"; "E-ROOT"; "S-SUFF"; "B-END"; "M-END"].

End Examples.

(** * Properties *)

(** ** The exception monad and list updates *)

Ltac bind_ok H x E :=
  match type of H with
  | Py.bind ?c _ = Ok _ =>
      destruct c as [x | ?] eqn:E; [ cbn [Py.bind] in H | discriminate H ]
  end.

Section PyFacts.

Context {A B S : Type}.

Lemma index_Ok (l : list A) (i : nat) (a : A) :
  index l i = Ok a <-> nth_error l i = Some a.
Proof.
  unfold index. destruct (nth_error l i); split; intros H;
    try discriminate; now inversion H.
Qed.

Lemma index_Ok_lt (l : list A) (i : nat) (a : A) :
  index l i = Ok a -> i < length l.
Proof.
  rewrite index_Ok. intros H. apply nth_error_Some. congruence.
Qed.

Lemma index_lt (l : list A) (i : nat) :
  i < length l -> exists a, index l i = Ok a.
Proof.
  intros H. unfold index.
  destruct (nth_error l i) as [a |] eqn:E; [ eauto | ].
  apply nth_error_None in E. lia.
Qed.

Lemma set_index_length (l l' : list A) (i : nat) (v : A) :
  set_index l i v = Ok l' -> length l' = length l.
Proof.
  revert i l'. induction l as [| h t IH]; intros [| j] l' H; simpl in H;
    try discriminate.
  - now inversion H.
  - destruct (set_index t j v) as [t' |] eqn:E; [ | discriminate ].
    inversion H; subst. simpl. f_equal. eauto.
Qed.

Lemma set_index_lt (l : list A) (i : nat) (v : A) :
  i < length l -> exists l', set_index l i v = Ok l'.
Proof.
  revert i. induction l as [| h t IH]; intros [| j] H; simpl in *; try lia.
  - eauto.
  - destruct (IH j) as [t' E]; [ lia | ]. rewrite E. eauto.
Qed.

Lemma set_index_nth_error (l l' : list A) (i j : nat) (v : A) :
  set_index l i v = Ok l' ->
  nth_error l' j = if Nat.eqb j i then Some v else nth_error l j.
Proof.
  revert i j l'. induction l as [| h t IH]; intros [| i] j l' H; simpl in H;
    try discriminate.
  - inversion H; subst. destruct j; reflexivity.
  - destruct (set_index t i v) as [t' |] eqn:E; [ | discriminate ].
    inversion H; subst. destruct j as [| j]; simpl; [ reflexivity | ].
    now apply IH.
Qed.

Lemma mapM_length (f : A -> result B) (l : list A) (r : list B) :
  mapM f l = Ok r -> length r = length l.
Proof.
  revert r. induction l as [| a t IH]; intros r H; simpl in H.
  - now inversion H.
  - destruct (f a); [ | discriminate ].
    destruct (mapM f t) eqn:E; [ | discriminate ].
    inversion H; subst. simpl. f_equal. eauto.
Qed.

Lemma mapM_Forall2 (f : A -> result B) (l : list A) (r : list B) :
  mapM f l = Ok r <-> Forall2 (fun a b => f a = Ok b) l r.
Proof.
  revert r. induction l as [| a t IH]; intros r; simpl.
  - split; intros H; [ inversion H; constructor | now inversion H ].
  - split; intros H.
    + destruct (f a) eqn:Ea; [ | discriminate ].
      destruct (mapM f t) eqn:E; [ | discriminate ].
      inversion H; subst. constructor; [ assumption | now apply IH ].
    + inversion H as [| ? b ? bs Hab Hrest]; subst.
      rewrite Hab. apply IH in Hrest. now rewrite Hrest.
Qed.

Lemma foldM_app (f : S -> A -> result S) (l1 l2 : list A) (s : S) :
  foldM f (l1 ++ l2) s = Py.bind (foldM f l1 s) (foldM f l2).
Proof.
  revert s. induction l1 as [| a t IH]; intros s; simpl; [ reflexivity | ].
  destruct (f s a); [ apply IH | reflexivity ].
Qed.

(** A property kept by every iteration holds after the loop. *)
Lemma foldM_invariant (P : S -> Prop) (f : S -> A -> result S) (l : list A) :
  (forall s a s', In a l -> P s -> f s a = Ok s' -> P s') ->
  forall s s', P s -> foldM f l s = Ok s' -> P s'.
Proof.
  induction l as [| a t IH]; intros Hstep s s' Hs H; simpl in H.
  - now inversion H; subst.
  - destruct (f s a) as [s1 |] eqn:E; [ | discriminate ].
    apply (IH (fun s0 a0 s0' Hin => Hstep s0 a0 s0' (or_intror Hin)) s1);
      [ | assumption ].
    apply (Hstep s a); [ now left | assumption | assumption ].
Qed.

End PyFacts.

(** ** Grammar automaton *)

Section GrammarFacts.

Import Grammar.

(** C3, as stated, fails: the label [E-POSTFIX] closes a postfix, is not the
    terminal [END] label, and still has no successor. *)
Lemma next_labels_empty_not_only_END :
  ~ (get_next_morpheme "E-POSTFIX" = Ok [] <-> "E-POSTFIX" = "END").
Proof.
  intros [H _].
  assert (E : get_next_morpheme "E-POSTFIX" = Ok []) by reflexivity.
  specialize (H E). discriminate H.
Qed.

(** C3 (amended): on every label of the label space [get_next_morpheme]
    returns a list, and that list is empty exactly for the terminal [END]
    label and for the two labels that close a postfix, [E-POSTFIX] and
    [S-POSTFIX]. *)
Theorem next_labels_empty_iff (l : string) (Hl : In l label_space) :
  exists nexts,
    get_next_morpheme l = Ok nexts /\
    (nexts = [] <-> l = "END" \/ l = "E-POSTFIX" \/ l = "S-POSTFIX").
Proof.
  unfold label_space in Hl; simpl in Hl.
  repeat (destruct Hl as [<- | Hl];
          [ eexists; split; [ reflexivity | ];
            split; intros H;
            [ first [ discriminate H | tauto ]
            | first [ reflexivity
                    | exfalso; destruct H as [H | [H | H]]; discriminate H ] ]
          | ]).
  contradiction.
Qed.

Lemma next_labels_empty_iff_witness :
  In "S-POSTFIX" label_space /\
  exists nexts,
    get_next_morpheme "S-POSTFIX" = Ok nexts /\
    (nexts = [] <->
     "S-POSTFIX" = "END" \/ "S-POSTFIX" = "E-POSTFIX" \/ "S-POSTFIX" = "S-POSTFIX").
Proof.
  assert (Hl : In "S-POSTFIX" label_space) by (vm_compute; tauto).
  split; [ exact Hl | exact (next_labels_empty_iff "S-POSTFIX" Hl) ].
Defined.

(** *** Sequences that follow the successor relation *)

Lemma get_next_morpheme_BEGIN : get_next_morpheme "BEGIN" = Ok start_labels.
Proof. reflexivity. Qed.

Lemma contains_dash_format (x y : string) :
  contains "-" (format_dash x y) = true.
Proof.
  unfold format_dash. induction x as [| c x IH].
  - simpl. destruct y; reflexivity.
  - cbn [String.append contains] in *. rewrite IH. apply orb_true_r.
Qed.

Lemma in_product_dash (xs tys : list string) (b : string) :
  In b (flat_map (fun x => map (fun y => format_dash x y) tys) xs) ->
  contains "-" b = true.
Proof.
  intros Hin. apply in_flat_map in Hin. destruct Hin as [x [_ Hin]].
  apply in_map_iff in Hin. destruct Hin as [y [<- _]].
  apply contains_dash_format.
Qed.

Lemma label_step_dash (a b : string) :
  label_step a b -> contains "-" b = true.
Proof.
  intros [allowed [H Hin]]. unfold get_next_morpheme in H.
  destruct (String.eqb a "END"); [ inversion H; subst; contradiction | ].
  bind_ok H parts Eparts. destruct parts as [tag ty].
  destruct (contains tag "BM"); injection H as <-.
  - exact (in_product_dash (chars "ME") [ty] b Hin).
  - exact (in_product_dash (chars "BS") (get_next_morpheme_types ty) b Hin).
Qed.

Lemma mem_In (x : string) (l : list string) : mem x l = true <-> In x l.
Proof.
  unfold mem. rewrite existsb_exists. split.
  - intros [y [Hy E]]. apply String.eqb_eq in E. now subst.
  - intros H. exists x. split; [ assumption | apply String.eqb_refl ].
Qed.

Lemma transitions_ok_adjacent (labels : list string) :
  adjacent label_step labels -> transitions_ok labels = Ok true.
Proof.
  induction labels as [| a rest IH]; [ reflexivity | ].
  destruct rest as [| b rest']; [ reflexivity | ].
  intros [[allowed [Ha Hin]] Hrest].
  change (transitions_ok (a :: b :: rest'))
    with (allowed <- get_next_morpheme a ;;
          if negb (mem b allowed) then Ok false
          else transitions_ok (b :: rest')).
  rewrite Ha. cbn [Py.bind].
  apply mem_In in Hin. rewrite Hin. cbn [negb]. now apply IH.
Qed.

Lemma adjacent_targets {A : Type} (R : A -> A -> Prop) (a : A) (l : list A) :
  adjacent R (a :: l) -> Forall (fun b => exists a', R a' b) l.
Proof.
  revert a. induction l as [| b t IH]; intros a H; constructor.
  - destruct H as [H _]. eauto.
  - destruct H as [_ H]. now apply (IH b).
Qed.

Lemma start_label_accepted (l : string) :
  In l start_labels -> Morphemes.label_type l <> "HYPH" ->
  exists tag ty,
    unpack2 (split_on "-" l) = Ok (tag, ty) /\
    contains tag "BS" = true /\
    mem ty ["PREF"; "ROOT"; "None"] = true.
Proof.
  intros Hin Hty. unfold start_labels in Hin. simpl in Hin.
  repeat (destruct Hin as [<- | Hin];
          [ first [ exfalso; apply Hty; reflexivity
                  | do 2 eexists; repeat split; reflexivity ]
          | ]).
  contradiction.
Qed.

Lemma end_label_accepted (l : string) :
  In l admissible_end_labels -> Morphemes.label_type l <> "END" ->
  exists tag ty,
    unpack2 (split_on "-" l) = Ok (tag, ty) /\
    contains tag "ES" = true /\
    mem ty ["ROOT"; "SUFF"; "ENDING"; "POSTFIX"; "None"] = true.
Proof.
  intros Hin Hty. unfold admissible_end_labels in Hin. simpl in Hin.
  repeat (destruct Hin as [<- | Hin];
          [ first [ exfalso; apply Hty; reflexivity
                  | do 2 eexists; repeat split; reflexivity ]
          | ]).
  contradiction.
Qed.

(** A sequence that follows the successor relation from [BEGIN] to an
    admissible end label is accepted, unless it opens with a hyphen or
    closes an [END]-typed morpheme. *)
Lemma chain_accepted (labels : list string) :
  labels <> [] ->
  adjacent label_step ("BEGIN" :: labels) ->
  In (last labels "") admissible_end_labels ->
  Morphemes.label_type (hd "" labels) <> "HYPH" ->
  Morphemes.label_type (last labels "") <> "END" ->
  is_correct_morpheme_sequence labels = Ok true.
Proof.
  intros Hne Hchain Hend Hfirst Hlast.
  destruct labels as [| first rest]; [ congruence | ].
  assert (Hdash : existsb (fun morpheme => negb (contains "-" morpheme))
                    (first :: rest) = false).
  { apply not_true_is_false. intros H. apply existsb_exists in H.
    destruct H as [x [Hx Hc]].
    pose proof (adjacent_targets label_step _ _ Hchain) as Hall.
    rewrite Forall_forall in Hall. destruct (Hall x Hx) as [a' Ha'].
    apply label_step_dash in Ha'. rewrite Ha' in Hc. discriminate. }
  assert (Hstart : In first start_labels).
  { destruct Hchain as [[allowed [Ha Hin]] _].
    rewrite get_next_morpheme_BEGIN in Ha. now inversion Ha; subst. }
  destruct (start_label_accepted first Hstart Hfirst)
    as [tag [ty [Eu [Etag Ety]]]].
  destruct (end_label_accepted _ Hend Hlast)
    as [tag' [ty' [Eu' [Etag' Ety']]]].
  unfold is_correct_morpheme_sequence.
  rewrite Hdash, Eu. cbn [Py.bind]. rewrite Etag, Ety. cbn [negb orb].
  rewrite Eu'. cbn [Py.bind]. rewrite Etag', Ety'. cbn [negb orb].
  apply transitions_ok_adjacent. now destruct Hchain.
Qed.

End GrammarFacts.

(** ** Flat-mode context features *)

Section ContextFacts.

Import Context Examples.

(** C5: with the matches ["ab"] (score 1) and ["abc"] (score 1/2) of the word
    ["abc"], both writing the left-boundary slot of position 1, the code
    leaves 0 in that slot: the second write takes the maximum against slot 2
    of position 0 and replaces the 1 written before.  Combining the slot with
    its own previous value keeps the 1. *)
Theorem flat_left_boundary_not_kept :
  _make_morpheme_data_simple matches_abc true counts_abc ["abc"] 5
  = Ok [[[0; 0; 0]; [0; 0; 0]; [0; 1; 0]; [0; 0; 0]; [0; 0; 0]]]%Z /\
  word_features_keep_max matches_abc true counts_abc 5 "abc"
  = Ok [[0; 0; 0]; [1; 0; 0]; [0; 1; 0]; [0; 0; 0]; [0; 0; 0]]%Z.
Proof. split; vm_compute; reflexivity. Qed.

End ContextFacts.

(** ** Labels to morphemes *)

Section MorphemeFacts.

Import Morphemes.

Variable prob : Type.
Variable one : prob.
Variable mul : prob -> prob -> prob.
Variable use_morpheme_types : bool.
Variable target_symbol_codes_ : string -> option nat.

Local Abbreviation convert :=
  (labels_to_morphemes prob one mul use_morpheme_types target_symbol_codes_).
Local Abbreviation is_end label := (mem label (end_labels use_morpheme_types)).

Lemma append_empty_r (s : string) : String.append s "" = s.
Proof. induction s as [| c s IH]; simpl; [ reflexivity | now rewrite IH ]. Qed.

Lemma append_assoc (a b c : string) :
  String.append (String.append a b) c = String.append a (String.append b c).
Proof. induction a as [| x a IH]; simpl; [ reflexivity | now rewrite IH ]. Qed.

Lemma length_append (a b : string) :
  String.length (String.append a b) = String.length a + String.length b.
Proof. induction a as [| x a IH]; simpl; [ reflexivity | now rewrite IH ]. Qed.

Lemma join_cons (x : string) (l : list string) :
  join (x :: l) = String.append x (join l).
Proof.
  unfold join. destruct l as [| y l]; simpl.
  - now rewrite append_empty_r.
  - reflexivity.
Qed.

Lemma join_snoc (l : list string) (x : string) :
  join (l ++ [x]) = String.append (join l) x.
Proof.
  induction l as [| y l IH].
  - simpl. reflexivity.
  - change ((y :: l) ++ [x]) with (y :: (l ++ [x])).
    rewrite !join_cons, IH. now rewrite append_assoc.
Qed.

Lemma length_chars (word : string) : length (chars word) = String.length word.
Proof. induction word as [| c w IH]; simpl; [ reflexivity | now rewrite IH ]. Qed.

Lemma join_firstn_chars (k : nat) (word : string) :
  join (firstn k (chars word)) = substring 0 k word.
Proof.
  revert k. induction word as [| c w IH]; intros [| k]; simpl; try reflexivity.
  rewrite join_cons, IH. reflexivity.
Qed.

Lemma length_substring_0 (k : nat) (word : string) :
  String.length (substring 0 k word) = Nat.min k (String.length word).
Proof.
  revert k. induction word as [| c w IH]; intros [| k]; simpl; try reflexivity.
  now rewrite IH.
Qed.

Lemma substring_0_all (k : nat) (word : string) :
  String.length word <= k -> substring 0 k word = word.
Proof.
  revert k. induction word as [| c w IH]; intros [| k] H; simpl in *;
    try reflexivity; try lia.
  rewrite IH by lia. reflexivity.
Qed.

Lemma end_prefix_length_le (labels : list string) :
  end_prefix_length use_morpheme_types labels <= length labels.
Proof.
  induction labels as [| l ls IH]; simpl; [ lia | ].
  destruct (end_prefix_length use_morpheme_types ls); [ | lia ].
  destruct (is_end l); lia.
Qed.

(** The end prefix is the whole list exactly when the last label is an end
    label. *)
Lemma end_prefix_length_full (labels : list string) :
  labels <> [] ->
  (end_prefix_length use_morpheme_types labels = length labels
   <-> is_end (last labels "") = true).
Proof.
  induction labels as [| l ls IH]; intros Hne; [ congruence | ].
  destruct ls as [| l' ls'].
  - simpl. destruct (is_end l); split; intros; congruence.
  - assert (Hne' : l' :: ls' <> []) by congruence.
    specialize (IH Hne').
    pose proof (end_prefix_length_le (l' :: ls')) as Hle.
    change (last (l :: l' :: ls') "") with (last (l' :: ls') "").
    change (end_prefix_length use_morpheme_types (l :: l' :: ls'))
      with (match end_prefix_length use_morpheme_types (l' :: ls') with
            | O => if is_end l then 1 else 0
            | S k => S (S k)
            end).
    change (length (l :: l' :: ls')) with (S (length (l' :: ls'))).
    destruct (end_prefix_length use_morpheme_types (l' :: ls')) as [| k] eqn:E.
    + simpl length in *. split.
      * destruct (is_end l); intros; lia.
      * intros H. apply IH in H. lia.
    + rewrite <- IH. split; intros; lia.
Qed.

(** The first loop of [labels_to_morphemes]: the closed morphemes spell the
    letters up to the last end label. *)
Lemma span_fold (letters labels : list string) :
  length letters = length labels ->
  forall morphemes curr types,
    join (fst (fst (fold_left (span_step use_morpheme_types)
                              (combine letters labels)
                              (morphemes, curr, types))))
    = String.append (join morphemes)
        (match end_prefix_length use_morpheme_types labels with
         | O => ""
         | S k => String.append curr (join (firstn (S k) letters))
         end).
Proof.
  revert labels.
  induction letters as [| c cs IH]; intros [| l ls] Hlen morphemes curr types;
    simpl in Hlen; try discriminate.
  - simpl. now rewrite append_empty_r.
  - injection Hlen as Hlen.
    simpl combine. simpl fold_left. simpl end_prefix_length.
    destruct (is_end l) eqn:El.
    + rewrite (IH ls Hlen). rewrite join_snoc.
      destruct (end_prefix_length use_morpheme_types ls) as [| k'].
      * simpl firstn. rewrite join_cons.
        change (join []) with "". rewrite !append_empty_r. reflexivity.
      * change (firstn (S (S k')) (c :: cs)) with (c :: firstn (S k') cs).
        rewrite join_cons. rewrite !append_assoc. reflexivity.
    + rewrite (IH ls Hlen).
      destruct (end_prefix_length use_morpheme_types ls) as [| k'].
      * reflexivity.
      * change (firstn (S (S k')) (c :: cs)) with (c :: firstn (S k') cs).
        rewrite join_cons, append_assoc. reflexivity.
Qed.

(** C8: asking for morpheme probabilities without passing label
    probabilities never raises; the call behaves as if probabilities had not
    been requested and returns the morphemes alone, followed by the morpheme
    types when these are requested, with no probability list. *)
Theorem labels_to_morphemes_without_probs
    (word : string) (labels : list string) (return_types : bool) :
  convert word labels None true return_types
  = convert word labels None false return_types /\
  exists morphemes types,
    convert word labels None true return_types
    = Ok (if return_types
          then [MorphemeList prob morphemes; TypeList prob types]
          else [MorphemeList prob morphemes]).
Proof.
  unfold convert, labels_to_morphemes.
  destruct (fold_left _ _ _) as [[morphemes curr] types].
  split; [ reflexivity | ].
  exists morphemes, types.
  destruct return_types; reflexivity.
Qed.

(** C10: for a word and a label list of the same length, the morphemes
    returned by [labels_to_morphemes] (whatever else is requested) spell,
    when concatenated, the prefix of the word that ends at the last position
    carrying an end label; later letters belong to no returned morpheme, so
    the morphemes spell the whole word exactly when the final label is an end
    label.  The plain call always returns. *)
Theorem morphemes_spell_end_prefix (word : string) (labels : list string)
    (Hlen : String.length word = length labels) :
  exists morphemes,
    convert word labels None false false = Ok [MorphemeList prob morphemes] /\
    (forall probs return_probs return_types answer,
        convert word labels probs return_probs return_types = Ok answer ->
        exists rest, answer = MorphemeList prob morphemes :: rest) /\
    join morphemes
    = substring 0 (end_prefix_length use_morpheme_types labels) word /\
    (labels <> [] ->
     (join morphemes = word <-> is_end (last labels "") = true)).
Proof.
  assert (Hlen' : length (chars word) = length labels)
    by (now rewrite length_chars).
  pose proof (span_fold (chars word) labels Hlen' [] "" []) as Hspan.
  unfold labels_to_morphemes.
  destruct (fold_left _ _ _) as [[morphemes curr] types].
  simpl fst in Hspan.
  assert (Hjoin : join morphemes
                  = substring 0 (end_prefix_length use_morpheme_types labels) word).
  { rewrite Hspan. change (join []) with "".
    destruct (end_prefix_length use_morpheme_types labels) as [| k].
    - destruct word; reflexivity.
    - exact (join_firstn_chars (S k) word). }
  exists morphemes. split; [ reflexivity | ]. split; [ | split ].
  - intros probs return_probs return_types answer H.
    destruct return_probs, probs as [probs |]; simpl in H.
    + destruct (foldM _ _ _) as [st | e]; simpl in H; [ | destruct return_types; discriminate ].
      destruct return_types; injection H as <-; eauto.
    + destruct return_types; injection H as <-; eauto.
    + destruct return_types; injection H as <-; eauto.
    + destruct return_types; injection H as <-; eauto.
  - exact Hjoin.
  - intros Hne.
    rewrite <- (end_prefix_length_full labels) by assumption.
    pose proof (end_prefix_length_le labels) as Hle.
    split; intros H.
    + pose proof (length_substring_0
                    (end_prefix_length use_morpheme_types labels) word) as Hl.
      rewrite <- Hjoin, H in Hl. lia.
    + rewrite Hjoin. apply substring_0_all. lia.
Qed.

End MorphemeFacts.

Lemma morphemes_spell_end_prefix_witness :
  String.length "abcde" = length Examples.labels_abcde /\
  exists morphemes,
    Morphemes.labels_to_morphemes nat 1 Nat.mul true (fun _ => None)
      "abcde" Examples.labels_abcde None false false
    = Ok [Morphemes.MorphemeList nat morphemes] /\
    (forall probs return_probs return_types answer,
        Morphemes.labels_to_morphemes nat 1 Nat.mul true (fun _ => None)
          "abcde" Examples.labels_abcde probs return_probs return_types
        = Ok answer ->
        exists rest, answer = Morphemes.MorphemeList nat morphemes :: rest) /\
    Morphemes.join morphemes
    = substring 0 (Morphemes.end_prefix_length true Examples.labels_abcde)
        "abcde" /\
    (Examples.labels_abcde <> [] ->
     (Morphemes.join morphemes = "abcde" <->
      mem (last Examples.labels_abcde "") (Morphemes.end_labels true) = true)).
Proof.
  assert (Hlen : String.length "abcde" = length Examples.labels_abcde)
    by reflexivity.
  split; [ exact Hlen | ].
  exact (morphemes_spell_end_prefix nat 1 Nat.mul true (fun _ => None)
           "abcde" Examples.labels_abcde Hlen).
Defined.

(** ** Constrained decoder *)

Section DecoderFacts.

Variable prob : Type.
Variable cost : Type.
Variable prob_gt : prob -> prob -> bool.
Variable zero : prob.
Variable float32 : prob -> prob.
Variable inf : cost.
Variable isinf : cost -> bool.
Variable neg_log : prob -> cost.
Variable sub_log : cost -> prob -> cost.
Variable cost_lt : cost -> cost -> bool.
Variable argsort : list cost -> list nat.
Variable target_symbols_ : list string.

Local Abbreviation codes := (Decoder.target_symbol_codes_ target_symbols_).
Local Abbreviation known_codes := (Decoder.known_codes target_symbols_).
Local Abbreviation next_states :=
  (Decoder.get_possible_next_states target_symbols_).
Local Abbreviation end_states := (Decoder.end_states target_symbols_).
Local Abbreviation n_symbols := (Decoder.target_symbols_number_ target_symbols_).
Local Abbreviation argmax := (Decoder.argmax prob prob_gt).
Local Abbreviation row_best_states := (Decoder.row_best_states prob prob_gt).
Local Abbreviation row_best_correct :=
  (Decoder.row_best_correct prob prob_gt target_symbols_).
Local Abbreviation relax := (Decoder.relax prob cost isinf sub_log).
Local Abbreviation expand :=
  (Decoder.expand prob cost isinf sub_log target_symbols_).
Local Abbreviation step :=
  (Decoder.step prob cost inf isinf sub_log argsort target_symbols_).
Local Abbreviation search_layers :=
  (Decoder.search_layers prob cost inf isinf neg_log sub_log argsort
     target_symbols_).
Local Abbreviation min_from := (Decoder.min_from cost cost_lt).
Local Abbreviation min_by_cost := (Decoder.min_by_cost cost cost_lt).
Local Abbreviation fallback :=
  (Decoder.fallback prob cost inf isinf neg_log sub_log cost_lt argsort
     target_symbols_).
Local Abbreviation trim_step := (Decoder.trim_step prob float32 target_symbols_).
Local Abbreviation trim := (Decoder.trim prob zero float32 target_symbols_).
Local Abbreviation symbol_of := (Decoder.symbol_of target_symbols_).
Local Abbreviation decode_best :=
  (Decoder._decode_best prob cost prob_gt zero float32 inf isinf neg_log sub_log
     cost_lt argsort target_symbols_).
Local Abbreviation legal := (Decoder.legal target_symbols_).
Local Abbreviation pointer := Decoder.pointer.
Local Abbreviation linked := Decoder.linked.
Local Abbreviation layer_ok := (Decoder.layer_ok cost isinf target_symbols_).
Local Abbreviation search_ok := (Decoder.search_ok cost isinf target_symbols_).
Local Abbreviation labelled := (Decoder.labelled target_symbols_).

(** [np.isinf(np.inf)]. *)
Hypothesis inf_isinf : isinf inf = true.

(** *** The code table *)

Lemma last_position_Some (x : string) (l : list string) (i : nat)
    (found : option nat) (c : nat) :
  Decoder.last_position x l i found = Some c ->
  found = Some c \/ (i <= c /\ nth_error l (c - i) = Some x).
Proof.
  revert i found. induction l as [| a t IH]; intros i found H; simpl in H.
  - now left.
  - apply IH in H. destruct H as [H | [Hle Hnth]].
    + destruct (String.eqb_spec a x) as [-> | _].
      * inversion H; subst. right. split; [ lia | ].
        now rewrite Nat.sub_diag.
      * now left.
    + right. split; [ lia | ].
      replace (c - i) with (S (c - S i)) by lia. exact Hnth.
Qed.

Lemma codes_symbol (x : string) (c : nat) :
  codes x = Some c -> nth_error target_symbols_ c = Some x.
Proof.
  unfold Decoder.target_symbol_codes_. intros H.
  apply last_position_Some in H. destruct H as [H | [_ H]]; [ discriminate | ].
  now rewrite Nat.sub_0_r in H.
Qed.

Lemma known_codes_In (labels : list string) (c : nat) :
  In c (known_codes labels) ->
  exists x, In x labels /\ nth_error target_symbols_ c = Some x.
Proof.
  induction labels as [| x t IH]; simpl; [ contradiction | ].
  destruct (codes x) as [c' |] eqn:E.
  - intros [<- | H].
    + exists x. split; [ now left | now apply codes_symbol ].
    + destruct (IH H) as [y [Hy Hc]]. exists y. split; [ now right | assumption ].
  - intros H. destruct (IH H) as [y [Hy Hc]]. exists y.
    split; [ now right | assumption ].
Qed.

Lemma known_codes_lt (labels : list string) (c : nat) :
  In c (known_codes labels) -> c < length target_symbols_.
Proof.
  intros H. apply known_codes_In in H. destruct H as [x [_ H]].
  apply nth_error_Some. congruence.
Qed.

(** *** Lengths *)

Lemma argmax_from_lt (l : list prob) (best_i i : nat) (best : prob) :
  best_i < i -> Decoder.argmax_from prob prob_gt best_i best i l < i + length l.
Proof.
  revert best_i i best. induction l as [| x t IH]; intros best_i i best H;
    simpl; [ lia | ].
  destruct (prob_gt x best).
  - specialize (IH i (S i) x). lia.
  - specialize (IH best_i (S i) best). lia.
Qed.

Lemma argmax_lt (row : list prob) (i : nat) :
  argmax row = Ok i -> i < length row.
Proof.
  destruct row as [| x t]; simpl; [ discriminate | ].
  intros H. inversion H; subst.
  pose proof (argmax_from_lt t 0 1 x). lia.
Qed.

Lemma argmax_nonempty (row : list prob) :
  row <> [] -> exists i, argmax row = Ok i.
Proof. destruct row; [ congruence | simpl; eauto ]. Qed.

Lemma backtrack_length (states : list (list (option nat))) (j : nat)
    (acc r : list (option nat)) :
  Decoder.backtrack states j acc = Ok r -> length r = length acc + j.
Proof.
  revert acc r. induction j as [| j IH]; intros acc r H; simpl in H.
  - inversion H; subst. lia.
  - bind_ok H layer El.
    destruct (last acc None) as [s |]; [ | discriminate ].
    bind_ok H p Ep.
    apply IH in H. rewrite length_app in H. simpl in H. lia.
Qed.

Lemma fallback_length (probs : list (list prob)) (m : nat)
    (best_states : list (option nat)) :
  fallback probs m = Ok best_states -> length best_states = m + 1.
Proof.
  unfold Decoder.fallback. intros H.
  bind_ok H s Es. bind_ok H best Eb. bind_ok H bs Ebs.
  inversion H; subst. rewrite length_rev.
  apply backtrack_length in Ebs. simpl in Ebs. lia.
Qed.

Lemma row_best_states_length (probs : list (list prob)) (m : nat)
    (best_states : list nat) :
  m + 1 <= length probs ->
  row_best_states probs m = Ok best_states -> length best_states = m + 1.
Proof.
  unfold Decoder.row_best_states. intros Hrows H.
  apply mapM_length in H. rewrite H, length_firstn. lia.
Qed.

Lemma min_from_In (costs : list cost) (best : nat) (best_cost : cost)
    (rest : list nat) (b : nat) :
  min_from costs best best_cost rest = Ok b -> b = best \/ In b rest.
Proof.
  revert best best_cost. induction rest as [| x t IH]; intros best bc H;
    simpl in H.
  - inversion H. now left.
  - bind_ok H c Ec. destruct (cost_lt c bc); apply IH in H; simpl;
      intuition auto.
Qed.

Lemma min_by_cost_In (costs : list cost) (states : list nat) (b : nat) :
  min_by_cost costs states = Ok b -> In b states.
Proof.
  destruct states as [| x t]; simpl; [ discriminate | ].
  intros H. bind_ok H c Ec. apply min_from_In in H. intuition auto.
Qed.

Lemma min_from_total (costs : list cost) (best : nat) (best_cost : cost)
    (rest : list nat) :
  Forall (fun x => x < length costs) rest ->
  exists b, min_from costs best best_cost rest = Ok b.
Proof.
  revert best best_cost. induction rest as [| x t IH]; intros best bc H;
    simpl; [ eauto | ].
  inversion H as [| ? ? Hx Ht]; subst.
  destruct (index_lt costs x Hx) as [c Ec]. rewrite Ec. simpl.
  destruct (cost_lt c bc); apply IH; assumption.
Qed.

Lemma min_by_cost_total (costs : list cost) (states : list nat) :
  states <> [] ->
  Forall (fun x => x < length costs) states ->
  exists b, min_by_cost costs states = Ok b.
Proof.
  destruct states as [| x t]; [ congruence | ]. intros _ H.
  inversion H as [| ? ? Hx Ht]; subst. simpl.
  destruct (index_lt costs x Hx) as [c Ec]. rewrite Ec. simpl.
  now apply min_from_total.
Qed.

(** *** Length of the decoded sequence *)

Lemma fallback_empty_word (symbols : list string) (probs : list (list prob)) :
  target_symbols_ = AUXILIARY ++ symbols ->
  1 <= length probs ->
  Forall (fun row => length row = length target_symbols_) probs ->
  end_states <> [] ->
  exists best, fallback probs 0 = Ok [Some best].
Proof.
  intros Halpha Hrows Hcols Hend.
  assert (Hn : 4 <= length target_symbols_)
    by (rewrite Halpha, length_app; simpl; lia).
  destruct probs as [| row0 rest]; simpl in Hrows; [ lia | ].
  inversion Hcols as [| ? ? Hrow0 _]; subst x l.
  destruct (index_lt row0 BEGIN) as [p Ep]; [ unfold BEGIN; lia | ].
  destruct (set_index_lt (repeat inf n_symbols) BEGIN (neg_log p))
    as [costs0 Ec];
    [ rewrite repeat_length; unfold Decoder.target_symbols_number_, BEGIN; lia | ].
  destruct (set_index_lt (repeat (@None nat) n_symbols) BEGIN (Some BEGIN))
    as [states0 Es];
    [ rewrite repeat_length; unfold Decoder.target_symbols_number_, BEGIN; lia | ].
  destruct (min_by_cost_total costs0 end_states Hend) as [best Eb].
  { apply Forall_forall. intros x Hx.
    apply set_index_length in Ec. rewrite Ec, repeat_length.
    now apply known_codes_lt in Hx. }
  exists best.
  unfold Decoder.fallback, Decoder.search_layers, Decoder.at2.
  change (index (row0 :: rest) 0) with (Ok row0).
  cbn [Py.bind]. rewrite Ep. cbn [Py.bind]. rewrite Ec. cbn [Py.bind].
  rewrite Es. cbn [Py.bind seq foldM fst snd]. rewrite Eb.
  reflexivity.
Qed.

(** C7: over an alphabet that starts with the auxiliary symbols and holds at
    least one admissible end label, and for a matrix with one column per
    label and at least [m + 1] rows, every label sequence that [decode_best]
    returns for a word of content length [m] has exactly [m] labels; for the
    empty word the decoder does return, and returns the empty label list. *)
Theorem decode_best_length (symbols : list string) (probs : list (list prob))
    (m : nat)
    (Halpha : target_symbols_ = AUXILIARY ++ symbols)
    (Hrows : m + 1 <= length probs)
    (Hcols : Forall (fun row => length row = length target_symbols_) probs)
    (Hend : end_states <> []) :
  (forall labels trimmed,
      decode_best probs m = Ok (labels, trimmed) -> length labels = m) /\
  (m = 0 -> decode_best probs m = Ok ([], [])).
Proof.
  split.
  - intros labels trimmed H. unfold Decoder._decode_best in H.
    bind_ok H bs Ebs. bind_ok H bl Ebl. bind_ok H correct Ec.
    bind_ok H best_states Ebest. bind_ok H out Eout. bind_ok H ls Els.
    inversion H; subst ls out.
    apply mapM_length in Els. rewrite Els.
    assert (Hlen : length best_states = m + 1).
    { destruct correct; simpl in Ebest.
      - inversion Ebest; subst. rewrite length_map.
        now apply (row_best_states_length probs).
      - now apply (fallback_length probs). }
    destruct best_states; simpl in *; lia.
  - intros ->.
    assert (Hn : 4 <= length target_symbols_)
      by (rewrite Halpha, length_app; simpl; lia).
    destruct (fallback_empty_word symbols probs Halpha Hrows Hcols Hend)
      as [best Ef].
    destruct probs as [| row0 rest]; simpl in Hrows; [ lia | ].
    inversion Hcols as [| ? ? Hrow0 _]; subst x l.
    destruct (argmax_nonempty row0) as [i0 Ei].
    { intros ->. simpl in Hrow0. lia. }
    destruct (index_lt target_symbols_ i0) as [l0 El].
    { apply argmax_lt in Ei. lia. }
    unfold Decoder._decode_best, Decoder.row_best_states.
    cbn [firstn Nat.add mapM]. rewrite Ei. cbn [Py.bind mapM].
    rewrite El. cbn [Py.bind tl Grammar.is_correct_morpheme_sequence negb].
    rewrite Ef. reflexivity.
Qed.

(** *** The layers of the search *)

Lemma nth_error_repeat_inv {T : Type} (x y : T) (n i : nat) :
  nth_error (repeat x n) i = Some y -> y = x.
Proof.
  intros H. apply nth_error_In in H. now apply repeat_spec in H.
Qed.

Lemma fresh_layer_ok (last_costs : list cost) (n : nat) (z : Z) :
  layer_ok last_costs (Decoder.mkLayer cost (repeat inf n) (repeat None n) z).
Proof.
  split; simpl.
  - intros s p H. apply nth_error_repeat_inv in H. discriminate.
  - intros s c H Hfin. apply nth_error_repeat_inv in H. subst c. congruence.
Qed.

Lemma relax_ok (probs : list (list prob)) (i : nat) (last_costs : list cost)
    (prev_cost : cost) (prev_state state : nat) (st st' : Decoder.layer cost) :
  nth_error last_costs prev_state = Some prev_cost ->
  isinf prev_cost = false ->
  legal prev_state state ->
  layer_ok last_costs st ->
  relax probs i prev_cost prev_state st state = Ok st' ->
  layer_ok last_costs st'.
Proof.
  intros Hnth Hfin Hlegal [H1 H2] H. unfold Decoder.relax in H.
  bind_ok H c Ec. destruct (isinf c) eqn:Einf.
  - bind_ok H p Ep. bind_ok H costs' Ecosts. bind_ok H states' Estates.
    inversion H; subst st'. split; simpl.
    + intros s q Hs. rewrite (set_index_nth_error _ _ _ s _ Estates) in Hs.
      destruct (Nat.eqb_spec s state) as [-> | Hne].
      * inversion Hs; subst q. split; [ assumption | eauto ].
      * now apply H1.
    + intros s c' Hs Hc'. rewrite (set_index_nth_error _ _ _ s _ Estates).
      rewrite (set_index_nth_error _ _ _ s _ Ecosts) in Hs.
      destruct (Nat.eqb_spec s state) as [-> | Hne]; [ eauto | ].
      now apply (H2 s c').
  - inversion H; subst st'. now split.
Qed.

Lemma expand_ok (probs : list (list prob)) (i : nat) (last_costs : list cost)
    (state_order : list nat) (st st' : Decoder.layer cost) :
  layer_ok last_costs st ->
  expand probs i last_costs state_order st = Ok st' ->
  layer_ok last_costs st'.
Proof.
  revert st. induction state_order as [| prev_state rest IH]; intros st Hok H;
    simpl in H.
  - now inversion H; subst.
  - bind_ok H prev_cost Ecost. apply index_Ok in Ecost.
    destruct (isinf prev_cost) eqn:Einf; [ now inversion H; subst | ].
    destruct (Decoder.is_auxiliary prev_state && negb (Nat.eqb i 0)).
    + now apply (IH st).
    + bind_ok H possible Eposs. bind_ok H st1 Est1.
      assert (Hok1 : layer_ok last_costs st1).
      { apply (foldM_invariant (fun st0 => layer_ok last_costs st0)
                 (relax probs i prev_cost prev_state) possible)
          with (s := st); [ | assumption | assumption ].
        intros st0 state st0' Hin Hst0 Hrelax.
        apply (relax_ok probs i last_costs prev_cost prev_state state st0);
          try assumption.
        exists possible. now split. }
      destruct (Z.eqb _ _); [ now inversion H; subst | now apply (IH st1) ].
Qed.

Lemma pointer_app (states more : list (list (option nat))) (k s : nat)
    (x : option nat) :
  pointer states k s x -> pointer (states ++ more) k s x.
Proof.
  intros [layer [Hk Hs]]. exists layer. split; [ | assumption ].
  rewrite nth_error_app1; [ assumption | ].
  apply nth_error_Some. congruence.
Qed.

Lemma pointer_snoc_inv (states : list (list (option nat)))
    (layer : list (option nat)) (k s : nat) (x : option nat) :
  pointer (states ++ [layer]) k s x ->
  pointer states k s x \/ (k = length states /\ nth_error layer s = Some x).
Proof.
  intros [layer' [Hk Hs]].
  destruct (Nat.lt_ge_cases k (length states)) as [Hlt | Hge].
  - left. rewrite nth_error_app1 in Hk by assumption. now exists layer'.
  - right. rewrite nth_error_app2 in Hk by assumption.
    destruct (k - length states) as [| d] eqn:Ed; simpl in Hk.
    + inversion Hk; subst. split; [ lia | assumption ].
    + destruct d; discriminate.
Qed.

Lemma step_ok (probs : list (list prob)) (i j : nat)
    (s s' : Decoder.search cost) :
  search_ok i s -> step probs s j = Ok s' -> search_ok (i + 1) s'.
Proof.
  destruct s as [last_costs states]. intros [Hlen [HF [HZ HP]]] H.
  unfold Decoder.step in H. bind_ok H st Est. inversion H; subst s'.
  apply expand_ok in Est; [ | apply fresh_layer_ok ].
  destruct Est as [H1 H2].
  assert (Hnew : nth_error (states ++ [Decoder.prev_states cost st]) (i + 1)
                 = Some (Decoder.prev_states cost st)).
  { rewrite nth_error_app2 by lia.
    replace (i + 1 - length states) with 0 by lia. reflexivity. }
  repeat split.
  - rewrite length_app. simpl. lia.
  - intros x c Hx Hfin. destruct (H2 x c Hx Hfin) as [p Hp].
    exists p. exists (Decoder.prev_states cost st). now split.
  - intros x p Hptr. apply pointer_snoc_inv in Hptr.
    destruct Hptr as [Hptr | [Hk _]]; [ now apply (HZ x p) | lia ].
  - apply pointer_snoc_inv in H0.
    destruct H0 as [Hptr | [Hk Hs]]; [ now apply (HP k s p) | ].
    now apply (H1 s p).
  - apply pointer_snoc_inv in H0.
    destruct H0 as [Hptr | [Hk Hs]].
    + destruct (HP k s p Hptr) as [_ [q Hq]].
      exists q. now apply pointer_app.
    + destruct (H1 s p Hs) as [_ [c [Hc Hfin]]].
      destruct (HF p c Hc Hfin) as [q Hq].
      exists q. replace k with i by lia. now apply pointer_app.
Qed.

Lemma steps_ok (probs : list (list prob)) (positions : list nat) (i : nat)
    (s s' : Decoder.search cost) :
  search_ok i s ->
  foldM (step probs) positions s = Ok s' ->
  search_ok (i + length positions) s'.
Proof.
  revert i s. induction positions as [| j rest IH]; intros i s Hok H;
    simpl in H.
  - inversion H; subst. simpl. now rewrite Nat.add_0_r.
  - destruct (step probs s j) as [s1 |] eqn:E; [ | discriminate ].
    apply (step_ok probs i j) in E; [ | assumption ].
    apply (IH (i + 1) s1) in H; [ | assumption ].
    simpl. now replace (i + S (length rest)) with (i + 1 + length rest) by lia.
Qed.

Lemma search_layers_ok (probs : list (list prob)) (m : nat)
    (s : Decoder.search cost) :
  search_layers probs m = Ok s -> search_ok m s.
Proof.
  unfold Decoder.search_layers. intros H.
  bind_ok H p Ep. bind_ok H costs0 Ec. bind_ok H states0 Es.
  apply (steps_ok probs (seq 0 m) 0) in H.
  - now rewrite length_seq in H.
  - repeat split.
    + intros x c Hx Hfin.
      rewrite (set_index_nth_error _ _ _ x _ Ec) in Hx.
      destruct (Nat.eqb_spec x BEGIN) as [-> | Hne].
      * exists BEGIN, states0. split; [ reflexivity | ].
        rewrite (set_index_nth_error _ _ _ BEGIN _ Es).
        now rewrite Nat.eqb_refl.
      * apply nth_error_repeat_inv in Hx. subst c. congruence.
    + intros x q [layer [Hk Hx]]. simpl in Hk. inversion Hk; subst layer.
      rewrite (set_index_nth_error _ _ _ x _ Es) in Hx.
      destruct (Nat.eqb_spec x BEGIN) as [-> | Hne]; [ reflexivity | ].
      apply nth_error_repeat_inv in Hx. discriminate.
    + destruct H0 as [layer [Hk _]]. simpl in Hk.
      destruct k; discriminate.
    + destruct H0 as [layer [Hk _]]. simpl in Hk.
      destruct k; discriminate.
Qed.

(** *** Backtracking *)

Lemma last_Some_snoc {T : Type} (l : list (option T)) (s : T) :
  last l None = Some s -> exists l', l = l' ++ [Some s].
Proof.
  intros H. destruct l as [| x t] using rev_ind; [ discriminate | ].
  rewrite last_last in H. subst x. eauto.
Qed.

Lemma backtrack_linked (states : list (list (option nat))) (j : nat)
    (acc r : list (option nat)) :
  Decoder.backtrack states j acc = Ok r ->
  linked states j (rev acc) ->
  linked states 0 (rev r).
Proof.
  revert acc r. induction j as [| j IH]; intros acc r H Hacc; simpl in H.
  - now inversion H; subst.
  - bind_ok H layer El. apply index_Ok in El.
    destruct (last acc None) as [s |] eqn:Elast; [ | discriminate ].
    bind_ok H x Ex. apply index_Ok in Ex.
    apply (IH _ _ H).
    apply last_Some_snoc in Elast. destruct Elast as [acc' ->].
    rewrite !rev_app_distr in *. simpl rev in *. simpl app in *.
    split; [ | assumption ].
    exists s. split; [ reflexivity | ]. now exists layer.
Qed.

Lemma trim_steps_labelled (probs : list (list prob)) (l : list (option nat))
    (a : nat) (out out' : list (list prob)) :
  foldM (trim_step probs) (combine (seq a (length l)) l) out = Ok out' ->
  Forall (fun x => exists label, labelled x label) l.
Proof.
  revert a out. induction l as [| x t IH]; intros a out H; constructor;
    cbn [length seq combine foldM] in H;
    destruct (trim_step probs out (a, x)) as [out1 |] eqn:E;
    try discriminate.
  - unfold Decoder.trim_step in E. bind_ok E possible Ep.
    destruct x as [s |]; [ | simpl in Ep; discriminate ].
    unfold Decoder.next_states_of, Decoder.get_possible_next_states in Ep.
    bind_ok Ep label El. apply index_Ok in El.
    exists label, s. now split.
  - now apply (IH (S a) out1).
Qed.

Lemma symbols_labelled (l : list (option nat)) (labels : list string) :
  mapM symbol_of l = Ok labels -> Forall2 labelled l labels.
Proof.
  intros H. apply mapM_Forall2 in H.
  induction H as [| x label l labels Hx _ IH]; constructor; [ | assumption ].
  destruct x as [s |]; simpl in Hx; [ | discriminate ].
  apply index_Ok in Hx. exists s. now split.
Qed.

Lemma labelled_fun (x : option nat) (a b : string) :
  labelled x a -> labelled x b -> a = b.
Proof. intros [s [-> Ha]] [s' [E Hb]]. inversion E; subst. congruence. Qed.

(** Along a linked list of states the labels follow the successor
    relation, and a list linked from position 0 starts at [BEGIN]. *)
Lemma linked_label_steps (i : nat) (last_costs : list cost)
    (states : list (list (option nat))) :
  search_ok i (last_costs, states) ->
  forall l k labels,
    linked states k l ->
    Forall2 labelled l labels ->
    adjacent Grammar.label_step labels /\
    (k = 0 -> 2 <= length l -> exists rest, l = Some BEGIN :: rest).
Proof.
  intros [_ [_ [HZ HP]]].
  induction l as [| x t IH]; intros k labels Hlink Hlab.
  - inversion Hlab; subst. split; [ exact I | simpl; lia ].
  - inversion Hlab as [| ? a ? labels' Hxa Hrest]; subst.
    destruct t as [| y t'].
    + inversion Hrest; subst. split; [ exact I | simpl; lia ].
    + inversion Hrest as [| ? b ? labels'' Hyb Hrest']; subst.
      destruct Hlink as [[sy [-> Hptr]] Hlink].
      destruct Hxa as [sx [-> Hsx]]. destruct Hyb as [sy' [Ey Hsy]].
      inversion Ey; subst sy'.
      destruct (HP k sy sx Hptr) as [[ps [Hps Hin]] [q Hq]].
      destruct (IH (S k) (b :: labels'') Hlink Hrest) as [Hadj _].
      split.
      * split; [ | assumption ].
        unfold Decoder.get_possible_next_states in Hps.
        bind_ok Hps label El. apply index_Ok in El.
        bind_ok Hps nexts En. inversion Hps; subst ps.
        apply known_codes_In in Hin. destruct Hin as [z [Hz Hsz]].
        assert (label = a) by congruence. assert (z = b) by congruence.
        subst. now exists nexts.
      * intros -> _. apply HZ in Hq. subst sx. eauto.
Qed.

(** *** Acceptance of the decoded sequence *)

Lemma mapM_symbol_of_Some (l : list nat) :
  mapM symbol_of (map Some l) = mapM (index target_symbols_) l.
Proof.
  induction l as [| x t IH]; simpl; [ reflexivity | now rewrite IH ].
Qed.

Lemma mapM_tl {T U : Type} (f : T -> result U) (l : list T) (r : list U) :
  mapM f l = Ok r -> mapM f (tl l) = Ok (tl r).
Proof.
  destruct l as [| x t]; simpl; intros H.
  - now inversion H.
  - destruct (f x); [ | discriminate ].
    destruct (mapM f t); [ | discriminate ]. now inversion H.
Qed.

Lemma backtrack_prefix (states : list (list (option nat))) (j : nat)
    (acc r : list (option nat)) :
  Decoder.backtrack states j acc = Ok r -> exists path, r = acc ++ path.
Proof.
  revert acc r. induction j as [| j IH]; intros acc r H; simpl in H.
  - inversion H; subst. exists []. now rewrite app_nil_r.
  - bind_ok H layer El.
    destruct (last acc None) as [s |]; [ | discriminate ].
    bind_ok H x Ex. apply IH in H. destruct H as [path ->].
    exists (x :: path). now rewrite <- app_assoc.
Qed.

Lemma Forall2_last {T U : Type} (R : T -> U -> Prop) (l : list T)
    (l' : list U) (d : T) (d' : U) :
  Forall2 R l l' -> l <> [] -> R (last l d) (last l' d').
Proof.
  induction 1 as [| x y t t' Hxy Hrest IH]; intros Hne; [ congruence | ].
  destruct Hrest as [| x2 y2 t2 t2' H2 Hrest2]; [ exact Hxy | ].
  apply IH. discriminate.
Qed.

(** What the fallback branch hands back, once [trim] and the final list
    comprehension have gone through: the labels follow the successor
    relation from [BEGIN] and close on an admissible end label. *)
Lemma fallback_chain (symbols : list string) (probs : list (list prob))
    (m : nat) (best_states : list (option nat)) (out : list (list prob))
    (labels : list string) :
  target_symbols_ = AUXILIARY ++ symbols ->
  1 <= m ->
  fallback probs m = Ok best_states ->
  trim probs m best_states = Ok out ->
  mapM symbol_of (tl best_states) = Ok labels ->
  labels <> [] /\
  adjacent Grammar.label_step ("BEGIN" :: labels) /\
  In (last labels "") Grammar.admissible_end_labels.
Proof.
  intros Halpha Hm Hfb Htrim Hlabels.
  pose proof (fallback_length probs m best_states Hfb) as Hlen.
  unfold Decoder.fallback in Hfb.
  bind_ok Hfb s Es. bind_ok Hfb best Eb. bind_ok Hfb r Er.
  inversion Hfb; subst best_states. clear Hfb.
  apply search_layers_ok in Es. destruct s as [last_costs states].
  simpl fst in *. simpl snd in *.
  pose proof (backtrack_linked states m [Some best] r Er I) as Hlink.
  destruct (backtrack_prefix states m [Some best] r Er) as [path ->].
  simpl app in *. simpl rev in *.
  apply min_by_cost_In in Eb. apply known_codes_In in Eb.
  destruct Eb as [end_label [Hend Hbest]].
  apply symbols_labelled in Hlabels.
  unfold Decoder.trim in Htrim. apply trim_steps_labelled in Htrim.
  rewrite length_app in Hlen. simpl in Hlen.
  destruct (rev path) as [| x0 rest] eqn:Erev; [ simpl in Hlen; lia | ].
  simpl app in *. simpl tl in *.
  assert (Hx0 : exists l0, labelled x0 l0).
  { unfold drop_last in Htrim.
    assert (Hne : rest ++ [Some best] <> [])
      by (destruct rest; discriminate).
    destruct (rest ++ [Some best]) as [| y t] eqn:E; [ congruence | ].
    simpl removelast in Htrim. now inversion Htrim. }
  destruct Hx0 as [l0 Hx0].
  assert (Hall : Forall2 labelled (x0 :: rest ++ [Some best]) (l0 :: labels))
    by now constructor.
  destruct (linked_label_steps m last_costs states Es _ 0 _ Hlink Hall)
    as [Hadj Hhead].
  destruct Hhead as [rest' Hhead];
    [ reflexivity | simpl; rewrite length_app; simpl; lia | ].
  inversion Hhead; subst x0.
  destruct Hx0 as [s0 [E0 Hs0]]. inversion E0; subst s0.
  rewrite Halpha in Hs0. simpl in Hs0. inversion Hs0; subst l0.
  assert (Hne : rest ++ [Some best] <> []) by (destruct rest; discriminate).
  pose proof (Forall2_last labelled _ _ None "" Hlabels Hne) as Hlast.
  rewrite last_last in Hlast. destruct Hlast as [sb [Esb Hsb]].
  inversion Esb; subst sb.
  split; [ | split ].
  - intros ->. inversion Hlabels as [E1 E2 |]. now destruct rest.
  - exact Hadj.
  - replace (last labels "") with end_label by congruence. exact Hend.
Qed.

(** C1 (amended): for a word of at least one letter, over an alphabet that
    starts with the auxiliary symbols, a label sequence returned by
    [decode_best] is accepted by [is_correct_morpheme_sequence] whenever its
    first label is not hyphen-typed and its last label is not [END]-typed:
    it is either the row-wise best sequence, which was tested, or a path of
    the search, which follows the successor relation from [BEGIN] and closes
    on an admissible end label. *)
Theorem decode_best_accepted (symbols : list string)
    (probs : list (list prob)) (m : nat) (labels : list string)
    (trimmed : list (list prob))
    (Halpha : target_symbols_ = AUXILIARY ++ symbols)
    (Hm : 1 <= m)
    (Hdecode : decode_best probs m = Ok (labels, trimmed))
    (Hfirst : Morphemes.label_type (hd "" labels) <> "HYPH")
    (Hlast : Morphemes.label_type (last labels "") <> "END") :
  Grammar.is_correct_morpheme_sequence labels = Ok true.
Proof.
  unfold Decoder._decode_best in Hdecode.
  bind_ok Hdecode bs Ebs. bind_ok Hdecode bl Ebl.
  bind_ok Hdecode correct Ec. bind_ok Hdecode best_states Ebest.
  bind_ok Hdecode out Eout. bind_ok Hdecode ls Els.
  inversion Hdecode; subst ls out. clear Hdecode.
  destruct correct; simpl in Ebest.
  - inversion Ebest; subst best_states.
    replace (tl (map Some bs)) with (map Some (tl bs)) in Els
      by (destruct bs; reflexivity).
    rewrite mapM_symbol_of_Some in Els.
    rewrite (mapM_tl _ _ _ Ebl) in Els. inversion Els; subst labels.
    exact Ec.
  - destruct (fallback_chain symbols probs m best_states trimmed labels
                Halpha Hm Ebest Eout Els) as [Hne [Hadj Hend]].
    now apply chain_accepted.
Qed.

(** When the row-wise best labels are accepted, a returned sequence is
    exactly those labels at the positions [1..m]. *)
Lemma decode_best_fast_path_labels (probs : list (list prob)) (m : nat)
    (best_states : list nat) (best_labels labels : list string)
    (trimmed : list (list prob)) :
  row_best_states probs m = Ok best_states ->
  mapM (index target_symbols_) best_states = Ok best_labels ->
  Grammar.is_correct_morpheme_sequence (tl best_labels) = Ok true ->
  decode_best probs m = Ok (labels, trimmed) ->
  labels = tl best_labels.
Proof.
  intros Ebs Ebl Ec H. unfold Decoder._decode_best in H.
  rewrite Ebs in H. cbn [Py.bind] in H. rewrite Ebl in H. cbn [Py.bind] in H.
  rewrite Ec in H. cbn [Py.bind negb] in H.
  bind_ok H out Eout. bind_ok H ls Els. inversion H; subst ls out.
  replace (tl (map Some best_states)) with (map Some (tl best_states)) in Els
    by (destruct best_states; reflexivity).
  rewrite mapM_symbol_of_Some, (mapM_tl _ _ _ Ebl) in Els.
  now inversion Els.
Qed.

(** *** When no end state was reached *)

Lemma steps_length (probs : list (list prob)) (positions : list nat)
    (s s' : Decoder.search cost) :
  foldM (step probs) positions s = Ok s' ->
  length (snd s') = length (snd s) + length positions.
Proof.
  revert s. induction positions as [| j rest IH]; intros s H; simpl in H.
  - inversion H; subst. simpl. lia.
  - destruct (step probs s j) as [s1 |] eqn:E; [ | discriminate ].
    apply IH in H. rewrite H. destruct s as [c st].
    unfold Decoder.step in E. bind_ok E layer El. inversion E; subst s1.
    simpl. rewrite length_app. simpl. lia.
Qed.

Lemma search_layers_length (probs : list (list prob)) (m : nat)
    (s : Decoder.search cost) :
  search_layers probs m = Ok s -> length (snd s) = m + 1.
Proof.
  unfold Decoder.search_layers. intros H.
  bind_ok H p Ep. bind_ok H costs0 Ec. bind_ok H states0 Es.
  apply steps_length in H. rewrite H, length_seq. simpl. lia.
Qed.

Lemma nth_error_last {T : Type} (l : list T) (x d : T) :
  nth_error l (length l - 1) = Some x -> last l d = x.
Proof.
  destruct l as [| y t] using rev_ind; [ discriminate | ].
  rewrite length_app, nth_error_app2 by (simpl; lia).
  simpl. replace (length t + 1 - 1 - length t) with 0 by lia. simpl.
  intros H. inversion H; subst. apply last_last.
Qed.

(** C2 (amended): the code has no dedicated decoding error.  What it does
    when the row-wise best labels are not accepted and, for a word of at
    least one letter, the end state selected at the final position has no
    recorded predecessor (in particular when no admissible end state was
    reached at all): decoding raises [TypeError], from indexing with [None],
    and returns no label sequence. *)
Theorem unreached_end_state_raises (probs : list (list prob)) (m : nat)
    (last_costs : list cost) (states : list (list (option nat))) (best : nat)
    (Hm : 1 <= m)
    (Hfast : row_best_correct probs m = Ok false)
    (Hsearch : search_layers probs m = Ok (last_costs, states))
    (Hbest : min_by_cost last_costs end_states = Ok best)
    (Hunreached : nth_error (last states []) best = Some None) :
  decode_best probs m = Raise TypeError.
Proof.
  pose proof (search_layers_length probs m _ Hsearch) as Hlen.
  simpl in Hlen.
  unfold Decoder._decode_best. unfold Decoder.row_best_correct in Hfast.
  destruct (row_best_states probs m) as [bs |]; cbn [Py.bind] in *;
    [ | discriminate ].
  destruct (mapM (index target_symbols_) bs) as [bl |]; cbn [Py.bind] in *;
    [ | discriminate ].
  rewrite Hfast. cbn [Py.bind negb].
  unfold Decoder.fallback. rewrite Hsearch. cbn [Py.bind fst snd].
  rewrite Hbest. cbn [Py.bind].
  destruct m as [| j]; [ lia | ].
  cbn [Decoder.backtrack].
  destruct (index_lt states (S j)) as [layer El]; [ lia | ].
  rewrite El. cbn [Py.bind last].
  apply index_Ok in El.
  assert (Hlayer : last states [] = layer).
  { apply nth_error_last. now replace (length states - 1) with (S j) by lia. }
  rewrite Hlayer in Hunreached. apply index_Ok in Hunreached.
  rewrite Hunreached. cbn [Py.bind app].
  destruct j as [| j'].
  - reflexivity.
  - cbn [Decoder.backtrack].
    destruct (index_lt states (S j')) as [layer' El']; [ lia | ].
    rewrite El'. reflexivity.
Qed.

End DecoderFacts.

(** ** The decoder on concrete matrices *)

Section DecoderExamples.

Import Dyadic Examples.

(** C1, as stated, fails: for the empty word the decoder returns the empty
    label list, which [is_correct_morpheme_sequence] rejects. *)
Lemma decode_empty_word_rejected :
  exists labels trimmed,
    Dyadic.decode_best labels9 probs_empty_word 0 = Ok (labels, trimmed) /\
    Grammar.is_correct_morpheme_sequence labels = Ok false.
Proof. exists [], []. split; vm_compute; reflexivity. Qed.

(** Two more rejected results, both found by the search: a sequence that
    opens with a hyphen, and one that closes an [END]-typed morpheme
    (the acceptance test names that type [ENDING]). *)
Lemma decode_hyphen_start_rejected :
  exists trimmed,
    Dyadic.decode_best labels9 probs_hyph_root 2
    = Ok (["S-HYPH"; "S-ROOT"], trimmed) /\
    Grammar.is_correct_morpheme_sequence ["S-HYPH"; "S-ROOT"] = Ok false.
Proof. eexists. split; vm_compute; reflexivity. Qed.

Lemma decode_END_type_rejected :
  exists trimmed,
    Dyadic.decode_best labels9 probs_root_end 3
    = Ok (["B-ROOT"; "E-ROOT"; "S-END"], trimmed) /\
    Grammar.is_correct_morpheme_sequence ["B-ROOT"; "E-ROOT"; "S-END"]
    = Ok false.
Proof. eexists. split; vm_compute; reflexivity. Qed.

Lemma decode_best_accepted_witness :
  labels9 = AUXILIARY ++ ["B-ROOT"; "E-ROOT"; "S-END"; "S-HYPH"; "S-ROOT"] /\
  1 <= 2 /\
  Dyadic.decode_best labels9 probs_two_begins 2
  = Ok (["B-ROOT"; "E-ROOT"],
        [[Zero; Zero; Zero; Zero; Pow2 1; Zero; Zero; Pow2 4; Pow2 4];
         [Zero; Zero; Zero; Zero; Zero; Pow2 4; Zero; Zero; Zero]]) /\
  Morphemes.label_type (hd "" ["B-ROOT"; "E-ROOT"]) <> "HYPH" /\
  Morphemes.label_type (last ["B-ROOT"; "E-ROOT"] "") <> "END" /\
  Grammar.is_correct_morpheme_sequence ["B-ROOT"; "E-ROOT"] = Ok true.
Proof.
  assert (Halpha : labels9
                   = AUXILIARY ++ ["B-ROOT"; "E-ROOT"; "S-END"; "S-HYPH"; "S-ROOT"])
    by reflexivity.
  assert (Hm : 1 <= 2) by lia.
  assert (Hdecode :
            Dyadic.decode_best labels9 probs_two_begins 2
            = Ok (["B-ROOT"; "E-ROOT"],
                  [[Zero; Zero; Zero; Zero; Pow2 1; Zero; Zero; Pow2 4; Pow2 4];
                   [Zero; Zero; Zero; Zero; Zero; Pow2 4; Zero; Zero; Zero]]))
    by (vm_compute; reflexivity).
  assert (Hfirst : Morphemes.label_type (hd "" ["B-ROOT"; "E-ROOT"]) <> "HYPH")
    by (vm_compute; discriminate).
  assert (Hlast : Morphemes.label_type (last ["B-ROOT"; "E-ROOT"] "") <> "END")
    by (vm_compute; discriminate).
  repeat (split; [ assumption | ]).
  exact (decode_best_accepted prob cost prob_gt Zero (fun p => p) None isinf
           neg_log sub_log cost_lt argsort labels9 eq_refl
           ["B-ROOT"; "E-ROOT"; "S-END"; "S-HYPH"; "S-ROOT"]
           probs_two_begins 2 _ _ Halpha Hm Hdecode Hfirst Hlast).
Defined.

(** C2, as stated, fails: over the alphabet [labels6] the only admissible
    end state, [S-ROOT], has infinite cost at the final position of this
    one-letter word, yet decoding returns the label [S-ROOT], to which the
    matrix gives probability zero. *)
Lemma zero_probability_end_state_returned :
  exists last_costs states,
    Dyadic.search_layers labels6 probs_only_begin 1 = Ok (last_costs, states) /\
    Forall (fun s => isinf (nth s last_costs None) = true)
           (Decoder.end_states labels6) /\
    Dyadic.decode_best labels6 probs_only_begin 1
    = Ok (["S-ROOT"], [[Zero; Zero; Zero; Zero; Pow2 0; Zero]]).
Proof.
  do 2 eexists. split; [ vm_compute; reflexivity | ].
  split; [ | vm_compute; reflexivity ].
  repeat constructor.
Qed.

Lemma unreached_end_state_raises_witness :
  1 <= 1 /\
  Dyadic.row_best_correct labels_be probs_be 1 = Ok false /\
  Dyadic.search_layers labels_be probs_be 1
  = Ok ([None; None; None; None; Some 0; None],
        [[None; Some 1; None; None; None; None];
         [None; None; None; None; Some 1; None]]) /\
  Decoder.min_by_cost cost cost_lt [None; None; None; None; Some 0; None]
    (Decoder.end_states labels_be) = Ok 5 /\
  nth_error (last [[None; Some 1; None; None; None; None];
                   [None; None; None; None; Some 1; None]] []) 5
  = Some None /\
  Dyadic.decode_best labels_be probs_be 1 = Raise TypeError.
Proof.
  assert (Hm : 1 <= 1) by lia.
  assert (Hfast : Dyadic.row_best_correct labels_be probs_be 1 = Ok false)
    by (vm_compute; reflexivity).
  assert (Hsearch :
            Dyadic.search_layers labels_be probs_be 1
            = Ok ([None; None; None; None; Some 0; None],
                  [[None; Some 1; None; None; None; None];
                   [None; None; None; None; Some 1; None]]))
    by (vm_compute; reflexivity).
  assert (Hbest :
            Decoder.min_by_cost cost cost_lt
              [None; None; None; None; Some 0; None]
              (Decoder.end_states labels_be) = Ok 5)
    by (vm_compute; reflexivity).
  assert (Hunreached :
            nth_error (last [[None; Some 1; None; None; None; None];
                             [None; None; None; None; Some 1; None]] []) 5
            = Some None)
    by reflexivity.
  repeat (split; [ assumption | ]).
  exact (unreached_end_state_raises prob cost prob_gt Zero (fun p => p) None
           isinf neg_log sub_log cost_lt argsort labels_be probs_be 1 _ _ 5
           Hm Hfast Hsearch Hbest Hunreached).
Defined.

(** C6: the row-wise best labels of this one-letter word, [S-ROOT], are
    accepted, but the best label of row 0 is [PAD]; building the trimmed
    matrix then asks for the successors of [PAD], and the decoder raises
    instead of returning the accepted sequence. *)
Theorem accepted_best_labels_not_returned :
  Dyadic.row_best_correct labels9 probs_row0_pad 1 = Ok true /\
  Dyadic.decode_best labels9 probs_row0_pad 1 = Raise ValueError.
Proof. split; vm_compute; reflexivity. Qed.

Lemma decode_best_length_witness :
  labels9 = AUXILIARY ++ ["B-ROOT"; "E-ROOT"; "S-END"; "S-HYPH"; "S-ROOT"] /\
  0 + 1 <= length probs_empty_word /\
  Forall (fun row => length row = length labels9) probs_empty_word /\
  Decoder.end_states labels9 <> [] /\
  (forall labels trimmed,
      Dyadic.decode_best labels9 probs_empty_word 0 = Ok (labels, trimmed) ->
      length labels = 0) /\
  (0 = 0 -> Dyadic.decode_best labels9 probs_empty_word 0 = Ok ([], [])).
Proof.
  assert (Halpha : labels9
                   = AUXILIARY ++ ["B-ROOT"; "E-ROOT"; "S-END"; "S-HYPH"; "S-ROOT"])
    by reflexivity.
  assert (Hrows : 0 + 1 <= length probs_empty_word) by (simpl; lia).
  assert (Hcols : Forall (fun row => length row = length labels9)
                    probs_empty_word)
    by (repeat constructor).
  assert (Hend : Decoder.end_states labels9 <> [])
    by (vm_compute; discriminate).
  repeat (split; [ assumption | ]).
  exact (decode_best_length prob cost prob_gt Zero (fun p => p) None isinf
           neg_log sub_log cost_lt argsort labels9
           ["B-ROOT"; "E-ROOT"; "S-END"; "S-HYPH"; "S-ROOT"]
           probs_empty_word 0 Halpha Hrows Hcols Hend).
Defined.

End DecoderExamples.

(** ** Length bucketing *)

Section BucketingFacts.

Import Bucketing.

Local Open Scope Z_scope.

(** *** Sorting *)

Lemma insert_sorted_perm (x : Z) (l : list Z) :
  Permutation (x :: l) (insert_sorted x l).
Proof.
  induction l as [| y t IH]; simpl; [ reflexivity | ].
  destruct (x <=? y); [ reflexivity | ].
  rewrite perm_swap. now apply perm_skip.
Qed.

Lemma sorted_perm (l : list Z) : Permutation l (sorted l).
Proof.
  induction l as [| x t IH]; simpl; [ reflexivity | ].
  rewrite <- insert_sorted_perm. now apply perm_skip.
Qed.

Lemma insert_sorted_sorted (x : Z) (l : list Z) :
  StronglySorted Z.le l -> StronglySorted Z.le (insert_sorted x l).
Proof.
  induction 1 as [| y t Ht IH Hy]; simpl.
  - constructor; constructor.
  - destruct (Z.leb_spec x y) as [Hle | Hgt].
    + constructor; [ now constructor | ].
      constructor; [ assumption | ].
      eapply Forall_impl; [ | exact Hy ]. intros z Hz. lia.
    + constructor; [ assumption | ].
      apply (Permutation_Forall (insert_sorted_perm x t)).
      constructor; [ lia | assumption ].
Qed.

Lemma sorted_sorted (l : list Z) : StronglySorted Z.le (sorted l).
Proof.
  induction l as [| x t IH]; simpl; [ constructor | ].
  now apply insert_sorted_sorted.
Qed.

(** In an ascending list the entry at the last position bounds them all. *)
Lemma ascending_last_bound (s : list Z) (mx : Z) :
  StronglySorted Z.le s ->
  nth_error s (length s - 1)%nat = Some mx ->
  Forall (fun x => x <= mx) s.
Proof.
  induction 1 as [| y t Ht IH Hy]; intros Hnth; [ constructor | ].
  destruct t as [| z t'].
  - simpl in Hnth. inversion Hnth; subst. constructor; [ lia | constructor ].
  - assert (Hnth' : nth_error (z :: t') (length (z :: t') - 1)%nat = Some mx).
    { simpl length in *. now replace (S (S (length t')) - 1)%nat
        with (S (S (length t') - 1))%nat in Hnth by lia. }
    specialize (IH Hnth'). constructor; [ | assumption ].
    inversion Hy as [| ? ? Hyz _]; subst. inversion IH; subst. lia.
Qed.

(** [lengths[level]] for a level between [-1] and [len(lengths) - 1]. *)
Lemma index_Z_in_range {T : Type} (s : list T) (level : Z) :
  s <> [] -> -1 <= level <= Z.of_nat (length s) - 1 ->
  exists v, index_Z s level = Ok v /\ In v s /\
            (level = -1 \/ level = Z.of_nat (length s) - 1 ->
             nth_error s (length s - 1)%nat = Some v).
Proof.
  intros Hne Hlevel. unfold index_Z.
  assert (Hlen : (0 < length s)%nat) by (destruct s; simpl; [ congruence | lia ]).
  destruct (Z.ltb_spec level (- Z.of_nat (length s))) as [H1 | H1]; [ lia | ].
  destruct (Z.ltb_spec level 0) as [H2 | H2].
  - assert (level = -1) by lia. subst level.
    replace (Z.to_nat (-1 + Z.of_nat (length s))) with (length s - 1)%nat by lia.
    destruct (index_lt s (length s - 1)%nat) as [v Hv]; [ lia | ].
    exists v. split; [ assumption | ]. apply index_Ok in Hv.
    split; [ now apply nth_error_In in Hv | now intros _ ].
  - destruct (index_lt s (Z.to_nat level)) as [v Hv]; [ lia | ].
    exists v. split; [ assumption | ]. apply index_Ok in Hv.
    split; [ now apply nth_error_In in Hv | ].
    intros [H | H]; [ lia | ].
    now replace (length s - 1)%nat with (Z.to_nat level) by lia.
Qed.

(** *** Thresholds *)

Lemma foldM_total {A S : Type} (P : S -> Prop) (f : S -> A -> result S)
    (l : list A) :
  (forall s a, In a l -> P s -> exists s', f s a = Ok s' /\ P s') ->
  forall s, P s -> exists s', foldM f l s = Ok s' /\ P s'.
Proof.
  induction l as [| a t IH]; intros Hstep s Hs; simpl; [ eauto | ].
  destruct (Hstep s a (or_introl eq_refl) Hs) as [s1 [E H1]]. rewrite E.
  apply IH; [ | assumption ].
  intros s0 a0 Hin. apply Hstep. now right.
Qed.

Lemma strictly_ascending_snoc (bl : list Z) (last x : Z) :
  StronglySorted Z.lt bl -> Forall (fun y => 0 < y <= last) bl -> last < x ->
  StronglySorted Z.lt (bl ++ [x]).
Proof.
  induction 1 as [| y t Ht IH Hy]; intros Hall Hx; simpl.
  - constructor; constructor.
  - inversion Hall as [| ? ? Hy0 Ht0]; subst.
    constructor; [ now apply IH | ].
    apply Forall_app. split; [ assumption | ].
    constructor; [ lia | constructor ].
Qed.

Lemma bucket_step_ok (s : list Z) (K i : Z) (st : Z * list Z) :
  s <> [] -> 0 <= i < K -> thresholds_ok st ->
  exists st',
    bucket_step (Z.of_nat (length s)) s K st i = Ok st' /\
    thresholds_ok st' /\
    (i = K - 1 -> forall mx,
        nth_error s (length s - 1)%nat = Some mx -> mx <= fst st').
Proof.
  intros Hne Hi [Hsorted [Hall Hlast]]. destruct st as [last bl].
  simpl in Hsorted, Hall, Hlast.
  set (m := Z.of_nat (length s)).
  assert (Hm : 0 <= m) by lia.
  assert (Hq : 0 <= m * (i + 1) / K <= m).
  { split; [ apply Z.div_pos; nia | ].
    apply Z.div_le_upper_bound; nia. }
  assert (Hq' : i = K - 1 -> m * (i + 1) / K = m).
  { intros ->. replace (K - 1 + 1) with K by lia. apply Z.div_mul. lia. }
  destruct (index_Z_in_range s (m * (i + 1) / K - 1) Hne) as [v [Ev [Hin Hmax]]];
    [ unfold m in *; lia | ].
  unfold bucket_step. fold m. rewrite Ev. cbn [Py.bind].
  destruct (Z.gtb_spec v last) as [Hgt | Hle].
  - eexists. split; [ reflexivity | ]. split.
    + repeat split; simpl.
      * now apply (strictly_ascending_snoc bl last).
      * apply Forall_app. split.
        -- eapply Forall_impl; [ | exact Hall ]. intros y Hy. simpl in Hy. lia.
        -- constructor; [ | constructor ].
           assert (0 <= last)
             by (destruct Hlast as [-> | Hl]; [ lia | ];
                 rewrite Forall_forall in Hall; specialize (Hall _ Hl); lia).
           lia.
      * right. apply in_or_app. right. now left.
    + intros Hik mx Hmx. simpl.
      rewrite Hmax in Hmx; [ inversion Hmx; lia | ].
      right. rewrite (Hq' Hik). unfold m. lia.
  - eexists. split; [ reflexivity | ]. split.
    + now repeat split.
    + intros Hik mx Hmx. simpl.
      rewrite Hmax in Hmx; [ inversion Hmx; lia | ].
      right. rewrite (Hq' Hik). unfold m. lia.
Qed.

Lemma range_last (K : Z) : 1 <= K -> range K = range (K - 1) ++ [K - 1].
Proof.
  intros HK. unfold range.
  replace (Z.to_nat K) with (S (Z.to_nat (K - 1))) by lia.
  rewrite seq_S, map_app. simpl. f_equal. f_equal. lia.
Qed.

Lemma range_In (K i : Z) : In i (range K) -> 0 <= i < K.
Proof.
  unfold range. intros H. apply in_map_iff in H.
  destruct H as [k [<- Hk]]. apply in_seq in Hk. lia.
Qed.

Lemma make_bucket_lengths_ok (lengths : list Z) (K : Z) :
  lengths <> [] -> 1 <= K ->
  exists bl,
    make_bucket_lengths lengths K = Ok bl /\
    StronglySorted Z.lt bl /\
    ((exists l, In l lengths /\ 0 < l) ->
     Forall (fun x => exists L, In L bl /\ x <= L) lengths).
Proof.
  intros Hne HK.
  pose proof (sorted_perm lengths) as Hperm.
  assert (Hlen : length (sorted lengths) = length lengths)
    by (symmetry; now apply Permutation_length).
  assert (Hne' : sorted lengths <> []).
  { intros E. rewrite E in Hlen. destruct lengths; [ congruence | discriminate ]. }
  unfold make_bucket_lengths. rewrite <- Hlen.
  rewrite (range_last K HK), foldM_app.
  destruct (foldM_total thresholds_ok
              (bucket_step (Z.of_nat (length (sorted lengths))) (sorted lengths) K)
              (range (K - 1))) with (s := (0, @nil Z)) as [st1 [E1 H1]].
  - intros st i Hin Hst. apply range_In in Hin.
    destruct (bucket_step_ok (sorted lengths) K i st Hne') as [st' [E [Hok _]]];
      [ lia | assumption | eauto ].
  - repeat split; simpl; [ constructor | constructor | now left ].
  - rewrite E1. cbn [Py.bind foldM].
    destruct (bucket_step_ok (sorted lengths) K (K - 1) st1 Hne')
      as [st2 [E2 [[Hsorted [Hall Hlast]] Hmax]]]; [ lia | assumption | ].
    rewrite E2. cbn [Py.bind]. exists (snd st2).
    split; [ reflexivity | ]. split; [ assumption | ].
    intros [l [Hl Hpos]].
    destruct (index_lt (sorted lengths) (length (sorted lengths) - 1)%nat)
      as [mx Hmx].
    { destruct (sorted lengths); simpl; [ congruence | lia ]. }
    apply index_Ok in Hmx.
    pose proof (ascending_last_bound _ mx (sorted_sorted lengths) Hmx) as Hbound.
    apply (Permutation_Forall (Permutation_sym Hperm)) in Hbound.
    specialize (Hmax eq_refl mx Hmx).
    rewrite Forall_forall in Hbound.
    assert (Hin : In (fst st2) (snd st2)).
    { destruct Hlast as [E0 | Hin]; [ | assumption ].
      specialize (Hbound l Hl). lia. }
    apply Forall_forall. intros x Hx. exists (fst st2).
    split; [ assumption | ]. specialize (Hbound x Hx). lia.
Qed.

(** *** Binary search *)

Lemma strictly_ascending_nth (a : list Z) :
  StronglySorted Z.lt a ->
  forall j k, (j <= k < length a)%nat -> nth j a 0 <= nth k a 0.
Proof.
  induction 1 as [| y t Ht IH Hy]; intros j k Hjk; simpl in Hjk; [ lia | ].
  destruct j as [| j], k as [| k]; simpl; try lia.
  - rewrite Forall_forall in Hy.
    assert (In (nth k t 0) t) by (apply nth_In; lia).
    specialize (Hy _ H). lia.
  - apply IH. lia.
Qed.

Lemma bisect_loop_spec (a : list Z) (x : Z) :
  StronglySorted Z.lt a ->
  forall fuel lo hi,
    (lo <= hi <= length a)%nat -> (hi - lo <= fuel)%nat ->
    (forall j, (j < lo)%nat -> nth j a 0 < x) ->
    (forall j, (hi <= j < length a)%nat -> x <= nth j a 0) ->
    (bisect_loop fuel a x lo hi <= length a)%nat /\
    (forall j, (j < bisect_loop fuel a x lo hi)%nat -> nth j a 0 < x) /\
    (forall j, (bisect_loop fuel a x lo hi <= j < length a)%nat ->
               x <= nth j a 0).
Proof.
  intros Hsorted.
  induction fuel as [| fuel IH]; intros lo hi Hrange Hfuel Hlow Hhigh.
  - simpl. assert (lo = hi) by lia. subst hi.
    repeat split; [ lia | assumption | assumption ].
  - cbn [bisect_loop]. destruct (Nat.ltb_spec lo hi) as [Hlt | Hge].
    + assert (Hmid : (lo <= Nat.div (lo + hi) 2 < hi)%nat).
      { pose proof (Nat.div_mod_eq (lo + hi) 2) as E.
        pose proof (Nat.mod_upper_bound (lo + hi) 2) as U. lia. }
      destruct (Z.ltb_spec (nth (Nat.div (lo + hi) 2) a 0) x) as [Hless | Hnot].
      * apply IH; [ lia | lia | | assumption ].
        intros j Hj.
        pose proof (strictly_ascending_nth a Hsorted j (Nat.div (lo + hi) 2)).
        lia.
      * apply IH; [ lia | lia | assumption | ].
        intros j Hj.
        pose proof (strictly_ascending_nth a Hsorted (Nat.div (lo + hi) 2) j).
        lia.
    + assert (lo = hi) by lia. subst hi.
      repeat split; [ lia | assumption | assumption ].
Qed.

(** On strictly increasing thresholds of which one is at least [x],
    [bisect_left] finds the first threshold that is at least [x]. *)
Lemma bisect_left_spec (a : list Z) (x : Z) :
  StronglySorted Z.lt a ->
  (exists L, In L a /\ x <= L) ->
  (bisect_left a x < length a)%nat /\ x <= nth (bisect_left a x) a 0 /\
  (forall j, (j < bisect_left a x)%nat -> nth j a 0 < x).
Proof.
  intros Hsorted [L [HL Hx]]. unfold bisect_left.
  destruct (bisect_loop_spec a x Hsorted (length a) 0%nat (length a))
    as [Hle [Hlow Hhigh]]; try lia.
  destruct (In_nth a L 0 HL) as [p [Hp Ep]].
  assert (Hr : (bisect_loop (length a) a x 0 (length a) <= p)%nat).
  { destruct (Nat.le_gt_cases (bisect_loop (length a) a x 0 (length a)) p)
      as [H | H]; [ assumption | ].
    specialize (Hlow p H). lia. }
  split; [ lia | ]. split; [ apply Hhigh; lia | assumption ].
Qed.

(** *** Assigning the items *)

Lemma set_index_snoc_perm (l l' : list (list nat)) (idx i : nat)
    (curr : list nat) :
  nth_error l idx = Some curr ->
  set_index l idx (curr ++ [i])%list = Ok l' ->
  Permutation (concat l') (i :: concat l).
Proof.
  revert idx l'. induction l as [| h t IH]; intros [| idx] l' Hnth Hset;
    simpl in Hnth, Hset; try discriminate.
  - inversion Hnth; subst h. inversion Hset; subst l'. simpl.
    change (i :: curr ++ concat t)%list with ((i :: curr) ++ concat t)%list.
    apply Permutation_app_tail. symmetry. apply Permutation_cons_append.
  - destruct (set_index t idx (curr ++ [i])%list) as [t' |] eqn:E;
      [ | discriminate ].
    inversion Hset; subst l'. simpl.
    rewrite (IH idx t' Hnth E). symmetry. apply Permutation_middle.
Qed.

Lemma Forall2_nth_error {T U : Type} (R : T -> U -> Prop) (l1 : list T)
    (l2 : list U) (i : nat) (a : T) (b : U) :
  Forall2 R l1 l2 -> nth_error l1 i = Some a -> nth_error l2 i = Some b ->
  R a b.
Proof.
  intros H. revert i. induction H as [| x y t t' Hxy Hrest IH]; intros i Ha Hb.
  - destruct i; discriminate.
  - destruct i as [| i]; simpl in Ha, Hb.
    + inversion Ha; inversion Hb; subst. assumption.
    + now apply (IH i).
Qed.

Lemma Forall2_set_index {T U : Type} (R : T -> U -> Prop) (l1 : list T)
    (l2 l2' : list U) (i : nat) (v : U) :
  Forall2 R l1 l2 ->
  set_index l2 i v = Ok l2' ->
  (forall a, nth_error l1 i = Some a -> R a v) ->
  Forall2 R l1 l2'.
Proof.
  intros H. revert i l2'.
  induction H as [| x y t t' Hxy Hrest IH]; intros i l2' Hset Hv;
    destruct i as [| i]; simpl in Hset; try discriminate.
  - inversion Hset; subst. constructor; [ now apply Hv | assumption ].
  - destruct (set_index t' i v) as [t2 |] eqn:E; [ | discriminate ].
    inversion Hset; subst. constructor; [ assumption | ].
    apply (IH i t2 E). intros a Ha. now apply Hv.
Qed.

Lemma assign_step_ok (lengths bl : list Z) (start : nat) (x : Z)
    (indexes : list (list nat)) :
  StronglySorted Z.lt bl ->
  (exists L, In L bl /\ x <= L) ->
  nth start lengths 0 = x ->
  assigned lengths bl start indexes ->
  exists indexes',
    assign_step bl indexes (start, x) = Ok indexes' /\
    assigned lengths bl (S start) indexes'.
Proof.
  intros Hsorted Hx Hstart [Hperm Hall].
  destruct (bisect_left_spec bl x Hsorted Hx) as [Hlt [Hle _]].
  pose proof (Forall2_length Hall) as Hlen.
  destruct (index_lt indexes (bisect_left bl x)) as [curr Ecurr]; [ lia | ].
  destruct (set_index_lt indexes (bisect_left bl x) (curr ++ [start])%list)
    as [indexes' Eset]; [ lia | ].
  exists indexes'. unfold assign_step, append_at.
  rewrite Ecurr. cbn [Py.bind]. split; [ exact Eset | ].
  apply index_Ok in Ecurr. split.
  - rewrite (set_index_snoc_perm _ _ _ _ _ Ecurr Eset), Hperm.
    rewrite seq_S. simpl. apply Permutation_cons_append.
  - apply (Forall2_set_index _ _ _ _ _ _ Hall Eset).
    intros L HL. apply Forall_app. split.
    + exact (Forall2_nth_error _ _ _ _ _ _ Hall HL Ecurr).
    + constructor; [ | constructor ].
      rewrite Hstart. apply nth_error_nth with (d := 0) in HL.
      now rewrite <- HL.
Qed.

Lemma assign_loop (lengths bl : list Z) :
  StronglySorted Z.lt bl ->
  forall rest start indexes,
    (forall j, (j < length rest)%nat ->
               nth (start + j) lengths 0 = nth j rest 0) ->
    Forall (fun x => exists L, In L bl /\ x <= L) rest ->
    assigned lengths bl start indexes ->
    exists indexes',
      foldM (assign_step bl) (combine (seq start (length rest)) rest) indexes
      = Ok indexes' /\
      assigned lengths bl (start + length rest) indexes'.
Proof.
  intros Hsorted.
  induction rest as [| x t IH]; intros start indexes Hnth Hall Hok.
  - simpl. rewrite Nat.add_0_r. eauto.
  - inversion Hall as [| ? ? Hx Ht]; subst.
    destruct (assign_step_ok lengths bl start x indexes Hsorted Hx)
      as [indexes1 [E1 Hok1]]; [ | assumption | ].
    { specialize (Hnth 0%nat). rewrite Nat.add_0_r in Hnth.
      apply Hnth. simpl. lia. }
    cbn [length seq combine foldM]. rewrite E1.
    destruct (IH (S start) indexes1) as [indexes' [E' Hok']];
      [ | assumption | assumption | ].
    { intros j Hj. specialize (Hnth (S j)).
      replace (S start + j)%nat with (start + S j)%nat by lia.
      apply Hnth. simpl. lia. }
    exists indexes'. split; [ assumption | ].
    now replace (start + S (length t))%nat with (S start + length t)%nat by lia.
Qed.

(** *** Dropping the empty buckets *)

Lemma concat_filter_nonempty (ps : list (Z * list nat)) :
  concat (map snd (filter nonempty ps)) = concat (map snd ps).
Proof.
  induction ps as [| [L curr] t IH]; simpl; [ reflexivity | ].
  unfold nonempty at 1. simpl.
  destruct curr as [| i curr]; simpl; [ exact IH | ].
  now rewrite IH.
Qed.

Lemma sorted_filter_fst {T : Type} (R : Z -> Z -> Prop) (f : Z * T -> bool)
    (ps : list (Z * T)) :
  StronglySorted R (map fst ps) -> StronglySorted R (map fst (filter f ps)).
Proof.
  induction ps as [| p t IH]; simpl; intros H; [ constructor | ].
  inversion H as [| ? ? Ht Hp]; subst.
  destruct (f p); simpl; [ | now apply IH ].
  constructor; [ now apply IH | ].
  rewrite Forall_forall in *. intros y Hy. apply Hp.
  apply in_map_iff in Hy. destruct Hy as [q [<- Hq]].
  apply filter_In in Hq. apply in_map. tauto.
Qed.

Lemma Forall2_combine {T U : Type} (R : T -> U -> Prop) (l1 : list T)
    (l2 : list U) :
  Forall2 R l1 l2 ->
  Forall (fun p => R (fst p) (snd p)) (combine l1 l2) /\
  map fst (combine l1 l2) = l1 /\ map snd (combine l1 l2) = l2.
Proof.
  induction 1 as [| x y t t' Hxy Hrest [IH1 [IH2 IH3]]]; simpl.
  - repeat split. constructor.
  - repeat split; [ now constructor | now f_equal | now f_equal ].
Qed.

(** *** Splitting the large buckets *)

Lemma chunks_concat (s c : nat) (curr : list nat) :
  concat (chunks s c curr) = firstn (c * s) curr.
Proof.
  induction c as [| c IH]; [ reflexivity | ].
  unfold chunks in *. rewrite seq_S, map_app, concat_app, IH.
  simpl. rewrite app_nil_r. unfold slice.
  rewrite <- (firstn_skipn (c * s) (firstn (s + c * s) curr)).
  rewrite firstn_firstn.
  replace (Nat.min (c * s) (s + c * s)) with (c * s)%nat by lia.
  now replace (c * s + s)%nat with (s + c * s)%nat by lia.
Qed.

Lemma chunk_count_bounds (n : nat) (size : Z) :
  0 < size -> (1 <= n)%nat ->
  (n <= chunk_count n size * Z.to_nat size)%nat /\
  ((chunk_count n size - 1) * Z.to_nat size < n)%nat /\
  (1 <= chunk_count n size)%nat /\
  Z.of_nat (chunk_count n size) = (Z.of_nat n - 1) / size + 1.
Proof.
  intros HS Hn. unfold chunk_count.
  replace (Z.of_nat n + size - 1) with (Z.of_nat n - 1 + 1 * size) by lia.
  rewrite Z.div_add by lia.
  pose proof (Z.div_pos (Z.of_nat n - 1) size ltac:(lia) HS) as Hq.
  pose proof (Z.mul_div_le (Z.of_nat n - 1) size HS) as Hlow.
  pose proof (Z.mul_succ_div_gt (Z.of_nat n - 1) size HS) as Hhigh.
  set (q := (Z.of_nat n - 1) / size) in *.
  assert (Ec : Z.to_nat (q + 1) = S (Z.to_nat q)) by lia.
  rewrite Ec. repeat split; lia.
Qed.

Lemma chunk_count_zero (size : Z) : 0 < size -> chunk_count 0 size = 0%nat.
Proof.
  intros HS. unfold chunk_count. simpl Z.of_nat.
  rewrite Z.div_small by lia. reflexivity.
Qed.

Lemma split_indexes_chunks (size : Z) (curr : list nat) :
  0 < size ->
  split_indexes size curr
  = Ok (chunks (Z.to_nat size) (chunk_count (length curr) size) curr).
Proof.
  intros HS. unfold split_indexes, range_step.
  destruct (Z.eqb_spec size 0) as [E | _]; [ lia | ].
  destruct (Z.ltb_spec size 0) as [E | _]; [ lia | ].
  cbn [Py.bind]. f_equal. unfold chunks, chunk_count.
  rewrite map_map. apply map_ext. intros k. f_equal.
  rewrite Nat2Z.inj_mul, Z2Nat.id by lia.
  rewrite Z2Nat.inj_add by nia.
  rewrite Z2Nat.inj_mul by lia. now rewrite Nat2Z.id.
Qed.

Lemma split_threshold_count (size L : Z) (curr : list nat) :
  0 < size -> (1 <= length curr)%nat ->
  split_threshold size (L, curr)
  = Ok (repeat L (chunk_count (length curr) size)).
Proof.
  intros HS Hlen. unfold split_threshold, replicate.
  destruct (Z.eqb_spec size 0) as [E | _]; [ lia | ].
  destruct (chunk_count_bounds (length curr) size HS Hlen) as [_ [_ [_ E]]].
  rewrite <- E. now rewrite Nat2Z.id.
Qed.

Lemma slice_incl {T : Type} (a b : nat) (l : list T) : incl (slice a b l) l.
Proof.
  intros x Hx. unfold slice in Hx.
  rewrite <- (firstn_skipn b l). apply in_or_app. left.
  rewrite <- (firstn_skipn a (firstn b l)). apply in_or_app. now right.
Qed.

Lemma chunks_pieces (size : Z) (curr : list nat) :
  0 < size ->
  Forall (fun piece => piece <> [] /\ incl piece curr)
         (chunks (Z.to_nat size) (chunk_count (length curr) size) curr).
Proof.
  intros HS. apply Forall_forall. intros piece Hin.
  unfold chunks in Hin. apply in_map_iff in Hin.
  destruct Hin as [k [<- Hk]]. apply in_seq in Hk.
  split; [ | apply slice_incl ].
  assert (Hlen : (1 <= length curr)%nat).
  { destruct curr; simpl; [ | lia ].
    rewrite chunk_count_zero in Hk by assumption. lia. }
  destruct (chunk_count_bounds (length curr) size HS Hlen) as [_ [Hup _]].
  intros E. apply (f_equal (@length nat)) in E.
  unfold slice in E. rewrite length_skipn, length_firstn in E. simpl in E.
  assert ((k * Z.to_nat size <= (chunk_count (length curr) size - 1) * Z.to_nat size)%nat)
    by (apply Nat.mul_le_mono_r; lia).
  assert ((1 <= Z.to_nat size)%nat) by lia.
  lia.
Qed.

Lemma mapM_map {T U : Type} (f : T -> result U) (g : T -> U) (l : list T) :
  (forall a, In a l -> f a = Ok (g a)) -> mapM f l = Ok (map g l).
Proof.
  induction l as [| a t IH]; intros H; simpl; [ reflexivity | ].
  rewrite (H a (or_introl eq_refl)), IH; [ reflexivity | ].
  intros b Hb. apply H. now right.
Qed.

Lemma combine_repeat {T : Type} (L : Z) (l : list T) :
  combine (repeat L (length l)) l = map (pair L) l.
Proof. induction l as [| x t IH]; simpl; [ reflexivity | now rewrite IH ]. Qed.

Lemma combine_app_same {T U : Type} (a a' : list T) (b b' : list U) :
  length a = length b ->
  combine (a ++ a') (b ++ b') = (combine a b ++ combine a' b')%list.
Proof.
  revert b. induction a as [| x t IH]; intros [| y b] H; simpl in *;
    try discriminate; [ reflexivity | ].
  rewrite IH by lia. reflexivity.
Qed.

Lemma length_chunks (s c : nat) (curr : list nat) :
  length (chunks s c curr) = c.
Proof. unfold chunks. now rewrite length_map, length_seq. Qed.

(** The two comprehensions of the split line up bucket by bucket. *)
Lemma split_aligned (size : Z) (ps : list (Z * list nat)) :
  0 < size ->
  combine
    (concat (map (fun p => repeat (fst p) (chunk_count (length (snd p)) size))
                 (filter nonempty ps)))
    (concat (map (fun curr => chunks (Z.to_nat size)
                                (chunk_count (length curr) size) curr)
                 (map snd ps)))
  = flat_map (split_bucket size) ps.
Proof.
  intros Hsize. induction ps as [| [L curr] t IH]; [ reflexivity | ].
  cbn [filter map snd concat flat_map]. unfold nonempty at 1. cbn [snd].
  destruct curr as [| i curr].
  - cbn [length Nat.ltb Nat.leb]. unfold split_bucket at 1. cbn [snd length].
    rewrite !chunk_count_zero by assumption.
    change (chunks (Z.to_nat size) 0 []) with (@nil (list nat)).
    cbn [app map]. exact IH.
  - cbn [Nat.ltb Nat.leb length]. cbn [map concat fst snd].
    rewrite combine_app_same by (now rewrite repeat_length, length_chunks).
    rewrite IH. f_equal. unfold split_bucket. cbn [fst snd length].
    rewrite <- (length_chunks (Z.to_nat size)
                  (chunk_count (S (length curr)) size) (i :: curr)) at 1.
    apply combine_repeat.
Qed.

Lemma filter_all {T : Type} (f : T -> bool) (l : list T) :
  Forall (fun x => f x = true) l -> filter f l = l.
Proof.
  induction 1 as [| x t Hx Ht IH]; simpl; [ reflexivity | ].
  now rewrite Hx, IH.
Qed.

Lemma strictly_ascending_weaken (l : list Z) :
  StronglySorted Z.lt l -> StronglySorted Z.le l.
Proof.
  induction 1 as [| x t Ht IH Hx]; constructor; [ assumption | ].
  eapply Forall_impl; [ | exact Hx ]. intros y Hy. simpl in Hy. lia.
Qed.

Lemma split_bucket_concat (size : Z) (p : Z * list nat) :
  0 < size -> concat (map snd (split_bucket size p)) = snd p.
Proof.
  intros Hsize. unfold split_bucket. rewrite map_map. cbn [snd].
  rewrite map_id, chunks_concat.
  destruct (snd p) as [| i curr] eqn:E; [ apply firstn_nil | ].
  apply firstn_all2.
  destruct (chunk_count_bounds (length (i :: curr)) size Hsize) as [H _];
    [ simpl; lia | exact H ].
Qed.

Lemma split_concat (size : Z) (ps : list (Z * list nat)) :
  0 < size ->
  concat (map snd (flat_map (split_bucket size) ps)) = concat (map snd ps).
Proof.
  intros Hsize. induction ps as [| p t IH]; [ reflexivity | ].
  cbn [flat_map map concat]. rewrite map_app, concat_app, IH.
  now rewrite split_bucket_concat.
Qed.

Lemma split_bucket_fst (size : Z) (p : Z * list nat) :
  map fst (split_bucket size p)
  = repeat (fst p) (chunk_count (length (snd p)) size).
Proof.
  unfold split_bucket. rewrite map_map. cbn [fst].
  rewrite <- (length_chunks (Z.to_nat size)
                (chunk_count (length (snd p)) size) (snd p)) at 2.
  induction (chunks _ _ _) as [| x t IH]; simpl; [ reflexivity | now rewrite IH ].
Qed.

Lemma split_fst_In (size : Z) (ps : list (Z * list nat)) (y : Z) :
  In y (map fst (flat_map (split_bucket size) ps)) -> In y (map fst ps).
Proof.
  induction ps as [| p t IH]; [ trivial | ].
  cbn [flat_map map]. rewrite map_app, split_bucket_fst.
  intros H. apply in_app_or in H. destruct H as [H | H].
  - apply repeat_spec in H. now left.
  - right. now apply IH.
Qed.

Lemma ascending_repeat_app (L : Z) (c : nat) (X : list Z) :
  StronglySorted Z.le X -> Forall (fun y => L <= y) X ->
  StronglySorted Z.le (repeat L c ++ X).
Proof.
  intros HX Hall. induction c as [| c IH]; simpl; [ assumption | ].
  constructor; [ assumption | ].
  apply Forall_app. split; [ | assumption ].
  apply Forall_forall. intros y Hy. apply repeat_spec in Hy. lia.
Qed.

Lemma split_ascending (size : Z) (ps : list (Z * list nat)) :
  StronglySorted Z.lt (map fst ps) ->
  StronglySorted Z.le (map fst (flat_map (split_bucket size) ps)).
Proof.
  induction ps as [| p t IH]; intros H; [ constructor | ].
  cbn [map] in H. inversion H as [| ? ? Ht Hp]; subst.
  cbn [flat_map]. rewrite map_app, split_bucket_fst.
  apply ascending_repeat_app; [ now apply IH | ].
  apply Forall_forall. intros y Hy. apply split_fst_In in Hy.
  rewrite Forall_forall in Hp. specialize (Hp y Hy). lia.
Qed.

Lemma split_buckets_ok (lengths : list Z) (size : Z)
    (ps : list (Z * list nat)) :
  0 < size ->
  Forall (fun p => Forall (fun i => nth i lengths 0 <= fst p) (snd p)) ps ->
  Forall (fun b => snd b <> [] /\
                   Forall (fun i => nth i lengths 0 <= fst b) (snd b))
         (flat_map (split_bucket size) ps).
Proof.
  intros Hsize Hall. apply Forall_forall. intros b Hb.
  apply in_flat_map in Hb. destruct Hb as [p [Hp Hb]].
  rewrite Forall_forall in Hall. specialize (Hall p Hp).
  unfold split_bucket in Hb. apply in_map_iff in Hb.
  destruct Hb as [piece [<- Hpiece]]. cbn [fst snd].
  pose proof (chunks_pieces size (snd p) Hsize) as Hpieces.
  rewrite Forall_forall in Hpieces.
  destruct (Hpieces piece Hpiece) as [Hne Hincl].
  split; [ assumption | ].
  apply Forall_forall. intros i Hi.
  rewrite Forall_forall in Hall. apply Hall. now apply Hincl.
Qed.

Lemma nonempty_true {T : Type} (p : Z * list T) :
  nonempty p = true <-> snd p <> [].
Proof.
  unfold nonempty. destruct (snd p) as [| x t]; simpl; split; intros H.
  - discriminate.
  - congruence.
  - discriminate.
  - reflexivity.
Qed.

(** The branch taken when a maximal bucket size is given. *)
Lemma split_result (lengths bl : list Z) (indexes : list (list nat))
    (size : Z) :
  0 < size ->
  Forall2 (fun L curr => Forall (fun i => nth i lengths 0 <= L) curr)
          bl indexes ->
  (new_lengths <- mapM (split_threshold size)
                    (filter nonempty (combine bl indexes)) ;;
   new_indexes <- mapM (split_indexes size) indexes ;;
   Ok (filter nonempty (combine (concat new_lengths) (concat new_indexes))))
  = Ok (flat_map (split_bucket size) (combine bl indexes)).
Proof.
  intros Hsize Hall.
  destruct (Forall2_combine _ _ _ Hall) as [Hpairs [_ Hsnd]].
  rewrite (mapM_map (split_threshold size)
             (fun p => repeat (fst p) (chunk_count (length (snd p)) size))).
  2:{ intros [L curr] Hin. apply filter_In in Hin. destruct Hin as [_ Hin].
      apply nonempty_true in Hin. cbn [fst snd] in *.
      apply split_threshold_count; [ assumption | ].
      destruct curr; simpl; [ congruence | lia ]. }
  rewrite (mapM_map (split_indexes size)
             (fun curr => chunks (Z.to_nat size)
                            (chunk_count (length curr) size) curr)).
  2:{ intros curr _. now apply split_indexes_chunks. }
  cbn [Py.bind]. f_equal.
  replace (map (fun curr => chunks (Z.to_nat size)
                              (chunk_count (length curr) size) curr) indexes)
    with (map (fun curr => chunks (Z.to_nat size)
                             (chunk_count (length curr) size) curr)
              (map snd (combine bl indexes)))
    by (now rewrite Hsnd).
  rewrite split_aligned by assumption.
  apply filter_all.
  eapply Forall_impl; [ | apply (split_buckets_ok lengths size _ Hsize Hpairs) ].
  intros b [Hb _]. now apply nonempty_true.
Qed.

(** *** The buckets *)

Lemma no_items_assigned (lengths bl : list Z) :
  assigned lengths bl 0 (map (fun _ => @nil nat) bl).
Proof.
  split.
  - induction bl as [| L t IH]; simpl; [ constructor | exact IH ].
  - induction bl as [| L t IH]; simpl; constructor; [ constructor | exact IH ].
Qed.

(** C4, as stated, fails: with a maximal bucket size a bucket that is too
    large is cut into several buckets of the same threshold, so the
    thresholds are not strictly increasing. *)
Lemma split_repeats_threshold :
  exists buckets,
    collect_buckets [1; 1; 1] 1 2 = Ok buckets /\
    ~ StronglySorted Z.lt (map fst buckets).
Proof.
  exists [(1, [0; 1]%nat); (1, [2]%nat)]. split; [ reflexivity | ].
  simpl. intros H. inversion H as [| ? ? _ Hall]; subst.
  inversion Hall as [| ? ? Hlt _]; subst. lia.
Qed.

(** C4 (amended): for lengths of which at least one is positive, at least
    one bucket requested, and either no maximal bucket size ([-1]) or a
    positive one, [collect_buckets] returns buckets that are all non-empty,
    whose index lists together hold every input position exactly once, in
    which every item's length is at most the threshold of its bucket, and
    whose thresholds never decrease in output order; without a maximal
    bucket size the thresholds are strictly increasing. *)
Theorem collect_buckets_partition (lengths : list Z)
    (buckets_number max_bucket_size : Z)
    (Hpos : exists l, In l lengths /\ 0 < l)
    (Hnumber : 1 <= buckets_number)
    (Hsize : max_bucket_size = -1 \/ 0 < max_bucket_size) :
  exists buckets,
    collect_buckets lengths buckets_number max_bucket_size = Ok buckets /\
    Permutation (concat (map snd buckets)) (seq 0 (length lengths)) /\
    StronglySorted Z.le (map fst buckets) /\
    (max_bucket_size = -1 -> StronglySorted Z.lt (map fst buckets)) /\
    Forall (fun b => snd b <> [] /\
                     Forall (fun i => nth i lengths 0 <= fst b) (snd b))
           buckets.
Proof.
  assert (Hne : lengths <> []).
  { destruct Hpos as [l [Hl _]]. intros E. subst. contradiction. }
  destruct (make_bucket_lengths_ok lengths buckets_number Hne Hnumber)
    as [bl [Ebl [Hsorted Hcover]]].
  specialize (Hcover Hpos).
  destruct (assign_loop lengths bl Hsorted lengths 0%nat
              (map (fun _ => @nil nat) bl))
    as [indexes [Eidx [Hperm Hall]]];
    [ reflexivity | exact Hcover | apply no_items_assigned | ].
  cbn [Nat.add] in Hperm.
  destruct (Forall2_combine _ _ _ Hall) as [Hpairs [Hfst Hsnd]].
  unfold collect_buckets. rewrite Ebl. cbn [Py.bind].
  unfold enumerate. rewrite Eidx. cbn [Py.bind].
  destruct Hsize as [-> | Hsize].
  - cbn [Z.eqb Pos.eqb negb Z.opp].
    exists (filter nonempty (combine bl indexes)).
    split; [ reflexivity | ].
    assert (Hlt : StronglySorted Z.lt
                    (map fst (filter nonempty (combine bl indexes))))
      by (apply sorted_filter_fst; now rewrite Hfst).
    split; [ now rewrite concat_filter_nonempty, Hsnd | ].
    split; [ now apply strictly_ascending_weaken | ].
    split; [ now intros _ | ].
    apply Forall_forall. intros b Hb. apply filter_In in Hb.
    destruct Hb as [Hb Hnon]. rewrite Forall_forall in Hpairs.
    split; [ now apply nonempty_true | now apply Hpairs ].
  - destruct (Z.eqb_spec max_bucket_size (-1)) as [E | _]; [ lia | ].
    cbn [negb].
    rewrite (split_result lengths bl indexes max_bucket_size Hsize Hall).
    exists (flat_map (split_bucket max_bucket_size) (combine bl indexes)).
    split; [ reflexivity | ].
    split; [ now rewrite split_concat, Hsnd | ].
    split; [ apply split_ascending; now rewrite Hfst | ].
    split; [ intros E; lia | ].
    now apply split_buckets_ok.
Qed.

End BucketingFacts.

Lemma collect_buckets_partition_witness :
  (exists l, In l [5; 3; 4; 1; 2; 9]%Z /\ (0 < l)%Z) /\
  (1 <= 3)%Z /\
  (2 = -1 \/ 0 < 2)%Z /\
  exists buckets,
    Bucketing.collect_buckets [5; 3; 4; 1; 2; 9]%Z 3 2 = Ok buckets /\
    Permutation (concat (map snd buckets))
                (seq 0 (length [5; 3; 4; 1; 2; 9]%Z)) /\
    StronglySorted Z.le (map fst buckets) /\
    ((2 = -1)%Z -> StronglySorted Z.lt (map fst buckets)) /\
    Forall (fun b => snd b <> [] /\
                     Forall (fun i => (nth i [5; 3; 4; 1; 2; 9] 0 <= fst b)%Z)
                            (snd b))
           buckets.
Proof.
  assert (Hpos : exists l, In l [5; 3; 4; 1; 2; 9]%Z /\ (0 < l)%Z)
    by (exists 5%Z; split; [ now left | lia ]).
  assert (Hnumber : (1 <= 3)%Z) by lia.
  assert (Hsize : (2 = -1 \/ 0 < 2)%Z) by (right; lia).
  repeat (split; [ assumption | ]).
  exact (collect_buckets_partition [5; 3; 4; 1; 2; 9]%Z 3 2
           Hpos Hnumber Hsize).
Defined.

(** ** More on the grammar automaton *)

Section GrammarMore.

Import Grammar.

Lemma contains_dash_cons (c : ascii) (r : string) :
  contains "-" (String c r) = false ->
  Ascii.eqb c "-" = false /\ contains "-" r = false.
Proof.
  cbn [contains String.prefix]. intros H.
  apply orb_false_iff in H. destruct H as [Hp Hr].
  split; [ | assumption ].
  destruct (Ascii.eqb_spec c "-"%char) as [-> | Hne]; [ | reflexivity ].
  destruct (ascii_dec "-"%char "-"%char) as [_ | Hne]; [ | congruence ].
  destruct r; discriminate.
Qed.

Lemma split_on_dash_free (s : string) :
  contains "-" s = false -> split_on "-" s = [s].
Proof.
  induction s as [| c r IH]; intros H; [ reflexivity | ].
  apply contains_dash_cons in H. destruct H as [Hc Hr].
  cbn [split_on]. rewrite Hc, (IH Hr). reflexivity.
Qed.

(** Splitting a formatted label gives back its tag and its type. *)
Lemma split_on_format (x t : string) :
  contains "-" x = false -> contains "-" t = false ->
  split_on "-" (format_dash x t) = [x; t].
Proof.
  intros Hx Ht. unfold format_dash. induction x as [| c r IH].
  - cbn [String.append split_on]. rewrite Ascii.eqb_refl.
    now rewrite split_on_dash_free.
  - apply contains_dash_cons in Hx. destruct Hx as [Hc Hr].
    cbn [String.append split_on]. rewrite Hc.
    cbn [String.append] in IH. rewrite (IH Hr). reflexivity.
Qed.

Lemma get_next_morpheme_tagged (tag t : string) :
  In tag boundary_tags -> contains "-" t = false ->
  get_next_morpheme (format_dash tag t)
  = Ok (if contains tag "BM"
        then [format_dash "M" t; format_dash "E" t]
        else (map (fun y => format_dash "B" y) (get_next_morpheme_types t)
              ++ map (fun y => format_dash "S" y) (get_next_morpheme_types t))).
Proof.
  intros Htag Ht.
  assert (Hsplit : split_on "-" (format_dash tag t) = [tag; t]).
  { apply split_on_format; [ | assumption ].
    simpl in Htag.
    destruct Htag as [<- | [<- | [<- | [<- | []]]]]; reflexivity. }
  unfold get_next_morpheme.
  assert (Hend : String.eqb (format_dash tag t) "END" = false)
    by (simpl in Htag;
        destruct Htag as [<- | [<- | [<- | [<- | []]]]]; reflexivity).
  assert (Hbegin : String.eqb (format_dash tag t) "BEGIN" = false)
    by (simpl in Htag;
        destruct Htag as [<- | [<- | [<- | [<- | []]]]]; reflexivity).
  rewrite Hend, Hbegin, Hsplit. cbn [unpack2 Py.bind].
  destruct (contains tag "BM"); cbn [chars flat_map map app];
    now rewrite ?app_nil_r.
Qed.

(** X1: on a label [<tag>-<type>] whose type holds no dash, a morpheme that
    is open (tag [B] or [M]) can only go on or close with its own type, and
    after a closed morpheme (tag [E] or [S]) every successor opens a new
    morpheme (tag [B] or [S]) of a type allowed by
    [get_next_morpheme_types]. *)
Theorem successors_of_label (tag t : string)
    (Ht : contains "-" t = false) :
  (tag = "B" \/ tag = "M" ->
   get_next_morpheme (format_dash tag t)
   = Ok [format_dash "M" t; format_dash "E" t]) /\
  (tag = "E" \/ tag = "S" ->
   get_next_morpheme (format_dash tag t)
   = Ok (map (fun y => format_dash "B" y) (get_next_morpheme_types t)
         ++ map (fun y => format_dash "S" y) (get_next_morpheme_types t))).
Proof.
  split; intros Htag.
  - rewrite get_next_morpheme_tagged; [ | | assumption ].
    + destruct Htag as [-> | ->]; reflexivity.
    + destruct Htag as [-> | ->]; simpl; tauto.
  - rewrite get_next_morpheme_tagged; [ | | assumption ].
    + destruct Htag as [-> | ->]; reflexivity.
    + destruct Htag as [-> | ->]; simpl; tauto.
Qed.

Lemma successors_of_label_witness :
  contains "-" "SUFF" = false /\
  ("M" = "B" \/ "M" = "M" ->
   get_next_morpheme (format_dash "M" "SUFF")
   = Ok [format_dash "M" "SUFF"; format_dash "E" "SUFF"]) /\
  ("M" = "E" \/ "M" = "S" ->
   get_next_morpheme (format_dash "M" "SUFF")
   = Ok (map (fun y => format_dash "B" y) (get_next_morpheme_types "SUFF")
         ++ map (fun y => format_dash "S" y) (get_next_morpheme_types "SUFF"))).
Proof.
  assert (Ht : contains "-" "SUFF" = false) by reflexivity.
  split; [ exact Ht | exact (successors_of_label "M" "SUFF" Ht) ].
Defined.

Ltac settle_table := cbn; intuition congruence.

(** X2: which morpheme types may come next, for every string taken as the
    type of the morpheme just closed.  The flat type [None] follows only
    [None] and the start of the word; a hyphen may follow every type that has
    a successor except [None] and the hyphen itself; a root may follow every
    known type except [None] and [POSTFIX]; and the types without any
    successor are [POSTFIX] and every unknown string. *)
Theorem next_types_table (t : string) :
  (In "None" (get_next_morpheme_types t) <-> t = "None" \/ t = "BEGIN") /\
  (In "HYPH" (get_next_morpheme_types t)
   <-> In t ["ROOT"; "SUFF"; "END"; "PREF"; "LINK"; "BEGIN"]) /\
  (In "ROOT" (get_next_morpheme_types t)
   <-> In t ["ROOT"; "SUFF"; "HYPH"; "END"; "PREF"; "LINK"; "BEGIN"]) /\
  (get_next_morpheme_types t = []
   <-> ~ In t ["None"; "ROOT"; "SUFF"; "HYPH"; "END"; "PREF"; "LINK";
               "BEGIN"]).
Proof.
  destruct (string_dec t "None") as [-> | H1]; [ settle_table | ].
  destruct (string_dec t "ROOT") as [-> | H2]; [ settle_table | ].
  destruct (string_dec t "SUFF") as [-> | H3]; [ settle_table | ].
  destruct (string_dec t "HYPH") as [-> | H4]; [ settle_table | ].
  destruct (string_dec t "END") as [-> | H5]; [ settle_table | ].
  destruct (string_dec t "PREF") as [-> | H6]; [ settle_table | ].
  destruct (string_dec t "LINK") as [-> | H7]; [ settle_table | ].
  destruct (string_dec t "BEGIN") as [-> | H8]; [ settle_table | ].
  assert (E : get_next_morpheme_types t = []).
  { unfold get_next_morpheme_types, mem. cbn [existsb].
    apply String.eqb_neq in H1, H2, H3, H4, H5, H6, H7, H8.
    rewrite H1, H2, H3, H4, H5, H6, H7, H8. reflexivity. }
  rewrite E. cbn [In]. intuition congruence.
Qed.

Lemma transitions_ok_sound (labels : list string) :
  transitions_ok labels = Ok true -> adjacent label_step labels.
Proof.
  induction labels as [| a rest IH]; [ intros _; exact I | ].
  destruct rest as [| b rest']; [ intros _; exact I | ].
  change (transitions_ok (a :: b :: rest'))
    with (allowed <- get_next_morpheme a ;;
          if negb (mem b allowed) then Ok false
          else transitions_ok (b :: rest')).
  intros H. bind_ok H allowed Ea.
  destruct (mem b allowed) eqn:Eb; cbn [negb] in H; [ | discriminate ].
  split; [ | now apply IH ].
  exists allowed. split; [ assumption | now apply mem_In ].
Qed.

Lemma unpack2_Ok (parts : list string) (a b : string) :
  unpack2 parts = Ok (a, b) -> parts = [a; b].
Proof.
  destruct parts as [| x [| y [| z t]]]; simpl; intros H; try discriminate.
  now inversion H.
Qed.

(** X3: what acceptance by [is_correct_morpheme_sequence] guarantees: the
    sequence is not empty, every label holds a dash, every label is among
    the successors [get_next_morpheme] gives for the label before it, the
    first label has a type among [PREF], [ROOT], [None] and a tag found in
    ["BS"], and the last label has a type among [ROOT], [SUFF], [ENDING],
    [POSTFIX], [None] and a tag found in ["ES"]. *)
Theorem accepted_sequence_sound (labels : list string)
    (Haccepted : is_correct_morpheme_sequence labels = Ok true) :
  labels <> [] /\
  Forall (fun label => contains "-" label = true) labels /\
  adjacent label_step labels /\
  (exists tag ty,
      split_on "-" (hd "" labels) = [tag; ty] /\
      contains tag "BS" = true /\ In ty ["PREF"; "ROOT"; "None"]) /\
  (exists tag ty,
      split_on "-" (last labels "") = [tag; ty] /\
      contains tag "ES" = true /\
      In ty ["ROOT"; "SUFF"; "ENDING"; "POSTFIX"; "None"]).
Proof.
  unfold is_correct_morpheme_sequence in Haccepted.
  destruct labels as [| first rest]; [ discriminate | ].
  destruct (existsb _ (first :: rest)) eqn:Edash; [ discriminate | ].
  bind_ok Haccepted p1 E1. destruct p1 as [tag ty].
  destruct (contains tag "BS") eqn:Etag; cbn [negb orb] in Haccepted;
    [ | discriminate ].
  destruct (mem ty ["PREF"; "ROOT"; "None"]) eqn:Ety;
    cbn [negb] in Haccepted; [ | discriminate ].
  bind_ok Haccepted p2 E2. destruct p2 as [tag' ty'].
  destruct (contains tag' "ES") eqn:Etag'; cbn [negb orb] in Haccepted;
    [ | discriminate ].
  destruct (mem ty' ["ROOT"; "SUFF"; "ENDING"; "POSTFIX"; "None"]) eqn:Ety';
    cbn [negb] in Haccepted; [ | discriminate ].
  split; [ discriminate | ]. split.
  { apply Forall_forall. intros x Hx.
    destruct (contains "-" x) eqn:Ex; [ reflexivity | ].
    assert (Hex : existsb (fun morpheme => negb (contains "-" morpheme))
                    (first :: rest) = true)
      by (apply existsb_exists; exists x; split; [ assumption | now rewrite Ex ]).
    congruence. }
  split; [ now apply transitions_ok_sound | ]. split.
  - exists tag, ty. split; [ now apply unpack2_Ok | ].
    split; [ assumption | now apply mem_In ].
  - exists tag', ty'. split; [ now apply unpack2_Ok | ].
    split; [ assumption | now apply mem_In ].
Qed.

Lemma accepted_sequence_sound_witness :
  is_correct_morpheme_sequence ["B-PREF"; "E-PREF"; "S-ROOT"] = Ok true /\
  ["B-PREF"; "E-PREF"; "S-ROOT"] <> [] /\
  Forall (fun label => contains "-" label = true)
         ["B-PREF"; "E-PREF"; "S-ROOT"] /\
  adjacent label_step ["B-PREF"; "E-PREF"; "S-ROOT"] /\
  (exists tag ty,
      split_on "-" (hd "" ["B-PREF"; "E-PREF"; "S-ROOT"]) = [tag; ty] /\
      contains tag "BS" = true /\ In ty ["PREF"; "ROOT"; "None"]) /\
  (exists tag ty,
      split_on "-" (last ["B-PREF"; "E-PREF"; "S-ROOT"] "") = [tag; ty] /\
      contains tag "ES" = true /\
      In ty ["ROOT"; "SUFF"; "ENDING"; "POSTFIX"; "None"]).
Proof.
  assert (H : is_correct_morpheme_sequence ["B-PREF"; "E-PREF"; "S-ROOT"]
              = Ok true) by reflexivity.
  split; [ exact H | ].
  exact (accepted_sequence_sound ["B-PREF"; "E-PREF"; "S-ROOT"] H).
Defined.

End GrammarMore.

(** ** More on the constrained decoder *)

Section DecoderMore.

Variable prob : Type.
Variable cost : Type.
Variable prob_gt : prob -> prob -> bool.
Variable zero : prob.
Variable float32 : prob -> prob.
Variable inf : cost.
Variable isinf : cost -> bool.
Variable neg_log : prob -> cost.
Variable sub_log : cost -> prob -> cost.
Variable cost_lt : cost -> cost -> bool.
Variable argsort : list cost -> list nat.
Variable target_symbols_ : list string.

Local Abbreviation codes := (Decoder.target_symbol_codes_ target_symbols_).
Local Abbreviation known_codes := (Decoder.known_codes target_symbols_).
Local Abbreviation next_states :=
  (Decoder.get_possible_next_states target_symbols_).
Local Abbreviation n_symbols := (Decoder.target_symbols_number_ target_symbols_).
Local Abbreviation fallback :=
  (Decoder.fallback prob cost inf isinf neg_log sub_log cost_lt argsort
     target_symbols_).
Local Abbreviation trim_step := (Decoder.trim_step prob float32 target_symbols_).
Local Abbreviation trim := (Decoder.trim prob zero float32 target_symbols_).
Local Abbreviation symbol_of := (Decoder.symbol_of target_symbols_).
Local Abbreviation decode_best :=
  (Decoder._decode_best prob cost prob_gt zero float32 inf isinf neg_log sub_log
     cost_lt argsort target_symbols_).
Local Abbreviation labelled := (Decoder.labelled target_symbols_).
Local Abbreviation trimmed_row :=
  (Decoder.trimmed_row prob zero float32 target_symbols_).

(** [np.isinf(np.inf)]. *)
Hypothesis inf_isinf : isinf inf = true.

(** *** The code table and the possible next states *)

Lemma last_position_found (x : string) (l : list string) (i c : nat) :
  exists c', Decoder.last_position x l i (Some c) = Some c'.
Proof.
  revert i c. induction l as [| a t IH]; intros i c; simpl; [ eauto | ].
  destruct (String.eqb a x); apply IH.
Qed.

Lemma last_position_In (x : string) (l : list string) (i : nat)
    (found : option nat) :
  In x l -> exists c, Decoder.last_position x l i found = Some c.
Proof.
  revert i found. induction l as [| a t IH]; intros i found Hin;
    [ contradiction | ].
  simpl. destruct (String.eqb_spec a x) as [-> | Hne].
  - apply last_position_found.
  - destruct Hin as [-> | Hin]; [ congruence | now apply IH ].
Qed.

Lemma codes_In (x : string) :
  In x target_symbols_ -> exists c, codes x = Some c.
Proof. apply last_position_In. Qed.

Lemma known_codes_complete (labels : list string) (x : string) (c : nat) :
  In x labels -> codes x = Some c -> In c (known_codes labels).
Proof.
  induction labels as [| y t IH]; simpl; [ contradiction | ].
  intros [-> | Hin] Hc.
  - rewrite Hc. now left.
  - destruct (codes y); [ right | ]; now apply IH.
Qed.

(** X4: the states [get_possible_next_states] returns for a state are
    positions of the alphabet whose symbols [get_next_morpheme] allows after
    the symbol of the state, and every allowed symbol that belongs to the
    alphabet is the symbol of one of the returned states. *)
Theorem possible_next_states_spec (state_index : nat)
    (possible_states : list nat)
    (Hstates : next_states state_index = Ok possible_states) :
  exists state allowed,
    nth_error target_symbols_ state_index = Some state /\
    Grammar.get_next_morpheme state = Ok allowed /\
    (forall s, In s possible_states ->
               s < length target_symbols_ /\
               exists x, In x allowed /\ nth_error target_symbols_ s = Some x) /\
    (forall x, In x allowed -> In x target_symbols_ ->
               exists s, In s possible_states /\
                         nth_error target_symbols_ s = Some x).
Proof.
  unfold Decoder.get_possible_next_states in Hstates.
  bind_ok Hstates state Es. bind_ok Hstates allowed Ea.
  inversion Hstates; subst possible_states. clear Hstates.
  exists state, allowed.
  split; [ now apply index_Ok | ]. split; [ exact Ea | ]. split.
  - intros s Hs. split; [ now apply known_codes_lt in Hs | ].
    now apply known_codes_In in Hs.
  - intros x Hx Hin. destruct (codes_In x Hin) as [c Hc].
    exists c. split; [ now apply known_codes_complete with x | ].
    now apply codes_symbol.
Qed.

(** *** The grammar of the decoded sequence *)

Lemma accepted_ends (labels : list string) :
  Grammar.is_correct_morpheme_sequence labels = Ok true ->
  adjacent Grammar.label_step labels /\
  (exists tag ty,
      split_on "-" (hd "" labels) = [tag; ty] /\
      contains tag "BS" = true /\ In ty ["PREF"; "ROOT"; "None"]) /\
  (exists tag ty,
      split_on "-" (last labels "") = [tag; ty] /\
      contains tag "ES" = true /\
      In ty ["ROOT"; "SUFF"; "ENDING"; "POSTFIX"; "None"]).
Proof.
  unfold Grammar.is_correct_morpheme_sequence. intros H.
  destruct labels as [| first rest]; [ discriminate | ].
  destruct (existsb _ (first :: rest)); [ discriminate | ].
  bind_ok H p1 E1. destruct p1 as [tag ty].
  destruct (contains tag "BS") eqn:Etag; cbn [negb orb] in H;
    [ | discriminate ].
  destruct (mem ty ["PREF"; "ROOT"; "None"]) eqn:Ety; cbn [negb] in H;
    [ | discriminate ].
  bind_ok H p2 E2. destruct p2 as [tag' ty'].
  destruct (contains tag' "ES") eqn:Etag'; cbn [negb orb] in H;
    [ | discriminate ].
  destruct (mem ty' ["ROOT"; "SUFF"; "ENDING"; "POSTFIX"; "None"]) eqn:Ety';
    cbn [negb] in H; [ | discriminate ].
  split; [ now apply transitions_ok_sound | ]. split.
  - exists tag, ty. split; [ now apply unpack2_Ok | ].
    split; [ assumption | now apply mem_In ].
  - exists tag', ty'. split; [ now apply unpack2_Ok | ].
    split; [ assumption | now apply mem_In ].
Qed.

Lemma start_label_parts (l : string) :
  In l Grammar.start_labels ->
  exists tag ty,
    split_on "-" l = [tag; ty] /\ contains tag "BS" = true /\
    In ty ["PREF"; "ROOT"; "HYPH"; "None"].
Proof.
  intros H. simpl in H.
  repeat (destruct H as [<- | H];
          [ do 2 eexists; split; [ reflexivity | ];
            split; [ reflexivity | simpl; tauto ] | ]).
  contradiction.
Qed.

Lemma end_label_parts (l : string) :
  In l Grammar.admissible_end_labels ->
  exists tag ty,
    split_on "-" l = [tag; ty] /\ contains tag "ES" = true /\
    In ty ["ROOT"; "SUFF"; "END"; "ENDING"; "POSTFIX"; "None"].
Proof.
  intros H. simpl in H.
  repeat (destruct H as [<- | H];
          [ do 2 eexists; split; [ reflexivity | ];
            split; [ reflexivity | simpl; tauto ] | ]).
  contradiction.
Qed.

(** X5: for a word of at least one letter, over an alphabet that starts
    with the auxiliary symbols, whichever branch produced it, a label
    sequence returned by [_decode_best] has every label among the successors
    [get_next_morpheme] gives for the label before it, opens with a tag found
    in ["BS"] and a type among [PREF], [ROOT], [HYPH], [None], and closes
    with a tag found in ["ES"] and a type among [ROOT], [SUFF], [END],
    [ENDING], [POSTFIX], [None]. *)
Theorem decode_best_follows_grammar (symbols : list string)
    (probs : list (list prob)) (m : nat) (labels : list string)
    (trimmed : list (list prob))
    (Halpha : target_symbols_ = AUXILIARY ++ symbols)
    (Hm : 1 <= m)
    (Hdecode : decode_best probs m = Ok (labels, trimmed)) :
  adjacent Grammar.label_step labels /\
  (exists tag ty,
      split_on "-" (hd "" labels) = [tag; ty] /\
      contains tag "BS" = true /\ In ty ["PREF"; "ROOT"; "HYPH"; "None"]) /\
  (exists tag ty,
      split_on "-" (last labels "") = [tag; ty] /\
      contains tag "ES" = true /\
      In ty ["ROOT"; "SUFF"; "END"; "ENDING"; "POSTFIX"; "None"]).
Proof.
  unfold Decoder._decode_best in Hdecode.
  bind_ok Hdecode bs Ebs. bind_ok Hdecode bl Ebl.
  bind_ok Hdecode correct Ec. bind_ok Hdecode best_states Ebest.
  bind_ok Hdecode out Eout. bind_ok Hdecode ls Els.
  inversion Hdecode; subst ls out. clear Hdecode.
  destruct correct; simpl in Ebest.
  - inversion Ebest; subst best_states.
    replace (tl (map Some bs)) with (map Some (tl bs)) in Els
      by (destruct bs; reflexivity).
    rewrite mapM_symbol_of_Some in Els.
    rewrite (mapM_tl _ _ _ Ebl) in Els. inversion Els; subst labels.
    destruct (accepted_ends _ Ec) as [Hadj [Hfirst Hlast]].
    split; [ exact Hadj | ]. split.
    + destruct Hfirst as [tag [ty [Hs [Ht Hty]]]]. exists tag, ty.
      split; [ exact Hs | ]. split; [ exact Ht | ]. simpl in *. tauto.
    + destruct Hlast as [tag [ty [Hs [Ht Hty]]]]. exists tag, ty.
      split; [ exact Hs | ]. split; [ exact Ht | ]. simpl in *. tauto.
  - destruct (fallback_chain prob cost prob_gt zero float32 inf isinf neg_log
                sub_log cost_lt argsort target_symbols_ inf_isinf
                symbols probs m best_states trimmed labels
                Halpha Hm Ebest Eout Els) as [Hne [Hadj Hend]].
    destruct labels as [| l0 rest]; [ congruence | ].
    destruct Hadj as [[allowed [Ha Hl0]] Hadj].
    rewrite get_next_morpheme_BEGIN in Ha. inversion Ha; subst allowed.
    split; [ exact Hadj | ]. split.
    + now apply start_label_parts.
    + now apply end_label_parts.
Qed.

(** *** The trimmed matrix *)

Lemma write_row_spec (source : list prob) (possible_states : list nat)
    (values row row' : list prob) :
  Forall2 (fun k p => nth_error source k = Some p) possible_states values ->
  foldM (fun r kv => set_index r (fst kv) (float32 (snd kv)))
        (combine possible_states values) row = Ok row' ->
  length row' = length row /\
  forall k,
    (In k possible_states ->
     exists p, nth_error source k = Some p /\
               nth_error row' k = Some (float32 p)) /\
    (~ In k possible_states -> nth_error row' k = nth_error row k).
Proof.
  intros Hvalues. revert row.
  induction Hvalues as [| k0 p0 t values' Hk0 Hrest IH]; intros row H;
    simpl in H.
  - inversion H; subst. split; [ reflexivity | ].
    intros k. split; [ contradiction | reflexivity ].
  - destruct (set_index row k0 (float32 p0)) as [r1 |] eqn:E;
      [ | discriminate ].
    destruct (IH r1 H) as [Hlen Hk].
    split; [ rewrite Hlen; now apply set_index_length in E | ].
    intros k. destruct (Hk k) as [Hin Hout].
    pose proof (set_index_nth_error row r1 k0 k (float32 p0) E) as Hset.
    split.
    + intros Hin'. destruct (in_dec Nat.eq_dec k t) as [Ht | Ht];
        [ now apply Hin | ].
      destruct Hin' as [-> | Hin']; [ | contradiction ].
      exists p0. split; [ assumption | ].
      rewrite (Hout Ht), Hset, Nat.eqb_refl. reflexivity.
    + intros Hnot. rewrite Hout by (intros Hc; apply Hnot; now right).
      rewrite Hset.
      destruct (Nat.eqb_spec k k0) as [-> | Hne]; [ | reflexivity ].
      exfalso. apply Hnot. now left.
Qed.

Lemma trim_step_spec (probs : list (list prob)) (out out' : list (list prob))
    (j : nat) (state : option nat) :
  nth_error out j = Some (repeat zero n_symbols) ->
  trim_step probs out (j, state) = Ok out' ->
  length out' = length out /\
  (forall i, i <> j -> nth_error out' i = nth_error out i) /\
  exists row, nth_error out' j = Some row /\ trimmed_row probs j state row.
Proof.
  intros Hzero H. unfold Decoder.trim_step in H.
  bind_ok H possible_states Ep. bind_ok H source Es.
  bind_ok H values Ev. bind_ok H row Er. bind_ok H row' Ew.
  apply index_Ok in Er, Es. assert (row = repeat zero n_symbols) by congruence.
  subst row.
  apply mapM_Forall2 in Ev.
  assert (Hvalues : Forall2 (fun k p => nth_error source k = Some p)
                      possible_states values).
  { eapply Forall2_impl; [ | exact Ev ]. intros k p Hkp. now apply index_Ok. }
  destruct (write_row_spec source possible_states values _ row' Hvalues Ew)
    as [Hlen Hrow].
  pose proof (set_index_length _ _ _ _ H) as Hlen'.
  split; [ exact Hlen' | ]. split.
  - intros i Hi. rewrite (set_index_nth_error _ _ _ i _ H).
    destruct (Nat.eqb_spec i j); [ contradiction | reflexivity ].
  - exists row'. split.
    + rewrite (set_index_nth_error _ _ _ j _ H). now rewrite Nat.eqb_refl.
    + destruct state as [s |]; [ | discriminate ].
      exists s, possible_states, source.
      split; [ reflexivity | ]. split; [ exact Ep | ].
      split; [ exact Es | ].
      split; [ rewrite Hlen; apply repeat_length | ].
      intros k v Hv. destruct (Hrow k) as [Hin Hnot]. split.
      * intros Hk. destruct (Hin Hk) as [p [Hp Hfp]].
        exists p. split; [ assumption | congruence ].
      * intros Hk. rewrite (Hnot Hk) in Hv.
        now apply nth_error_repeat_inv in Hv.
Qed.

Lemma trim_steps_spec (probs : list (list prob)) (l : list (option nat)) :
  forall (a : nat) (out0 out : list (list prob)),
    (forall j, a <= j -> j < length out0 ->
               nth_error out0 j = Some (repeat zero n_symbols)) ->
    foldM (trim_step probs) (combine (seq a (length l)) l) out0 = Ok out ->
    length out = length out0 /\
    (forall j, j < a \/ a + length l <= j ->
               nth_error out j = nth_error out0 j) /\
    (forall i state, nth_error l i = Some state ->
                     exists row, nth_error out (a + i) = Some row /\
                                 trimmed_row probs (a + i) state row).
Proof.
  induction l as [| x t IH]; intros a out0 out Hzero H.
  - simpl in H. inversion H; subst.
    split; [ reflexivity | ]. split; [ reflexivity | ].
    intros [| i] state Hi; discriminate.
  - cbn [length seq combine foldM] in H.
    destruct (trim_step probs out0 (a, x)) as [out1 |] eqn:E;
      [ | discriminate ].
    assert (Ha : a < length out0).
    { unfold Decoder.trim_step in E.
      destruct (Decoder.next_states_of target_symbols_ x); [ | discriminate ].
      cbn [Py.bind] in E. destruct (index probs (a + 1)); [ | discriminate ].
      cbn [Py.bind] in E. destruct (mapM _ _); [ | discriminate ].
      cbn [Py.bind] in E. destruct (index out0 a) eqn:Ei; [ | discriminate ].
      now apply index_Ok_lt in Ei. }
    destruct (trim_step_spec probs out0 out1 a x (Hzero a (le_n a) Ha) E)
      as [Hlen1 [Hother [row [Hrow Hspec]]]].
    assert (Hzero1 : forall j, S a <= j -> j < length out1 ->
                               nth_error out1 j = Some (repeat zero n_symbols)).
    { intros j Hj Hlt. rewrite Hother by lia. apply Hzero; lia. }
    destruct (IH (S a) out1 out Hzero1 H) as [Hlen [Hkeep Hrows]].
    split; [ congruence | ]. split.
    + intros j Hj. simpl in Hj. rewrite Hkeep by lia. apply Hother. lia.
    + intros [| i] state Hi; simpl in Hi.
      * inversion Hi; subst state. rewrite Nat.add_0_r.
        exists row. split; [ | assumption ].
        rewrite Hkeep by lia. assumption.
      * replace (a + S i) with (S a + i) by lia. now apply Hrows.
Qed.

Lemma nth_error_drop_last {T : Type} (l : list T) (i : nat) :
  i + 1 < length l -> nth_error (drop_last l) i = nth_error l i.
Proof.
  unfold drop_last. revert i. induction l as [| x t IH]; intros i H;
    [ simpl in H; lia | ].
  destruct t as [| y t']; [ simpl in H; lia | ].
  destruct i as [| i]; [ reflexivity | ].
  change (removelast (x :: y :: t')) with (x :: removelast (y :: t')).
  simpl nth_error. apply IH. simpl in *. lia.
Qed.

Lemma length_drop_last {T : Type} (l : list T) :
  length (drop_last l) = length l - 1.
Proof.
  unfold drop_last. induction l as [| x t IH]; [ reflexivity | ].
  destruct t as [| y t']; [ reflexivity | ].
  change (removelast (x :: y :: t')) with (x :: removelast (y :: t')).
  simpl length in *. lia.
Qed.

Lemma trim_spec (probs : list (list prob)) (m : nat)
    (best_states : list (option nat)) (out : list (list prob)) :
  trim probs m best_states = Ok out ->
  length out = m /\
  forall j row, nth_error out j = Some row ->
    (length best_states - 1 <= j -> row = repeat zero n_symbols) /\
    (forall state, j + 1 < length best_states ->
                   nth_error best_states j = Some state ->
                   trimmed_row probs j state row).
Proof.
  unfold Decoder.trim. intros H.
  apply trim_steps_spec in H.
  - destruct H as [Hlen [Hkeep Hrows]]. rewrite repeat_length in Hlen.
    split; [ exact Hlen | ]. intros j row Hrow. split.
    + intros Hj. rewrite Hkeep in Hrow
        by (right; rewrite length_drop_last; simpl; lia).
      now apply nth_error_repeat_inv in Hrow.
    + intros state Hj Hstate.
      rewrite <- nth_error_drop_last in Hstate by assumption.
      destruct (Hrows j state Hstate) as [row' [Hrow' Hspec]].
      cbn [Nat.add] in Hrow', Hspec. congruence.
  - intros j _ Hj. rewrite repeat_length in Hj.
    now apply nth_error_repeat.
Qed.

(** X6: the matrix [_decode_best] returns beside the labels has one row per
    letter and one column per symbol of the alphabet; each of its entries is
    zero or the cast of the entry of [probs] one row below in the same
    column; and the row that follows a label other than the last one holds
    exactly the casts at the columns [get_possible_next_states] lists for
    the successors of that label, and zero in every other column. *)
Theorem trimmed_matrix_spec (probs : list (list prob)) (m : nat)
    (labels : list string) (trimmed : list (list prob))
    (Hdecode : decode_best probs m = Ok (labels, trimmed)) :
  length trimmed = m /\
  Forall (fun row => length row = length target_symbols_) trimmed /\
  (forall j row k v,
      nth_error trimmed j = Some row -> nth_error row k = Some v ->
      v = zero \/
      exists p, Decoder.at2 prob probs (j + 1) k = Ok p /\ v = float32 p) /\
  (forall j prev row,
      nth_error labels j = Some prev -> S j < length labels ->
      nth_error trimmed (S j) = Some row ->
      exists allowed,
        Grammar.get_next_morpheme prev = Ok allowed /\
        forall k v, nth_error row k = Some v ->
          (In k (known_codes allowed) ->
           exists p, Decoder.at2 prob probs (j + 2) k = Ok p /\
                     v = float32 p) /\
          (~ In k (known_codes allowed) -> v = zero)).
Proof.
  unfold Decoder._decode_best in Hdecode.
  bind_ok Hdecode bs Ebs. bind_ok Hdecode bl Ebl.
  bind_ok Hdecode correct Ec. bind_ok Hdecode best_states Ebest.
  bind_ok Hdecode out Eout. bind_ok Hdecode ls Els.
  inversion Hdecode; subst ls out. clear Hdecode Ebs Ebl Ec Ebest.
  destruct (trim_spec probs m best_states trimmed Eout) as [Hlen Hrows].
  assert (Hcases : forall j row, nth_error trimmed j = Some row ->
            row = repeat zero n_symbols \/
            exists state, nth_error best_states j = Some state /\
                          trimmed_row probs j state row).
  { intros j row Hrow. destruct (Hrows j row Hrow) as [Hzero Hstate].
    destruct (Nat.le_gt_cases (length best_states - 1) j) as [Hj | Hj];
      [ left; now apply Hzero | right ].
    destruct (nth_error best_states j) as [state |] eqn:E.
    - exists state. split; [ reflexivity | ]. apply Hstate; [ lia | reflexivity ].
    - apply nth_error_None in E. lia. }
  split; [ exact Hlen | ]. split; [ | split ].
  - apply Forall_forall. intros row Hin.
    apply In_nth_error in Hin. destruct Hin as [j Hrow].
    destruct (Hcases j row Hrow) as [-> | [state [_ Hspec]]].
    + apply repeat_length.
    + destruct Hspec as [s [ps [source [_ [_ [_ [Hl _]]]]]]]. exact Hl.
  - intros j row k v Hrow Hv.
    destruct (Hcases j row Hrow) as [-> | [state [_ Hspec]]].
    + left. now apply nth_error_repeat_inv in Hv.
    + destruct Hspec as [s [ps [source [_ [_ [Hsource [_ Hentries]]]]]]].
      destruct (Hentries k v Hv) as [Hin Hnot].
      destruct (in_dec Nat.eq_dec k ps) as [Hk | Hk]; [ right | left; auto ].
      destruct (Hin Hk) as [p [Hp Hvp]]. exists p. split; [ | exact Hvp ].
      unfold Decoder.at2. apply index_Ok in Hsource. rewrite Hsource.
      cbn [Py.bind]. now apply index_Ok.
  - intros j prev row Hprev Hj Hrow.
    apply symbols_labelled in Els.
    pose proof (Forall2_length Els) as Hlabels.
    assert (Hbs : length (tl best_states) = length best_states - 1)
      by (destruct best_states; simpl; lia).
    destruct (nth_error best_states (S j)) as [state |] eqn:Estate;
      [ | apply nth_error_None in Estate; lia ].
    assert (Htl : nth_error (tl best_states) j = Some state)
      by (destruct best_states; [ discriminate | exact Estate ]).
    pose proof (Forall2_nth_error _ _ _ _ _ _ Els Htl Hprev) as Hlab.
    destruct Hlab as [s [-> Hs]].
    destruct (Hrows (S j) row Hrow) as [_ Hstate].
    destruct (Hstate (Some s)) as [s' [ps [source [E [Hps [Hsource [_ Hentries]]]]]]];
      [ lia | exact Estate | ].
    inversion E; subst s'. clear E.
    unfold Decoder.get_possible_next_states in Hps.
    bind_ok Hps state Es. apply index_Ok in Es.
    assert (state = prev) by congruence. subst state.
    bind_ok Hps allowed Ea. inversion Hps; subst ps. clear Hps.
    exists allowed. split; [ reflexivity | ].
    intros k v Hv. destruct (Hentries k v Hv) as [Hin Hnot].
    split; [ | exact Hnot ].
    intros Hk. destruct (Hin Hk) as [p [Hp Hvp]]. exists p.
    split; [ | exact Hvp ].
    unfold Decoder.at2. replace (j + 2) with (S j + 1) by lia.
    apply index_Ok in Hsource. rewrite Hsource.
    cbn [Py.bind]. now apply index_Ok.
Qed.

End DecoderMore.

Section DecoderMoreExamples.

Import Dyadic Examples.

Lemma possible_next_states_spec_witness :
  Decoder.get_possible_next_states labels9 4 = Ok [5] /\
  exists state allowed,
    nth_error labels9 4 = Some state /\
    Grammar.get_next_morpheme state = Ok allowed /\
    (forall s, In s [5] ->
               s < length labels9 /\
               exists x, In x allowed /\ nth_error labels9 s = Some x) /\
    (forall x, In x allowed -> In x labels9 ->
               exists s, In s [5] /\ nth_error labels9 s = Some x).
Proof.
  assert (Hstates : Decoder.get_possible_next_states labels9 4 = Ok [5])
    by reflexivity.
  split; [ exact Hstates | ].
  exact (possible_next_states_spec labels9 4 [5] Hstates).
Defined.

Lemma decode_best_follows_grammar_witness :
  labels9 = AUXILIARY ++ ["B-ROOT"; "E-ROOT"; "S-END"; "S-HYPH"; "S-ROOT"] /\
  1 <= 2 /\
  Dyadic.decode_best labels9 probs_hyph_root 2
  = Ok (["S-HYPH"; "S-ROOT"],
        [[Zero; Zero; Zero; Zero; Pow2 4; Zero; Zero; Pow2 1; Pow2 4];
         [Zero; Zero; Zero; Zero; Pow2 4; Zero; Pow2 4; Zero; Pow2 1]]) /\
  adjacent Grammar.label_step ["S-HYPH"; "S-ROOT"] /\
  (exists tag ty,
      split_on "-" (hd "" ["S-HYPH"; "S-ROOT"]) = [tag; ty] /\
      contains tag "BS" = true /\ In ty ["PREF"; "ROOT"; "HYPH"; "None"]) /\
  (exists tag ty,
      split_on "-" (last ["S-HYPH"; "S-ROOT"] "") = [tag; ty] /\
      contains tag "ES" = true /\
      In ty ["ROOT"; "SUFF"; "END"; "ENDING"; "POSTFIX"; "None"]).
Proof.
  assert (Halpha : labels9
                   = AUXILIARY ++ ["B-ROOT"; "E-ROOT"; "S-END"; "S-HYPH"; "S-ROOT"])
    by reflexivity.
  assert (Hm : 1 <= 2) by lia.
  assert (Hdecode :
            Dyadic.decode_best labels9 probs_hyph_root 2
            = Ok (["S-HYPH"; "S-ROOT"],
                  [[Zero; Zero; Zero; Zero; Pow2 4; Zero; Zero; Pow2 1; Pow2 4];
                   [Zero; Zero; Zero; Zero; Pow2 4; Zero; Pow2 4; Zero; Pow2 1]]))
    by (vm_compute; reflexivity).
  repeat (split; [ assumption | ]).
  exact (decode_best_follows_grammar prob cost prob_gt Zero (fun p => p) None
           isinf neg_log sub_log cost_lt argsort labels9 eq_refl
           ["B-ROOT"; "E-ROOT"; "S-END"; "S-HYPH"; "S-ROOT"]
           probs_hyph_root 2 _ _ Halpha Hm Hdecode).
Defined.

Lemma trimmed_matrix_spec_witness :
  Dyadic.decode_best labels9 probs_root_end 3
  = Ok (["B-ROOT"; "E-ROOT"; "S-END"], trimmed_root_end) /\
  length trimmed_root_end = 3 /\
  Forall (fun row => length row = length labels9) trimmed_root_end /\
  (forall j row k v,
      nth_error trimmed_root_end j = Some row -> nth_error row k = Some v ->
      v = Zero \/
      exists p, Decoder.at2 prob probs_root_end (j + 1) k = Ok p /\ v = p) /\
  (forall j prev row,
      nth_error ["B-ROOT"; "E-ROOT"; "S-END"] j = Some prev ->
      S j < length ["B-ROOT"; "E-ROOT"; "S-END"] ->
      nth_error trimmed_root_end (S j) = Some row ->
      exists allowed,
        Grammar.get_next_morpheme prev = Ok allowed /\
        forall k v, nth_error row k = Some v ->
          (In k (Decoder.known_codes labels9 allowed) ->
           exists p, Decoder.at2 prob probs_root_end (j + 2) k = Ok p /\
                     v = p) /\
          (~ In k (Decoder.known_codes labels9 allowed) -> v = Zero)).
Proof.
  assert (Hdecode :
            Dyadic.decode_best labels9 probs_root_end 3
            = Ok (["B-ROOT"; "E-ROOT"; "S-END"], trimmed_root_end))
    by (vm_compute; reflexivity).
  split; [ exact Hdecode | ].
  exact (trimmed_matrix_spec prob cost prob_gt Zero (fun p => p) None isinf
           neg_log sub_log cost_lt argsort labels9 probs_root_end 3 _ _
           Hdecode).
Defined.

End DecoderMoreExamples.

(** ** More on length bucketing *)

Section BucketingMore.

Import Bucketing.

Local Open Scope Z_scope.

(** *** The thresholds *)

Lemma index_Z_In {T : Type} (s : list T) (z : Z) (v : T) :
  index_Z s z = Ok v -> In v s.
Proof.
  unfold index_Z. intros H.
  destruct (z <? - Z.of_nat (length s)); [ discriminate | ].
  destruct (z <? 0); apply index_Ok in H; now apply nth_error_In in H.
Qed.

Lemma bucket_steps_members (m K : Z) (s : list Z) (l : list Z) :
  forall st st',
    foldM (bucket_step m s K) l st = Ok st' ->
    Forall (fun x => In x s) (snd st) ->
    Forall (fun x => In x s) (snd st') /\
    (length (snd st') <= length (snd st) + length l)%nat.
Proof.
  induction l as [| i rest IH]; intros st st' H Hst; simpl in H.
  - inversion H; subst. split; [ assumption | lia ].
  - destruct (bucket_step m s K st i) as [st1 |] eqn:E; [ | discriminate ].
    destruct st as [last bl]. unfold bucket_step in E.
    bind_ok E v Ev. apply index_Z_In in Ev.
    destruct (v >? last); inversion E; subst st1; clear E.
    + destruct (IH _ _ H) as [Hin Hlen].
      * simpl. apply Forall_app. split; [ assumption | now constructor ].
      * split; [ assumption | ].
        simpl in *. rewrite length_app in Hlen. simpl in Hlen. lia.
    + destruct (IH _ _ H Hst) as [Hin Hlen].
      split; [ assumption | simpl in *; lia ].
Qed.

Lemma bucket_loop_ok (s : list Z) (K : Z) :
  s <> [] -> 1 <= K ->
  exists st,
    foldM (bucket_step (Z.of_nat (length s)) s K) (range K) (0, []) = Ok st /\
    thresholds_ok st /\
    forall mx, nth_error s (length s - 1)%nat = Some mx -> mx <= fst st.
Proof.
  intros Hne HK. rewrite (range_last K HK), foldM_app.
  destruct (foldM_total thresholds_ok
              (bucket_step (Z.of_nat (length s)) s K)
              (range (K - 1))) with (s := (0, @nil Z)) as [st1 [E1 H1]].
  - intros st i Hin Hst. apply range_In in Hin.
    destruct (bucket_step_ok s K i st Hne) as [st' [E [Hok _]]];
      [ lia | assumption | eauto ].
  - repeat split; simpl; [ constructor | constructor | now left ].
  - rewrite E1. cbn [Py.bind foldM].
    destruct (bucket_step_ok s K (K - 1) st1 Hne)
      as [st2 [E2 [Hok Hmax]]]; [ lia | assumption | ].
    rewrite E2. exists st2. split; [ reflexivity | ].
    split; [ assumption | now apply Hmax ].
Qed.

Lemma strictly_ascending_last (l : list Z) (x d : Z) :
  StronglySorted Z.lt l -> In x l -> Forall (fun y => y <= x) l ->
  last l d = x.
Proof.
  induction 1 as [| y t Ht IH Hy]; intros Hin Hall; [ contradiction | ].
  inversion Hall as [| ? ? Hyx Hrest]; subst.
  destruct t as [| z t'].
  - destruct Hin as [-> | []]. reflexivity.
  - change (last (y :: z :: t') d) with (last (z :: t') d).
    apply IH; [ | assumption ].
    destruct Hin as [-> | Hin]; [ | assumption ].
    inversion Hy as [| ? ? Hlt _]; subst.
    inversion Hrest as [| ? ? Hle _]; subst. lia.
Qed.

(** X7: for a non-empty list of lengths and at least one bucket requested,
    [make_bucket_lengths] returns thresholds that are strictly increasing,
    positive, taken from the given lengths, and no more than the number of
    buckets requested; and when some length is positive there is at least
    one threshold and the last one is the largest length. *)
Theorem make_bucket_lengths_thresholds (lengths : list Z) (buckets_number : Z)
    (Hne : lengths <> [])
    (Hnumber : 1 <= buckets_number) :
  exists bucket_lengths,
    make_bucket_lengths lengths buckets_number = Ok bucket_lengths /\
    StronglySorted Z.lt bucket_lengths /\
    Forall (fun L => 0 < L /\ In L lengths) bucket_lengths /\
    (length bucket_lengths <= Z.to_nat buckets_number)%nat /\
    ((exists l, In l lengths /\ 0 < l) ->
     In (last bucket_lengths 0) lengths /\
     Forall (fun l => l <= last bucket_lengths 0) lengths).
Proof.
  pose proof (sorted_perm lengths) as Hperm.
  assert (Hlen : length (sorted lengths) = length lengths)
    by (symmetry; now apply Permutation_length).
  assert (Hne' : sorted lengths <> []).
  { intros E. rewrite E in Hlen. destruct lengths; [ congruence | discriminate ]. }
  destruct (bucket_loop_ok (sorted lengths) buckets_number Hne' Hnumber)
    as [st [E [[Hsorted [Hall Hlast]] Hmax]]].
  destruct (bucket_steps_members _ _ _ _ _ _ E) as [Hmem Hcount];
    [ constructor | ].
  unfold make_bucket_lengths. rewrite <- Hlen, E. cbn [Py.bind].
  exists (snd st). split; [ reflexivity | ]. split; [ assumption | ].
  assert (Hin : forall x, In x (snd st) -> In x lengths).
  { intros x Hx. rewrite Forall_forall in Hmem.
    apply (Permutation_in _ (Permutation_sym Hperm)). now apply Hmem. }
  split; [ | split ].
  - apply Forall_forall. intros L HL. split; [ | now apply Hin ].
    rewrite Forall_forall in Hall. specialize (Hall L HL). simpl in Hall. lia.
  - simpl in Hcount. unfold range in Hcount.
    rewrite length_map, length_seq in Hcount. exact Hcount.
  - intros [l [Hl Hpos]].
    destruct (index_lt (sorted lengths) (length (sorted lengths) - 1)%nat)
      as [mx Hmx].
    { destruct (sorted lengths); simpl; [ congruence | lia ]. }
    apply index_Ok in Hmx.
    pose proof (ascending_last_bound _ mx (sorted_sorted lengths) Hmx) as Hbound.
    apply (Permutation_Forall (Permutation_sym Hperm)) in Hbound.
    specialize (Hmax mx Hmx).
    rewrite Forall_forall in Hbound.
    assert (Hfst : In (fst st) (snd st)).
    { destruct Hlast as [E0 | H]; [ | assumption ].
      specialize (Hbound l Hl). lia. }
    assert (Elast : last (snd st) 0 = fst st).
    { apply strictly_ascending_last; [ assumption | assumption | ].
      eapply Forall_impl; [ | exact Hall ]. intros y Hy. simpl in Hy. lia. }
    rewrite Elast. split; [ now apply Hin | ].
    apply Forall_forall. intros x Hx. specialize (Hbound x Hx). lia.
Qed.

(** *** When there is no threshold *)

Lemma foldM_fixed {A S : Type} (f : S -> A -> result S) (l : list A) (s : S) :
  (forall a, In a l -> f s a = Ok s) -> foldM f l s = Ok s.
Proof.
  induction l as [| a t IH]; intros H; simpl; [ reflexivity | ].
  rewrite (H a) by now left. apply IH. intros b Hb. apply H. now right.
Qed.

Lemma range_nonpositive (K : Z) : K <= 0 -> range K = [].
Proof.
  intros H. unfold range. now replace (Z.to_nat K) with 0%nat by lia.
Qed.

Lemma make_bucket_lengths_nonpositive (lengths : list Z) (K : Z) :
  lengths <> [] -> 1 <= K -> (forall l, In l lengths -> l <= 0) ->
  make_bucket_lengths lengths K = Ok [].
Proof.
  intros Hne HK Hall.
  pose proof (sorted_perm lengths) as Hperm.
  assert (Hlen : length (sorted lengths) = length lengths)
    by (symmetry; now apply Permutation_length).
  assert (Hne' : sorted lengths <> []).
  { intros E. rewrite E in Hlen. destruct lengths; [ congruence | discriminate ]. }
  unfold make_bucket_lengths. rewrite foldM_fixed; [ reflexivity | ].
  intros i Hi. apply range_In in Hi. rewrite <- Hlen.
  set (m := Z.of_nat (length (sorted lengths))).
  assert (Hq : 0 <= m * (i + 1) / K <= m).
  { split; [ apply Z.div_pos; nia | ].
    apply Z.div_le_upper_bound; nia. }
  destruct (index_Z_in_range (sorted lengths) (m * (i + 1) / K - 1) Hne')
    as [v [Ev [Hin _]]]; [ unfold m in *; lia | ].
  unfold bucket_step. rewrite Ev. cbn [Py.bind].
  apply (Permutation_in _ (Permutation_sym Hperm)) in Hin.
  specialize (Hall v Hin).
  destruct (Z.gtb_spec v 0); [ lia | reflexivity ].
Qed.

Lemma make_bucket_lengths_no_items (K : Z) :
  1 <= K -> make_bucket_lengths [] K = Raise IndexError.
Proof.
  intros HK. unfold make_bucket_lengths, range.
  destruct (Z.to_nat K) as [| k] eqn:E; [ lia | ].
  cbn [seq map foldM length Z.of_nat bucket_step].
  replace (0 * (Z.of_nat 0 + 1) / K - 1) with (-1) by (simpl; lia).
  reflexivity.
Qed.

(** X8: when no threshold can be formed, because no bucket is requested or
    because no length is positive, [collect_buckets] raises [IndexError] as
    soon as there is an item to place; with no item at all it returns no
    bucket when no bucket is requested and raises [IndexError] otherwise,
    whatever the maximal bucket size. *)
Theorem collect_buckets_without_thresholds (lengths : list Z)
    (buckets_number max_bucket_size : Z)
    (Hnone : buckets_number <= 0 \/ forall l, In l lengths -> l <= 0) :
  collect_buckets lengths buckets_number max_bucket_size
  = match lengths with
    | [] => if buckets_number <=? 0 then Ok [] else Raise IndexError
    | _ :: _ => Raise IndexError
    end.
Proof.
  destruct lengths as [| x t].
  - destruct (Z.leb_spec buckets_number 0) as [HK | HK].
    + unfold collect_buckets, make_bucket_lengths.
      rewrite (range_nonpositive _ HK). cbn.
      destruct (max_bucket_size =? -1); reflexivity.
    + unfold collect_buckets.
      rewrite make_bucket_lengths_no_items by lia. reflexivity.
  - assert (E : make_bucket_lengths (x :: t) buckets_number = Ok []).
    { destruct (Z.leb_spec buckets_number 0) as [HK | HK].
      - unfold make_bucket_lengths. now rewrite (range_nonpositive _ HK).
      - destruct Hnone as [HK' | Hall]; [ lia | ].
        apply make_bucket_lengths_nonpositive; [ discriminate | lia | exact Hall ]. }
    unfold collect_buckets. rewrite E. reflexivity.
Qed.

(** *** The buckets, item by item *)

Lemma collect_buckets_form (lengths : list Z) (K size : Z) :
  (exists l, In l lengths /\ 0 < l) -> 1 <= K -> size = -1 \/ 0 < size ->
  exists bl indexes,
    make_bucket_lengths lengths K = Ok bl /\
    StronglySorted Z.lt bl /\
    Forall (fun x => exists L, In L bl /\ x <= L) lengths /\
    foldM (assign_step bl) (enumerate lengths) (map (fun _ => @nil nat) bl)
    = Ok indexes /\
    assigned lengths bl (length lengths) indexes /\
    collect_buckets lengths K size
    = Ok (if size =? -1 then filter nonempty (combine bl indexes)
          else flat_map (split_bucket size) (combine bl indexes)).
Proof.
  intros Hpos HK Hsize.
  assert (Hne : lengths <> []).
  { destruct Hpos as [l [Hl _]]. intros E. subst. contradiction. }
  destruct (make_bucket_lengths_ok lengths K Hne HK) as [bl [Ebl [Hsorted Hcover]]].
  specialize (Hcover Hpos).
  destruct (assign_loop lengths bl Hsorted lengths 0%nat
              (map (fun _ => @nil nat) bl))
    as [indexes [Eidx Hassigned]];
    [ reflexivity | exact Hcover | apply no_items_assigned | ].
  cbn [Nat.add] in Hassigned.
  exists bl, indexes.
  split; [ exact Ebl | ]. split; [ exact Hsorted | ].
  split; [ exact Hcover | ]. split; [ exact Eidx | ].
  split; [ exact Hassigned | ].
  unfold collect_buckets. rewrite Ebl. cbn [Py.bind].
  unfold enumerate in Eidx. unfold enumerate. rewrite Eidx. cbn [Py.bind].
  destruct (Z.eqb_spec size (-1)) as [E | E]; cbn [negb]; [ reflexivity | ].
  destruct Hsize as [Hsize | Hsize]; [ contradiction | ].
  destruct Hassigned as [_ Hall].
  exact (split_result lengths bl indexes size Hsize Hall).
Qed.

Lemma ascending_positions_snoc (curr : list nat) (i : nat) :
  StronglySorted Nat.lt curr -> Forall (fun j => (j < i)%nat) curr ->
  StronglySorted Nat.lt (curr ++ [i]).
Proof.
  induction 1 as [| y t Ht IH Hy]; intros Hall; simpl.
  - constructor; constructor.
  - inversion Hall as [| ? ? Hyi Hrest]; subst.
    constructor; [ now apply IH | ].
    apply Forall_app. split; [ assumption | ]. now repeat constructor.
Qed.

Lemma assign_step_placed (lengths bl : list Z) (start : nat) (x : Z)
    (indexes indexes' : list (list nat)) :
  StronglySorted Z.lt bl ->
  (exists L, In L bl /\ x <= L) ->
  nth start lengths 0 = x ->
  placed lengths bl start indexes ->
  assign_step bl indexes (start, x) = Ok indexes' ->
  placed lengths bl (S start) indexes'.
Proof.
  intros Hsorted Hcover Hx Hplaced H.
  unfold assign_step, append_at in H. bind_ok H curr Ecurr.
  apply index_Ok in Ecurr.
  destruct (bisect_left_spec bl x Hsorted Hcover) as [Hb [Hle Hbelow]].
  unfold placed. eapply Forall2_set_index; [ | exact H | ].
  - eapply Forall2_impl; [ | exact Hplaced ].
    intros L c [Hs Hall]. split; [ assumption | ].
    eapply Forall_impl; [ | exact Hall ].
    intros i [Hi Ht]. split; [ lia | assumption ].
  - intros L HL.
    destruct (Forall2_nth_error _ _ _ _ _ _ Hplaced HL Ecurr) as [Hs Hall].
    split.
    + apply ascending_positions_snoc; [ assumption | ].
      eapply Forall_impl; [ | exact Hall ]. now intros i [Hi _].
    + apply Forall_app. split.
      * eapply Forall_impl; [ | exact Hall ].
        intros i [Hi Ht]. split; [ lia | assumption ].
      * constructor; [ | constructor ]. split; [ lia | ].
        intros L' HL' Hfit. rewrite Hx in Hfit.
        assert (EL : nth (bisect_left bl x) bl 0 = L)
          by now apply nth_error_nth.
        destruct (In_nth bl L' 0 HL') as [j [Hj Ej]].
        destruct (le_lt_dec (bisect_left bl x) j) as [Hbj | Hjb].
        -- rewrite <- EL, <- Ej. apply strictly_ascending_nth; [ assumption | lia ].
        -- specialize (Hbelow j Hjb). lia.
Qed.

Lemma assign_loop_placed (lengths bl : list Z) :
  StronglySorted Z.lt bl ->
  forall rest start indexes indexes',
    (forall j, (j < length rest)%nat ->
               nth (start + j) lengths 0 = nth j rest 0) ->
    Forall (fun x => exists L, In L bl /\ x <= L) rest ->
    placed lengths bl start indexes ->
    foldM (assign_step bl) (combine (seq start (length rest)) rest) indexes
    = Ok indexes' ->
    placed lengths bl (start + length rest) indexes'.
Proof.
  intros Hsorted.
  induction rest as [| x t IH]; intros start indexes indexes' Halign Hcover
    Hplaced H.
  - simpl in H. inversion H; subst. now rewrite Nat.add_0_r.
  - cbn [length seq combine foldM] in H.
    destruct (assign_step bl indexes (start, x)) as [indexes1 |] eqn:E;
      [ | discriminate ].
    inversion Hcover as [| ? ? Hx Ht]; subst.
    replace (start + length (x :: t))%nat with (S start + length t)%nat
      by (simpl; lia).
    apply (IH (S start) indexes1); [ | assumption | | assumption ].
    + intros j Hj. replace (S start + j)%nat with (start + S j)%nat by lia.
      apply (Halign (S j)). simpl. lia.
    + apply (assign_step_placed lengths bl start x indexes); try assumption.
      replace start with (start + 0)%nat at 1 by lia.
      apply (Halign 0%nat). simpl. lia.
Qed.

Lemma no_items_placed (lengths bl : list Z) :
  placed lengths bl 0 (map (fun _ => @nil nat) bl).
Proof.
  unfold placed. generalize bl at 1 as all.
  induction bl as [| L t IH]; intros all; simpl; constructor.
  - split; constructor.
  - apply IH.
Qed.

Lemma ascending_firstn {T : Type} (R : T -> T -> Prop) (n : nat) (l : list T) :
  StronglySorted R l -> StronglySorted R (firstn n l).
Proof.
  intros H. revert n. induction H as [| x t Ht IH Hx]; intros [| n]; simpl;
    try constructor.
  - apply IH.
  - rewrite Forall_forall in *. intros y Hy. apply Hx.
    rewrite <- (firstn_skipn n t). apply in_or_app. now left.
Qed.

Lemma ascending_skipn {T : Type} (R : T -> T -> Prop) (n : nat) (l : list T) :
  StronglySorted R l -> StronglySorted R (skipn n l).
Proof.
  intros H. revert n. induction H as [| x t Ht IH Hx]; intros [| n]; simpl.
  - constructor.
  - constructor.
  - now constructor.
  - apply IH.
Qed.

Lemma in_split_bucket (size : Z) (ps : list (Z * list nat)) (b : Z * list nat) :
  In b (flat_map (split_bucket size) ps) ->
  exists p a c, In p ps /\ fst b = fst p /\ snd b = slice a c (snd p).
Proof.
  intros H. apply in_flat_map in H. destruct H as [p [Hp Hb]].
  unfold split_bucket, chunks in Hb. apply in_map_iff in Hb.
  destruct Hb as [piece [<- Hpiece]]. apply in_map_iff in Hpiece.
  destruct Hpiece as [k [<- _]]. simpl. eauto 6.
Qed.

(** X10: for lengths of which at least one is positive, at least one bucket
    requested, and no maximal bucket size or a positive one, every bucket
    [collect_buckets] returns carries a threshold computed by
    [make_bucket_lengths], lists its positions in increasing order, and
    holds only items for which its threshold is the least threshold that is
    not below the item's length: the length of the item is at most the
    threshold, and every threshold that is not below the length of the item
    is at least the threshold of the bucket. *)
Theorem collect_buckets_least_threshold (lengths : list Z)
    (buckets_number max_bucket_size : Z)
    (Hpos : exists l, In l lengths /\ 0 < l)
    (Hnumber : 1 <= buckets_number)
    (Hsize : max_bucket_size = -1 \/ 0 < max_bucket_size) :
  exists bucket_lengths buckets,
    make_bucket_lengths lengths buckets_number = Ok bucket_lengths /\
    collect_buckets lengths buckets_number max_bucket_size = Ok buckets /\
    Forall (fun b =>
              In (fst b) bucket_lengths /\
              StronglySorted Nat.lt (snd b) /\
              Forall (fun i =>
                        nth i lengths 0 <= fst b /\
                        forall L', In L' bucket_lengths ->
                                   nth i lengths 0 <= L' -> fst b <= L')
                     (snd b))
           buckets.
Proof.
  destruct (collect_buckets_form lengths buckets_number max_bucket_size
              Hpos Hnumber Hsize)
    as [bl [indexes [Ebl [Hsorted [Hcover [Eidx [Hassigned Ecollect]]]]]]].
  pose proof (assign_loop_placed lengths bl Hsorted lengths 0%nat _ indexes
                (fun j _ => eq_refl) Hcover (no_items_placed lengths bl) Eidx)
    as Hplaced.
  destruct (Forall2_combine _ _ _ Hplaced) as [Hpairs _].
  destruct Hassigned as [_ Hunder].
  destruct (Forall2_combine _ _ _ Hunder) as [Hbelow _].
  rewrite Forall_forall in Hpairs, Hbelow.
  assert (Hpair : forall p, In p (combine bl indexes) ->
            In (fst p) bl /\ StronglySorted Nat.lt (snd p) /\
            Forall (fun i => nth i lengths 0 <= fst p /\
                             forall L', In L' bl ->
                                        nth i lengths 0 <= L' -> fst p <= L')
                   (snd p)).
  { intros p Hp. destruct (Hpairs p Hp) as [Hs Hall].
    specialize (Hbelow p Hp). cbn beta in Hbelow.
    split; [ destruct p; now apply in_combine_l in Hp | ].
    split; [ assumption | ].
    rewrite Forall_forall in *. intros i Hi.
    split; [ now apply Hbelow | ]. now apply (Hall i Hi). }
  exists bl. eexists. split; [ exact Ebl | ]. split; [ exact Ecollect | ].
  apply Forall_forall. intros b Hb.
  destruct (max_bucket_size =? -1).
  - apply filter_In in Hb. destruct Hb as [Hb _]. now apply Hpair.
  - apply in_split_bucket in Hb.
    destruct Hb as [p [a [c [Hp [Efst Esnd]]]]].
    destruct (Hpair p Hp) as [Hin [Hs Hall]].
    rewrite Efst, Esnd. split; [ assumption | ]. split.
    + unfold slice. now apply ascending_skipn, ascending_firstn.
    + rewrite Forall_forall in *. intros i Hi. apply Hall.
      now apply (slice_incl a c).
Qed.

(** *** The size of the buckets *)

Lemma adjacent_app {T : Type} (R : T -> T -> Prop) (l1 l2 : list T) :
  adjacent R l1 -> adjacent R l2 ->
  (forall a b, In a l1 -> In b l2 -> R a b) ->
  adjacent R (l1 ++ l2).
Proof.
  intros H1 H2 Hcross. induction l1 as [| a t IH]; [ exact H2 | ].
  destruct t as [| b t'].
  - simpl. destruct l2 as [| c l2']; [ exact I | ].
    split; [ apply Hcross; now left | exact H2 ].
  - destruct H1 as [Hab Hrest].
    change (adjacent R (a :: (b :: t') ++ l2)).
    change (R a b /\ adjacent R ((b :: t') ++ l2)).
    split; [ exact Hab | ].
    apply IH; [ exact Hrest | ].
    intros x y Hx Hy. apply Hcross; [ now right | assumption ].
Qed.

Lemma adjacent_map_seq {T : Type} (R : T -> T -> Prop) (g : nat -> T)
    (n : nat) :
  forall a,
    (forall k, (a <= k)%nat -> (k + 1 < a + n)%nat -> R (g k) (g (S k))) ->
    adjacent R (map g (seq a n)).
Proof.
  induction n as [| n IH]; intros a H; [ exact I | ].
  destruct n as [| n']; [ exact I | ].
  change (R (g a) (g (S a)) /\ adjacent R (map g (seq (S a) (S n')))).
  split; [ apply H; lia | ].
  apply IH. intros k Hk1 Hk2. apply H; lia.
Qed.

Lemma length_slice {T : Type} (a b : nat) (l : list T) :
  length (slice a b l) = (Nat.min b (length l) - a)%nat.
Proof. unfold slice. now rewrite length_skipn, length_firstn. Qed.

(** X9: with a positive maximal bucket size, for lengths of which at least
    one is positive and at least one bucket requested, every bucket
    [collect_buckets] returns holds between one and [max_bucket_size] items,
    and a bucket that is followed by a bucket of the same threshold is
    full. *)
Theorem collect_buckets_size_bound (lengths : list Z)
    (buckets_number max_bucket_size : Z)
    (Hpos : exists l, In l lengths /\ 0 < l)
    (Hnumber : 1 <= buckets_number)
    (Hsize : 0 < max_bucket_size) :
  exists buckets,
    collect_buckets lengths buckets_number max_bucket_size = Ok buckets /\
    Forall (fun b => (1 <= length (snd b) <= Z.to_nat max_bucket_size)%nat)
           buckets /\
    adjacent (fun b next => fst b = fst next ->
                            length (snd b) = Z.to_nat max_bucket_size)
             buckets.
Proof.
  destruct (collect_buckets_form lengths buckets_number max_bucket_size
              Hpos Hnumber (or_intror Hsize))
    as [bl [indexes [_ [Hsorted [_ [_ [[_ Hall] Ecollect]]]]]]].
  destruct (Z.eqb_spec max_bucket_size (-1)) as [E | _]; [ lia | ].
  eexists. split; [ exact Ecollect | ].
  destruct (Forall2_combine _ _ _ Hall) as [_ [Hfst _]].
  split.
  - apply Forall_forall. intros b Hb.
    apply in_flat_map in Hb. destruct Hb as [p [_ Hb]].
    unfold split_bucket in Hb. apply in_map_iff in Hb.
    destruct Hb as [piece [<- Hpiece]]. simpl.
    pose proof (chunks_pieces max_bucket_size (snd p) Hsize) as Hpieces.
    rewrite Forall_forall in Hpieces.
    destruct (Hpieces piece Hpiece) as [Hne _].
    split; [ destruct piece; [ congruence | simpl; lia ] | ].
    unfold chunks in Hpiece. apply in_map_iff in Hpiece.
    destruct Hpiece as [k [<- _]]. rewrite length_slice. lia.
  - rewrite <- Hfst in Hsorted. clear Hfst Hall Ecollect.
    induction (combine bl indexes) as [| p ps IH]; [ exact I | ].
    simpl in Hsorted. inversion Hsorted as [| ? ? Hrest Hlt]; subst.
    cbn [flat_map]. apply adjacent_app.
    + unfold split_bucket, chunks. rewrite map_map.
      apply adjacent_map_seq. intros k _ Hk _. cbn [snd].
      rewrite length_slice.
      assert (Hlen : (1 <= length (snd p))%nat).
      { destruct (snd p); simpl; [ | lia ].
        rewrite chunk_count_zero in Hk by assumption. lia. }
      destruct (chunk_count_bounds (length (snd p)) max_bucket_size Hsize Hlen)
        as [_ [Hup _]].
      nia.
    + now apply IH.
    + intros a b Ha Hb Eab. exfalso.
      unfold split_bucket in Ha. apply in_map_iff in Ha.
      destruct Ha as [piece [<- _]]. simpl in Eab.
      assert (Hin : In (fst b) (map fst (flat_map (split_bucket max_bucket_size) ps)))
        by now apply in_map.
      apply split_fst_In in Hin. rewrite Forall_forall in Hlt.
      specialize (Hlt _ Hin). lia.
Qed.

End BucketingMore.

Lemma make_bucket_lengths_thresholds_witness :
  [5; 3; 4; 1; 2; 9]%Z <> [] /\ (1 <= 3)%Z /\
  exists bucket_lengths,
    Bucketing.make_bucket_lengths [5; 3; 4; 1; 2; 9]%Z 3 = Ok bucket_lengths /\
    StronglySorted Z.lt bucket_lengths /\
    Forall (fun L => (0 < L)%Z /\ In L [5; 3; 4; 1; 2; 9]%Z) bucket_lengths /\
    length bucket_lengths <= Z.to_nat 3 /\
    ((exists l, In l [5; 3; 4; 1; 2; 9]%Z /\ (0 < l)%Z) ->
     In (last bucket_lengths 0%Z) [5; 3; 4; 1; 2; 9]%Z /\
     Forall (fun l => (l <= last bucket_lengths 0)%Z) [5; 3; 4; 1; 2; 9]%Z).
Proof.
  assert (Hne : [5; 3; 4; 1; 2; 9]%Z <> []) by discriminate.
  assert (Hnumber : (1 <= 3)%Z) by lia.
  repeat (split; [ assumption | ]).
  exact (make_bucket_lengths_thresholds [5; 3; 4; 1; 2; 9]%Z 3 Hne Hnumber).
Defined.

Lemma collect_buckets_without_thresholds_witness :
  ((2 <= 0)%Z \/ forall l, In l [0; 0]%Z -> (l <= 0)%Z) /\
  Bucketing.collect_buckets [0; 0]%Z 2 (-1) = Raise IndexError.
Proof.
  assert (Hnone : (2 <= 0)%Z \/ forall l, In l [0; 0]%Z -> (l <= 0)%Z).
  { right. intros l [<- | [<- | []]]; lia. }
  split; [ exact Hnone | ].
  exact (collect_buckets_without_thresholds [0; 0]%Z 2 (-1) Hnone).
Defined.

Lemma collect_buckets_least_threshold_witness :
  (exists l, In l [5; 3; 4; 1; 2; 9]%Z /\ (0 < l)%Z) /\
  (1 <= 3)%Z /\
  (2 = -1 \/ 0 < 2)%Z /\
  exists bucket_lengths buckets,
    Bucketing.make_bucket_lengths [5; 3; 4; 1; 2; 9]%Z 3 = Ok bucket_lengths /\
    Bucketing.collect_buckets [5; 3; 4; 1; 2; 9]%Z 3 2 = Ok buckets /\
    Forall (fun b =>
              In (fst b) bucket_lengths /\
              StronglySorted Nat.lt (snd b) /\
              Forall (fun i =>
                        (nth i [5; 3; 4; 1; 2; 9] 0 <= fst b)%Z /\
                        forall L', In L' bucket_lengths ->
                                   (nth i [5; 3; 4; 1; 2; 9] 0 <= L')%Z ->
                                   (fst b <= L')%Z)
                     (snd b))
           buckets.
Proof.
  assert (Hpos : exists l, In l [5; 3; 4; 1; 2; 9]%Z /\ (0 < l)%Z)
    by (exists 5%Z; split; [ now left | lia ]).
  assert (Hnumber : (1 <= 3)%Z) by lia.
  assert (Hsize : (2 = -1 \/ 0 < 2)%Z) by (right; lia).
  repeat (split; [ assumption | ]).
  exact (collect_buckets_least_threshold [5; 3; 4; 1; 2; 9]%Z 3 2
           Hpos Hnumber Hsize).
Defined.

Lemma collect_buckets_size_bound_witness :
  (exists l, In l [1; 1; 1; 4; 1]%Z /\ (0 < l)%Z) /\
  (1 <= 2)%Z /\
  (0 < 2)%Z /\
  exists buckets,
    Bucketing.collect_buckets [1; 1; 1; 4; 1]%Z 2 2 = Ok buckets /\
    Forall (fun b => 1 <= length (snd b) <= Z.to_nat 2) buckets /\
    adjacent (fun b next => fst b = fst next ->
                            length (snd b) = Z.to_nat 2)
             buckets.
Proof.
  assert (Hpos : exists l, In l [1; 1; 1; 4; 1]%Z /\ (0 < l)%Z)
    by (exists 1%Z; split; [ now left | lia ]).
  assert (Hnumber : (1 <= 2)%Z) by lia.
  assert (Hsize : (0 < 2)%Z) by lia.
  repeat (split; [ assumption | ]).
  exact (collect_buckets_size_bound [1; 1; 1; 4; 1]%Z 2 2
           Hpos Hnumber Hsize).
Defined.

(** ** More on labels to morphemes *)

Section MorphemesMore.

Import Morphemes.

Variable prob : Type.
Variable one : prob.
Variable mul : prob -> prob -> prob.
Variable use_morpheme_types : bool.
Variable target_symbol_codes_ : string -> option nat.

Local Abbreviation convert :=
  (labels_to_morphemes prob one mul use_morpheme_types target_symbol_codes_).
Local Abbreviation is_end :=
  (fun label => mem label (end_labels use_morpheme_types)).
Local Abbreviation span_step := (Morphemes.span_step use_morpheme_types).
Local Abbreviation prob_step :=
  (Morphemes.prob_step prob one mul use_morpheme_types target_symbol_codes_).

Lemma chars_nonempty (word : string) :
  Forall (fun letter => letter <> "") (chars word).
Proof.
  induction word as [| c r IH]; simpl; constructor; [ discriminate | exact IH ].
Qed.

Lemma append_nonempty (a b : string) : b <> "" -> String.append a b <> "".
Proof.
  intros Hb. destruct a; simpl; [ assumption | discriminate ].
Qed.

Lemma span_lists (letters : list string) :
  Forall (fun letter => letter <> "") letters ->
  forall labels morphemes curr types,
    Forall (fun m => m <> "") morphemes ->
    let r := fold_left span_step (combine letters labels)
                       (morphemes, curr, types) in
    snd r = types ++ map label_type
                         (filter is_end (firstn (length letters) labels)) /\
    length (fst (fst r))
    = length morphemes
      + length (filter is_end (firstn (length letters) labels)) /\
    Forall (fun m => m <> "") (fst (fst r)).
Proof.
  induction 1 as [| letter rest Hletter Hrest IH];
    intros labels morphemes curr types Hms.
  - simpl. rewrite app_nil_r. split; [ reflexivity | ].
    split; [ lia | assumption ].
  - destruct labels as [| label labels'].
    + simpl. rewrite app_nil_r. split; [ reflexivity | ].
      split; [ lia | assumption ].
    + cbn [combine fold_left length firstn filter Morphemes.span_step].
      destruct (mem label (end_labels use_morpheme_types)).
      * destruct (IH labels' (morphemes ++ [String.append curr letter]) ""
                    (types ++ [label_type label])) as [Ht [Hl Hne]].
        { apply Forall_app. split; [ assumption | ].
          constructor; [ now apply append_nonempty | constructor ]. }
        cbn zeta in Ht, Hl, Hne.
        split; [ rewrite Ht, <- app_assoc; reflexivity | ].
        split; [ | assumption ].
        rewrite Hl, length_app. simpl. lia.
      * apply IH. assumption.
Qed.

Lemma prob_steps_length (labels : list string) :
  forall (probs : list (list prob)) st st',
    foldM prob_step (combine labels probs) st = Ok st' ->
    length (fst st')
    = length (fst st) + length (filter is_end (firstn (length probs) labels)).
Proof.
  induction labels as [| label rest IH]; intros probs st st' H.
  - simpl in H. inversion H; subst. rewrite firstn_nil. simpl. lia.
  - destruct probs as [| row probs'].
    + simpl in H. inversion H; subst. simpl. lia.
    + cbn [combine foldM] in H.
      destruct (prob_step st (label, row)) as [st1 |] eqn:E; [ | discriminate ].
      apply IH in H. rewrite H. clear H.
      destruct st as [ps curr]. unfold Morphemes.prob_step in E.
      bind_ok E code Ec. bind_ok E p Ep.
      cbn [length firstn filter].
      destruct (mem label (end_labels use_morpheme_types));
        inversion E; subst st1; simpl; [ | lia ].
      rewrite length_app. simpl. lia.
Qed.

(** X11: when probabilities and types are asked for and the conversion
    succeeds, the answer holds the morphemes, their probabilities and their
    types, in this order; the types are those of the end labels met along the
    word, there is one morpheme per type, no morpheme is empty, and there is
    one probability per end label met along the rows of [probs]; so for a
    word with as many letters as rows the three lists have one length. *)
Theorem labels_to_morphemes_lists (word : string) (labels : list string)
    (probs : list (list prob)) (answer : list (item prob))
    (Hanswer : convert word labels (Some probs) true true = Ok answer) :
  exists morphemes morpheme_probs morpheme_types,
    answer = [MorphemeList prob morphemes; ProbList prob morpheme_probs;
              TypeList prob morpheme_types] /\
    morpheme_types
    = map label_type (filter is_end (firstn (String.length word) labels)) /\
    length morphemes = length morpheme_types /\
    Forall (fun m => m <> "") morphemes /\
    length morpheme_probs
    = length (filter is_end (firstn (length probs) labels)) /\
    (String.length word = length probs ->
     length morpheme_probs = length morphemes).
Proof.
  unfold labels_to_morphemes in Hanswer.
  destruct (span_lists (chars word) (chars_nonempty word) labels [] "" []
              (Forall_nil _)) as [Ht [Hl Hne]].
  cbn zeta in Ht, Hl, Hne. rewrite length_chars in Ht, Hl.
  destruct (fold_left span_step (combine (chars word) labels) ([], "", []))
    as [[morphemes curr] types].
  cbn [fst snd app length Nat.add] in Ht, Hl, Hne.
  bind_ok Hanswer a Ea. bind_ok Ea st Est. inversion Ea; subst a. clear Ea.
  inversion Hanswer; subst answer. clear Hanswer.
  apply prob_steps_length in Est. cbn [fst length Nat.add] in Est.
  exists morphemes, (fst st), types.
  split; [ reflexivity | ]. split; [ exact Ht | ].
  split; [ rewrite Hl, Ht; now rewrite length_map | ].
  split; [ exact Hne | ]. split; [ exact Est | ].
  intros Hrows. rewrite Est, Hl, Hrows. reflexivity.
Qed.

Lemma prob_steps_defined (l : list (string * list prob)) :
  forall st,
    (exists st', foldM prob_step l st = Ok st') <->
    Forall (fun lp => exists c, target_symbol_codes_ (fst lp) = Some c /\
                                c < length (snd lp)) l.
Proof.
  induction l as [| [label row] rest IH]; intros st.
  - split; [ constructor | simpl; eauto ].
  - cbn [foldM]. destruct st as [ps curr]. split.
    + intros [st' H].
      destruct (prob_step (ps, curr) (label, row)) as [st1 |] eqn:E;
        [ | discriminate ].
      constructor; [ | apply (IH st1); eauto ].
      unfold Morphemes.prob_step in E.
      destruct (target_symbol_codes_ label) as [c |] eqn:Ec; [ | discriminate ].
      cbn [Py.bind] in E. bind_ok E p Ep. apply index_Ok_lt in Ep.
      exists c. split; [ exact Ec | exact Ep ].
    + intros H. inversion H as [| ? ? [c [Hc Hlt]] Hrest]; subst.
      simpl in Hc, Hlt. unfold Morphemes.prob_step. rewrite Hc.
      cbn [Py.bind]. destruct (index_lt row c Hlt) as [p Ep].
      rewrite Ep. cbn [Py.bind].
      destruct (mem label (end_labels use_morpheme_types)); now apply IH.
Qed.

(** X12: with probabilities asked for and given, the conversion returns an
    answer exactly when every label that has a row of [probs] beside it is
    a key of [target_symbol_codes_] whose code is a column of that row;
    otherwise it raises.  Extra labels or extra rows are ignored. *)
Theorem labels_to_morphemes_probs_defined (word : string)
    (labels : list string) (probs : list (list prob)) (return_types : bool) :
  (exists answer,
      convert word labels (Some probs) true return_types = Ok answer) <->
  Forall (fun lp => exists c, target_symbol_codes_ (fst lp) = Some c /\
                              c < length (snd lp))
         (combine labels probs).
Proof.
  rewrite <- (prob_steps_defined (combine labels probs) ([], one)).
  unfold labels_to_morphemes.
  destruct (fold_left span_step (combine (chars word) labels) ([], "", []))
    as [[morphemes curr] types].
  split.
  - intros [answer H]. bind_ok H a Ea. bind_ok Ea st Est. eauto.
  - intros [st Est]. rewrite Est. cbn [Py.bind].
    destruct return_types; eauto.
Qed.

End MorphemesMore.

Lemma labels_to_morphemes_lists_witness :
  Morphemes.labels_to_morphemes nat 1 Nat.mul true
    (fun label => if String.eqb label "B-ROOT" then Some 0 else Some 1)
    "abc" ["B-ROOT"; "E-ROOT"; "S-SUFF"] (Some [[2; 3]; [4; 5]; [6; 7]])
    true true
  = Ok [Morphemes.MorphemeList nat ["ab"; "c"];
        Morphemes.ProbList nat [10; 7];
        Morphemes.TypeList nat ["ROOT"; "SUFF"]] /\
  exists morphemes morpheme_probs morpheme_types,
    [Morphemes.MorphemeList nat ["ab"; "c"];
     Morphemes.ProbList nat [10; 7];
     Morphemes.TypeList nat ["ROOT"; "SUFF"]]
    = [Morphemes.MorphemeList nat morphemes;
       Morphemes.ProbList nat morpheme_probs;
       Morphemes.TypeList nat morpheme_types] /\
    morpheme_types
    = map Morphemes.label_type
          (filter (fun label => mem label (Morphemes.end_labels true))
                  (firstn (String.length "abc")
                          ["B-ROOT"; "E-ROOT"; "S-SUFF"])) /\
    length morphemes = length morpheme_types /\
    Forall (fun m => m <> "") morphemes /\
    length morpheme_probs
    = length (filter (fun label => mem label (Morphemes.end_labels true))
                     (firstn (length [[2; 3]; [4; 5]; [6; 7]])
                             ["B-ROOT"; "E-ROOT"; "S-SUFF"])) /\
    (String.length "abc" = length [[2; 3]; [4; 5]; [6; 7]] ->
     length morpheme_probs = length morphemes).
Proof.
  assert (Hanswer :
            Morphemes.labels_to_morphemes nat 1 Nat.mul true
              (fun label => if String.eqb label "B-ROOT" then Some 0 else Some 1)
              "abc" ["B-ROOT"; "E-ROOT"; "S-SUFF"]
              (Some [[2; 3]; [4; 5]; [6; 7]]) true true
            = Ok [Morphemes.MorphemeList nat ["ab"; "c"];
                  Morphemes.ProbList nat [10; 7];
                  Morphemes.TypeList nat ["ROOT"; "SUFF"]])
    by reflexivity.
  split; [ exact Hanswer | ].
  exact (labels_to_morphemes_lists nat 1 Nat.mul true _
           "abc" ["B-ROOT"; "E-ROOT"; "S-SUFF"] [[2; 3]; [4; 5]; [6; 7]] _
           Hanswer).
Defined.

(** ** More on the flat-mode context features *)

Section ContextMore.

Import Context.

Variable find_substrings : string -> list (list nat * nat).
Variable to_memorize_ngram_counts : bool.
Variable morpheme_counts_ : string -> option (string -> option Q).

Local Abbreviation get_score :=
  (_get_ngram_score to_memorize_ngram_counts morpheme_counts_).
Local Abbreviation write_match :=
  (Context.write_match to_memorize_ngram_counts morpheme_counts_).
Local Abbreviation word_features :=
  (Context.word_features find_substrings to_memorize_ngram_counts
     morpheme_counts_).

(** *** Cells of an array of three columns *)

Lemma set_index_Forall {T : Type} (P : T -> Prop) (l l' : list T) (i : nat)
    (v : T) :
  Forall P l -> P v -> set_index l i v = Ok l' -> Forall P l'.
Proof.
  intros Hl Hv H. apply Forall_forall. intros x Hx.
  apply In_nth_error in Hx. destruct Hx as [j Hj].
  rewrite (set_index_nth_error _ _ _ j _ H) in Hj.
  destruct (Nat.eqb j i); [ now inversion Hj; subst | ].
  apply nth_error_In in Hj. rewrite Forall_forall in Hl. now apply Hl.
Qed.

Lemma get2_Forall (P : Z -> Prop) (a : list (list Z)) (i k : nat) (v : Z) :
  Forall (fun row => length row = 3 /\ Forall P row) a ->
  get2 a i k = Ok v -> P v.
Proof.
  intros Ha H. unfold get2 in H. bind_ok H row Er.
  apply index_Ok in Er, H. apply nth_error_In in Er, H.
  rewrite Forall_forall in Ha. destruct (Ha row Er) as [_ Hrow].
  rewrite Forall_forall in Hrow. now apply Hrow.
Qed.

Lemma set2_Forall (P : Z -> Prop) (a a' : list (list Z)) (i k : nat) (v : Z) :
  Forall (fun row => length row = 3 /\ Forall P row) a -> P v ->
  set2 a i k v = Ok a' ->
  length a' = length a /\
  Forall (fun row => length row = 3 /\ Forall P row) a'.
Proof.
  intros Ha Hv H. unfold set2 in H. bind_ok H row Er. bind_ok H cell Ec.
  destruct (int64 v); [ | discriminate ]. bind_ok H row' Er'.
  split; [ now apply set_index_length in H | ].
  apply (set_index_Forall _ a a' i row'); [ assumption | | assumption ].
  apply index_Ok, nth_error_In in Er. rewrite Forall_forall in Ha.
  destruct (Ha row Er) as [Hlen Hrow]. split.
  - now rewrite (set_index_length _ _ _ _ Er').
  - now apply (set_index_Forall _ row row' k v).
Qed.

Lemma get2_defined (P : Z -> Prop) (a : list (list Z)) (i k : nat) :
  Forall (fun row => length row = 3 /\ Forall P row) a ->
  i < length a -> k < 3 -> exists v, get2 a i k = Ok v.
Proof.
  intros Ha Hi Hk. unfold get2. destruct (index_lt a i Hi) as [row Er].
  rewrite Er. cbn [Py.bind]. apply index_lt.
  apply index_Ok, nth_error_In in Er. rewrite Forall_forall in Ha.
  destruct (Ha row Er) as [Hlen _]. lia.
Qed.

Lemma set2_defined (P : Z -> Prop) (a : list (list Z)) (i k : nat) (v : Z) :
  Forall (fun row => length row = 3 /\ Forall P row) a ->
  i < length a -> k < 3 -> int64 v = true ->
  exists a', set2 a i k v = Ok a'.
Proof.
  intros Ha Hi Hk Hv. unfold set2. destruct (index_lt a i Hi) as [row Er].
  rewrite Er. cbn [Py.bind].
  apply index_Ok, nth_error_In in Er. rewrite Forall_forall in Ha.
  destruct (Ha row Er) as [Hlen _].
  destruct (index_lt row k) as [cell Ec]; [ lia | ].
  rewrite Ec, Hv. cbn [Py.bind].
  destruct (set_index_lt row k v) as [row' Er']; [ lia | ].
  rewrite Er'. cbn [Py.bind]. now apply set_index_lt.
Qed.

Lemma zeros_cells (P : Z -> Prop) (n : nat) :
  P 0%Z -> Forall (fun row => length row = 3 /\ Forall P row)
                  (repeat (repeat 0%Z 3) n).
Proof.
  intros H0. apply Forall_forall. intros row Hrow.
  apply repeat_spec in Hrow. subst row. split; [ reflexivity | ].
  now repeat constructor.
Qed.

(** *** Shape and values *)

(** X13: the features [_make_morpheme_data_simple] builds for one word are
    [bucket_length] rows of three cells, and every cell is zero or the
    integer part of the score of a segment of the word that
    [find_substrings] reported. *)
Theorem word_features_cells (bucket_length : nat) (word : string)
    (rows : list (list Z))
    (Hrows : word_features bucket_length word = Ok rows) :
  length rows = bucket_length /\
  Forall (fun row =>
            length row = 3 /\
            Forall (fun v =>
                      v = 0%Z \/
                      exists starts end_ start score,
                        In (starts, end_) (find_substrings word) /\
                        In start starts /\
                        get_score (segment word start end_) "None" = Ok score /\
                        v = to_int score)
                   row)
         rows.
Proof.
  set (P := fun v : Z =>
              v = 0%Z \/
              exists starts end_ start score,
                In (starts, end_) (find_substrings word) /\
                In start starts /\
                get_score (segment word start end_) "None" = Ok score /\
                v = to_int score).
  set (Inv := fun a : list (list Z) =>
                length a = bucket_length /\
                Forall (fun row => length row = 3 /\ Forall P row) a).
  change (Inv rows). unfold Context.word_features in Hrows.
  apply (foldM_invariant Inv _ _) with (3 := Hrows).
  - intros a [starts end_] a' Hmatch Ha Hinner. cbn [fst snd] in Hinner.
    apply (foldM_invariant Inv _ _) with (3 := Hinner); [ | exact Ha ].
    clear a a' Ha Hinner. intros a start a' Hstart [Hlen Hcells] Hwrite.
    unfold Context.write_match in Hwrite. bind_ok Hwrite score Escore.
    assert (Hmax : forall old, P old -> P (max_cell_score old score)).
    { intros old Hold. unfold max_cell_score.
      destruct (Qlt_le_dec (inject_Z old) score); [ | exact Hold ].
      right. exists starts, end_, start, score. now repeat split. }
    destruct (Nat.eqb end_ (start + 1)).
    + bind_ok Hwrite old Eold.
      apply (get2_Forall P) in Eold; [ | exact Hcells ].
      destruct (set2_Forall P _ _ _ _ _ Hcells (Hmax old Eold) Hwrite)
        as [Hlen' Hcells'].
      split; [ congruence | exact Hcells' ].
    + bind_ok Hwrite old Eold.
      apply (get2_Forall P) in Eold; [ | exact Hcells ].
      bind_ok Hwrite a1 Ea1.
      destruct (set2_Forall P _ _ _ _ _ Hcells (Hmax old Eold) Ea1)
        as [Hlen1 Hcells1].
      bind_ok Hwrite old' Eold'.
      apply (get2_Forall P) in Eold'; [ | exact Hcells1 ].
      destruct (set2_Forall P _ _ _ _ _ Hcells1 (Hmax old' Eold') Hwrite)
        as [Hlen' Hcells'].
      split; [ congruence | exact Hcells' ].
  - split; [ apply repeat_length | ]. apply zeros_cells. now left.
Qed.

(** *** Scores below one *)

Lemma to_int_fraction (score : Q) :
  (0 <= score)%Q -> (score < 1)%Q -> to_int score = 0%Z.
Proof.
  unfold Qle, Qlt, to_int. simpl. intros H0 H1.
  apply Z.quot_small. lia.
Qed.

Lemma set_index_same {T : Type} (l l' : list T) (i : nat) (v : T) :
  nth_error l i = Some v -> set_index l i v = Ok l' -> l' = l.
Proof.
  revert i l'. induction l as [| x t IH]; intros [| i] l' Hv H; simpl in *;
    try discriminate.
  - inversion Hv; inversion H; subst. reflexivity.
  - destruct (set_index t i v) as [t' |] eqn:E; [ | discriminate ].
    inversion H; subst. f_equal. now apply IH with i.
Qed.

Lemma set2_zero (n i k : nat) (a' : list (list Z)) :
  set2 (repeat (repeat 0%Z 3) n) i k 0%Z = Ok a' ->
  a' = repeat (repeat 0%Z 3) n.
Proof.
  unfold set2. intros H. bind_ok H row Er. bind_ok H cell Ec.
  cbn [int64 Z.leb Z.ltb Z.compare andb Z.opp Z.pow Z.pow_pos Pos.iter Z.mul
       Pos.mul Pos.compare Pos.compare_cont] in H.
  bind_ok H row' Er'.
  apply index_Ok in Er.
  assert (row = repeat 0%Z 3) by now apply nth_error_repeat_inv in Er.
  subst row.
  assert (row' = repeat 0%Z 3).
  { apply (set_index_same _ _ k 0%Z); [ | exact Er' ].
    destruct (nth_error (repeat 0%Z 3) k) as [v |] eqn:E.
    - now apply nth_error_repeat_inv in E; subst.
    - apply nth_error_None in E.
      destruct k as [| [| [| k]]]; simpl in E; try lia.
      simpl in Er'. discriminate. }
  subst row'. now apply (set_index_same _ _ i (repeat 0%Z 3)).
Qed.

(** X14: the scores are stored into an integer array, which drops their
    fractional part: when every score is at least zero and below one, the
    features [_make_morpheme_data_simple] returns are zero everywhere,
    whatever [find_substrings] reports. *)
Theorem fractional_scores_vanish (data : list string) (bucket_length : nat)
    (answer : list (list (list Z)))
    (Hscores : forall ngram score,
        get_score ngram "None" = Ok score -> (0 <= score)%Q /\ (score < 1)%Q)
    (Hanswer : _make_morpheme_data_simple find_substrings
                 to_memorize_ngram_counts morpheme_counts_ data bucket_length
               = Ok answer) :
  answer = repeat (repeat (repeat 0%Z 3) bucket_length) (length data).
Proof.
  assert (Hword : forall word rows,
             word_features bucket_length word = Ok rows ->
             rows = repeat (repeat 0%Z 3) bucket_length).
  { intros word rows Hrows. unfold Context.word_features in Hrows.
    apply (foldM_invariant
             (fun a => a = repeat (repeat 0%Z 3) bucket_length) _ _)
      with (3 := Hrows); [ | reflexivity ].
    intros a [starts end_] a' _ Ha Hinner. cbn [fst snd] in Hinner.
    apply (foldM_invariant
             (fun a => a = repeat (repeat 0%Z 3) bucket_length) _ _)
      with (3 := Hinner); [ | exact Ha ].
    clear a a' Ha Hinner. intros a start a' _ -> Hwrite.
    unfold Context.write_match in Hwrite. bind_ok Hwrite score Escore.
    destruct (Hscores _ _ Escore) as [H0 H1].
    assert (Hmax : max_cell_score 0 score = 0%Z).
    { unfold max_cell_score.
      destruct (Qlt_le_dec (inject_Z 0) score);
        [ now apply to_int_fraction | reflexivity ]. }
    assert (Hold : forall i k old,
               get2 (repeat (repeat 0%Z 3) bucket_length) i k = Ok old ->
               old = 0%Z).
    { intros i k old H. apply (get2_Forall (fun v => v = 0%Z)) in H;
        [ exact H | now apply zeros_cells ]. }
    destruct (Nat.eqb end_ (start + 1)).
    - bind_ok Hwrite old Eold. apply Hold in Eold. subst old.
      rewrite Hmax in Hwrite. now apply set2_zero in Hwrite.
    - bind_ok Hwrite old Eold. apply Hold in Eold. subst old.
      rewrite Hmax in Hwrite. bind_ok Hwrite a1 Ea1.
      apply set2_zero in Ea1. subst a1.
      bind_ok Hwrite old' Eold'. apply Hold in Eold'. subst old'.
      rewrite Hmax in Hwrite. now apply set2_zero in Hwrite. }
  unfold _make_morpheme_data_simple in Hanswer.
  apply mapM_Forall2 in Hanswer.
  induction Hanswer as [| word rows rest answer' Hw Hrest IH];
    [ reflexivity | ].
  simpl. f_equal; [ now apply Hword with word | exact IH ].
Qed.

(** *** Matches inside the bucket *)

(** X15: building the features of a word does not raise when every match
    [find_substrings] reports is a non-empty segment that ends before
    [bucket_length], the table of scores has the key [None] whenever scores
    are looked up, and the integer part of every score fits a 64-bit
    cell. *)
Theorem word_features_defined (bucket_length : nat) (word : string)
    (Hinside : forall starts end_ start,
        In (starts, end_) (find_substrings word) -> In start starts ->
        start < end_ /\ end_ < bucket_length)
    (Hkey : to_memorize_ngram_counts = true ->
            morpheme_counts_ "None" <> None)
    (Hfits : forall ngram score,
        get_score ngram "None" = Ok score -> int64 (to_int score) = true) :
  exists rows, word_features bucket_length word = Ok rows.
Proof.
  set (Inv := fun a : list (list Z) =>
                length a = bucket_length /\
                Forall (fun row => length row = 3 /\
                                   Forall (fun v => int64 v = true) row)
                       a).
  assert (Hscore : forall ngram, exists score, get_score ngram "None" = Ok score).
  { intros ngram. unfold _get_ngram_score.
    destruct to_memorize_ngram_counts; [ | eauto ].
    destruct (morpheme_counts_ "None") as [counts |];
      [ | now destruct (Hkey eq_refl) ].
    destruct (counts ngram); eauto. }
  destruct (foldM_total Inv
              (fun curr_answer se =>
                 foldM (write_match word (snd se)) (fst se) curr_answer)
              (find_substrings word))
    with (s := repeat (repeat 0%Z 3) bucket_length) as [rows [E _]].
  - intros a [starts end_] Hmatch Ha. cbn [fst snd].
    apply (foldM_total Inv); [ | exact Ha ].
    clear a Ha. intros a start Hstart [Hlen Hcells].
    destruct (Hinside starts end_ start Hmatch Hstart) as [Hlt Hend].
    unfold Context.write_match.
    destruct (Hscore (segment word start end_)) as [score Escore].
    rewrite Escore. cbn [Py.bind].
    assert (Hmax : forall old, int64 old = true ->
                               int64 (max_cell_score old score) = true).
    { intros old Hold. unfold max_cell_score.
      destruct (Qlt_le_dec (inject_Z old) score); [ | exact Hold ].
      now apply (Hfits (segment word start end_)). }
    destruct (Nat.eqb_spec end_ (start + 1)) as [Eend | Eend].
    + destruct (get2_defined _ a (start + 1) 2 Hcells) as [old Eold];
        [ lia | lia | ].
      rewrite Eold. cbn [Py.bind].
      apply (get2_Forall _ _ _ _ _ Hcells) in Eold.
      destruct (set2_defined _ a (start + 1) 2 (max_cell_score old score) Hcells)
        as [a' Ea']; [ lia | lia | now apply Hmax | ].
      exists a'. split; [ exact Ea' | ].
      destruct (set2_Forall _ _ _ _ _ _ Hcells (Hmax old Eold) Ea')
        as [Hlen' Hcells'].
      split; [ congruence | exact Hcells' ].
    + destruct (get2_defined _ a (start + 0) 2 Hcells) as [old Eold];
        [ lia | lia | ].
      rewrite Eold. cbn [Py.bind].
      apply (get2_Forall _ _ _ _ _ Hcells) in Eold.
      destruct (set2_defined _ a (start + 1) 0 (max_cell_score old score) Hcells)
        as [a1 Ea1]; [ lia | lia | now apply Hmax | ].
      rewrite Ea1. cbn [Py.bind].
      destruct (set2_Forall _ _ _ _ _ _ Hcells (Hmax old Eold) Ea1)
        as [Hlen1 Hcells1].
      destruct (get2_defined _ a1 end_ 1 Hcells1) as [old' Eold'];
        [ lia | lia | ].
      rewrite Eold'. cbn [Py.bind].
      apply (get2_Forall _ _ _ _ _ Hcells1) in Eold'.
      destruct (set2_defined _ a1 end_ 1 (max_cell_score old' score) Hcells1)
        as [a' Ea']; [ lia | lia | now apply Hmax | ].
      exists a'. split; [ exact Ea' | ].
      destruct (set2_Forall _ _ _ _ _ _ Hcells1 (Hmax old' Eold') Ea')
        as [Hlen' Hcells'].
      split; [ congruence | exact Hcells' ].
  - split; [ apply repeat_length | ]. now apply zeros_cells.
  - exists rows. exact E.
Qed.

End ContextMore.

Section ContextMoreExamples.

Import Context Examples.

Lemma word_features_cells_witness :
  word_features matches_abc true counts_abc 5 "abc"
  = Ok [[0; 0; 0]; [0; 0; 0]; [0; 1; 0]; [0; 0; 0]; [0; 0; 0]]%Z /\
  length [[0; 0; 0]; [0; 0; 0]; [0; 1; 0]; [0; 0; 0]; [0; 0; 0]]%Z = 5 /\
  Forall (fun row =>
            length row = 3 /\
            Forall (fun v =>
                      v = 0%Z \/
                      exists starts end_ start score,
                        In (starts, end_) (matches_abc "abc") /\
                        In start starts /\
                        _get_ngram_score true counts_abc
                          (segment "abc" start end_) "None" = Ok score /\
                        v = to_int score)
                   row)
         [[0; 0; 0]; [0; 0; 0]; [0; 1; 0]; [0; 0; 0]; [0; 0; 0]]%Z.
Proof.
  assert (Hrows :
            word_features matches_abc true counts_abc 5 "abc"
            = Ok [[0; 0; 0]; [0; 0; 0]; [0; 1; 0]; [0; 0; 0]; [0; 0; 0]]%Z)
    by (vm_compute; reflexivity).
  split; [ exact Hrows | ].
  exact (word_features_cells matches_abc true counts_abc 5 "abc" _ Hrows).
Defined.

Lemma fractional_scores_vanish_witness :
  (forall ngram score,
      _get_ngram_score true (fun _ => Some (fun _ => Some (1 # 2)%Q))
        ngram "None" = Ok score ->
      (0 <= score)%Q /\ (score < 1)%Q) /\
  _make_morpheme_data_simple matches_abc true
    (fun _ => Some (fun _ => Some (1 # 2)%Q)) ["abc"] 5
  = Ok [[[0; 0; 0]; [0; 0; 0]; [0; 0; 0]; [0; 0; 0]; [0; 0; 0]]]%Z /\
  [[[0; 0; 0]; [0; 0; 0]; [0; 0; 0]; [0; 0; 0]; [0; 0; 0]]]%Z
  = repeat (repeat (repeat 0%Z 3) 5) (length ["abc"]).
Proof.
  assert (Hscores :
            forall ngram score,
              _get_ngram_score true (fun _ => Some (fun _ => Some (1 # 2)%Q))
                ngram "None" = Ok score ->
              (0 <= score)%Q /\ (score < 1)%Q).
  { intros ngram score H. simpl in H. inversion H; subst score.
    split; [ discriminate | reflexivity ]. }
  assert (Hanswer :
            _make_morpheme_data_simple matches_abc true
              (fun _ => Some (fun _ => Some (1 # 2)%Q)) ["abc"] 5
            = Ok [[[0; 0; 0]; [0; 0; 0]; [0; 0; 0]; [0; 0; 0]; [0; 0; 0]]]%Z)
    by (vm_compute; reflexivity).
  split; [ exact Hscores | ]. split; [ exact Hanswer | ].
  exact (fractional_scores_vanish matches_abc true _ ["abc"] 5 _
           Hscores Hanswer).
Defined.

Lemma word_features_defined_witness :
  (forall starts end_ start,
      In (starts, end_) (matches_abc "abc") -> In start starts ->
      start < end_ /\ end_ < 5) /\
  (true = true -> counts_abc "None" <> None) /\
  (forall ngram score,
      _get_ngram_score true counts_abc ngram "None" = Ok score ->
      int64 (to_int score) = true) /\
  exists rows, word_features matches_abc true counts_abc 5 "abc" = Ok rows.
Proof.
  assert (Hinside :
            forall starts end_ start,
              In (starts, end_) (matches_abc "abc") -> In start starts ->
              start < end_ /\ end_ < 5).
  { intros starts end_ start [H | [H | []]] Hstart;
      inversion H; subst; destruct Hstart as [<- | []]; lia. }
  assert (Hkey : true = true -> counts_abc "None" <> None)
    by (intros _; discriminate).
  assert (Hfits :
            forall ngram score,
              _get_ngram_score true counts_abc ngram "None" = Ok score ->
              int64 (to_int score) = true).
  { intros ngram score H. unfold _get_ngram_score, counts_abc in H.
    simpl in H.
    destruct (String.eqb ngram "ab"); [ now inversion H | ].
    destruct (String.eqb ngram "abc"); now inversion H. }
  split; [ exact Hinside | ]. split; [ exact Hkey | ].
  split; [ exact Hfits | ].
  exact (word_features_defined matches_abc true counts_abc 5 "abc"
           Hinside Hkey Hfits).
Defined.

End ContextMoreExamples.

(** ** Vocabulary *)

Section VocabularyFacts.

Import Vocabulary.

(** *** The order on strings *)

Lemma compare_not_gt_trans (a b c : string) :
  String.compare a b <> Gt -> String.compare b c <> Gt ->
  String.compare a c <> Gt.
Proof.
  revert b c. induction a as [| x a' IH]; intros b c H1 H2.
  - destruct c; discriminate.
  - destruct b as [| y b']; [ now simpl in H1 | ].
    destruct c as [| z c']; [ now simpl in H2 | ].
    simpl in *. unfold Ascii.compare in *.
    destruct (N.compare_spec (N_of_ascii x) (N_of_ascii y)) as [E1 | L1 | G1];
      try congruence;
      destruct (N.compare_spec (N_of_ascii y) (N_of_ascii z)) as [E2 | L2 | G2];
      try congruence;
      destruct (N.compare_spec (N_of_ascii x) (N_of_ascii z)) as [E3 | L3 | G3];
      try discriminate; try lia; eauto.
Qed.

Lemma leb_not_gt (a b : string) :
  String.leb a b = true <-> String.compare a b <> Gt.
Proof.
  unfold String.leb. destruct (String.compare a b); split; intros H;
    congruence.
Qed.

Lemma leb_trans (a b c : string) :
  String.leb a b = true -> String.leb b c = true -> String.leb a c = true.
Proof.
  rewrite !leb_not_gt. apply compare_not_gt_trans.
Qed.

(** *** Sorting *)

Lemma insert_symbol_perm (x : string) (l : list string) :
  Permutation (x :: l) (insert_sorted x l).
Proof.
  induction l as [| y t IH]; simpl; [ reflexivity | ].
  destruct (String.leb x y); [ reflexivity | ].
  rewrite perm_swap. now constructor.
Qed.

Lemma sorted_symbols_perm (l : list string) : Permutation l (sorted l).
Proof.
  induction l as [| x t IH]; simpl; [ constructor | ].
  rewrite <- insert_symbol_perm. now constructor.
Qed.

Lemma insert_symbol_sorted (x : string) (l : list string) :
  StronglySorted (fun a b => String.leb a b = true) l ->
  StronglySorted (fun a b => String.leb a b = true) (insert_sorted x l).
Proof.
  induction 1 as [| y t Ht IH Hy]; simpl.
  - constructor; constructor.
  - destruct (String.leb x y) eqn:E.
    + constructor; [ now constructor | ].
      constructor; [ assumption | ].
      eapply Forall_impl; [ | exact Hy ].
      intros z Hz. now apply leb_trans with y.
    + constructor; [ assumption | ].
      apply (Permutation_Forall (insert_symbol_perm x t)).
      constructor; [ | assumption ].
      destruct (String.leb_total x y) as [H | H]; [ congruence | exact H ].
Qed.

Lemma sorted_symbols_sorted (l : list string) :
  StronglySorted (fun a b => String.leb a b = true) (sorted l).
Proof.
  induction l as [| x t IH]; simpl; [ constructor | ].
  now apply insert_symbol_sorted.
Qed.

(** *** The code table *)

Lemma last_position_absent (x : string) (l : list string) (k : nat)
    (found : option nat) :
  ~ In x l -> Decoder.last_position x l k found = found.
Proof.
  revert k found. induction l as [| a t IH]; intros k found Hnot; simpl;
    [ reflexivity | ].
  destruct (String.eqb_spec a x) as [-> | _].
  - exfalso. apply Hnot. now left.
  - apply IH. intros H. apply Hnot. now right.
Qed.

Lemma last_position_at (x : string) (l : list string) :
  forall k found i,
    nth_error l i = Some x ->
    (forall j, i < j -> nth_error l j <> Some x) ->
    Decoder.last_position x l k found = Some (k + i).
Proof.
  induction l as [| a t IH]; intros k found i Hi Hlater;
    [ destruct i; discriminate | ].
  destruct i as [| i]; simpl in Hi.
  - inversion Hi; subst a. simpl. rewrite String.eqb_refl.
    rewrite last_position_absent; [ now rewrite Nat.add_0_r | ].
    intros Hin. apply In_nth_error in Hin. destruct Hin as [j Hj].
    apply (Hlater (S j)); [ lia | exact Hj ].
  - simpl. rewrite (IH (S k) _ i Hi).
    + f_equal. lia.
    + intros j Hj. apply (Hlater (S j)). lia.
Qed.

Lemma last_position_defined (x : string) (l : list string) (k : nat)
    (found : option nat) :
  In x l -> exists c, Decoder.last_position x l k found = Some c.
Proof.
  revert k found. induction l as [| a t IH]; intros k found Hin;
    [ contradiction | ].
  simpl. destruct (in_dec string_dec x t) as [Ht | Ht]; [ now apply IH | ].
  destruct Hin as [-> | Hin]; [ | contradiction ].
  rewrite String.eqb_refl, last_position_absent by assumption. eauto.
Qed.

(** X16: [_make_vocabulary] returns the auxiliary symbols followed by the
    symbols of the source, each once and in ascending order; the code table
    sends a symbol to a position that holds it, has no code exactly for the
    strings that are not symbols, and gives every position from 4 on as the
    code of its symbol; an auxiliary symbol keeps its own position as code
    unless the source holds a symbol of the same name. *)
Theorem make_vocabulary_spec (source : list (list string)) :
  let '(symbols, symbol_codes) := _make_vocabulary source in
  exists sorted_symbols,
    symbols = AUXILIARY ++ sorted_symbols /\
    NoDup sorted_symbols /\
    StronglySorted (fun a b => String.leb a b = true) sorted_symbols /\
    (forall a, In a sorted_symbols <-> exists word, In word source /\ In a word) /\
    (forall a c, symbol_codes a = Some c -> nth_error symbols c = Some a) /\
    (forall a, symbol_codes a = None <-> ~ In a symbols) /\
    (forall i a, nth_error symbols i = Some a ->
                 4 <= i \/ ~ In a sorted_symbols ->
                 symbol_codes a = Some i).
Proof.
  unfold _make_vocabulary.
  set (s := sorted (symbol_set source)).
  assert (Hperm : Permutation (symbol_set source) s) by apply sorted_symbols_perm.
  assert (Hnodup : NoDup s).
  { apply (Permutation_NoDup Hperm). apply NoDup_nodup. }
  exists s. split; [ reflexivity | ]. split; [ exact Hnodup | ].
  split; [ apply sorted_symbols_sorted | ]. split; [ | split; [ | split ] ].
  - intros a. split.
    + intros Ha. apply (Permutation_in _ (Permutation_sym Hperm)) in Ha.
      apply nodup_In, in_concat in Ha. destruct Ha as [word [Hw Ha]]. eauto.
    + intros [word [Hw Ha]]. apply (Permutation_in _ Hperm).
      apply nodup_In, in_concat. eauto.
  - intros a c H. unfold Decoder.target_symbol_codes_ in H.
    apply last_position_Some in H.
    destruct H as [H | [_ H]]; [ discriminate | ].
    now rewrite Nat.sub_0_r in H.
  - intros a. unfold Decoder.target_symbol_codes_. split.
    + intros Hnone Hin.
      destruct (last_position_defined a _ 0 None Hin) as [c Hc]. congruence.
    + intros Hnot. now apply last_position_absent.
  - intros i a Hi Hcase. unfold Decoder.target_symbol_codes_.
    rewrite (last_position_at a _ 0 None i Hi); [ reflexivity | ].
    intros j Hj Hlater.
    destruct (Nat.lt_ge_cases j 4) as [Hj4 | Hj4].
    + assert (Hi4 : i < 4) by lia.
      rewrite nth_error_app1 in Hi, Hlater by (simpl; lia).
      assert (Haux : NoDup AUXILIARY)
        by (repeat constructor; simpl; intuition discriminate).
      rewrite NoDup_nth_error in Haux.
      assert (i = j) by (apply Haux; [ simpl; lia | congruence ]). lia.
    + rewrite nth_error_app2 in Hlater by (simpl; lia).
      destruct Hcase as [Hi4 | Hnot].
      * rewrite nth_error_app2 in Hi by (simpl; lia).
        rewrite NoDup_nth_error in Hnodup.
        assert (i - length AUXILIARY = j - length AUXILIARY).
        { apply Hnodup; [ | congruence ].
          apply nth_error_Some. congruence. }
        simpl in *. lia.
      * apply Hnot. now apply nth_error_In in Hlater.
Qed.

End VocabularyFacts.

(** ** Code matrices *)

Section RecodeFacts.

Import Preprocess.

Local Open Scope Z_scope.

Lemma set_index_middle {T : Type} (l1 l2 : list T) (x v : T) :
  set_index (l1 ++ x :: l2) (length l1) v = Ok (l1 ++ v :: l2).
Proof.
  induction l1 as [| a t IH]; simpl; [ reflexivity | now rewrite IH ].
Qed.

Lemma set_index_beyond {T : Type} (l : list T) (i : nat) (v : T) :
  (length l <= i)%nat -> set_index l i v = Raise IndexError.
Proof.
  revert i. induction l as [| a t IH]; intros i H; [ reflexivity | ].
  destruct i as [| i]; simpl in *; [ lia | ].
  rewrite IH by lia. reflexivity.
Qed.

Lemma recode_word_fits (L : nat) (encoding : string -> option nat)
    (word : list string) :
  (length word + 2 <= L)%nat ->
  recode_word L encoding word
  = Ok (BEGIN :: map (encode encoding) word
              ++ END :: repeat PAD (L - length word - 2)).
Proof.
  intros Hfit. unfold recode_word, assign_slice.
  rewrite length_map. cbn [length]. rewrite repeat_length.
  replace (Nat.min (1 + length word) (S (L - 1)) - 1)%nat with (length word)
    by lia.
  rewrite Nat.eqb_refl. cbn [Py.bind firstn skipn Nat.add app].
  replace (L - 1)%nat with (length word + S (L - length word - 2))%nat by lia.
  rewrite repeat_app, skipn_app, skipn_all2 by (rewrite repeat_length; lia).
  rewrite repeat_length, Nat.sub_diag. cbn [skipn app repeat].
  change (BEGIN :: map (encode encoding) word ++ PAD :: repeat PAD (L - length word - 2))
    with ((BEGIN :: map (encode encoding) word)
          ++ PAD :: repeat PAD (L - length word - 2))%list.
  replace (S (length word))
    with (length (BEGIN :: map (encode encoding) word))
    by (simpl; now rewrite length_map).
  exact (set_index_middle (BEGIN :: map (encode encoding) word) _ PAD END).
Qed.

Lemma recode_word_too_long (L : nat) (encoding : string -> option nat)
    (word : list string) :
  (1 <= L)%nat -> (L < length word + 2)%nat ->
  exists e, recode_word L encoding word = Raise e /\
            (e = ValueError \/ e = IndexError).
Proof.
  intros HL Hlong. unfold recode_word, assign_slice.
  rewrite length_map. cbn [length]. rewrite repeat_length.
  replace (Nat.min (1 + length word) (S (L - 1)) - 1)%nat with (L - 1)%nat
    by lia.
  destruct (Nat.eqb_spec (length word) (L - 1)) as [E | E].
  - cbn [Py.bind]. exists IndexError. split; [ | now right ].
    apply set_index_beyond.
    rewrite !length_app, length_firstn, length_skipn, length_map.
    cbn [length]. rewrite repeat_length. lia.
  - destruct (Nat.eqb_spec (length word) 1) as [E1 | E1].
    + cbn [Py.bind]. exists IndexError. split; [ | now right ].
      apply set_index_beyond.
      rewrite !length_app, length_firstn, length_skipn, !repeat_length.
      cbn [length]. rewrite repeat_length. lia.
    + exists ValueError. split; [ reflexivity | now left ].
Qed.

Lemma recode_bucket_data_fits (data : list (list string)) (L : Z)
    (encoding : string -> option nat) :
  0 < L ->
  Forall (fun word => Z.of_nat (length word) + 2 <= L) data ->
  _recode_bucket_data data L encoding = Ok (map (padded_row encoding L) data).
Proof.
  intros HL Hfit. unfold _recode_bucket_data.
  destruct (Z.ltb_spec L 0); [ lia | ].
  destruct (Z.eqb_spec L 0); [ lia | ].
  apply mapM_map. intros word Hword. rewrite Forall_forall in Hfit.
  specialize (Hfit word Hword). apply recode_word_fits. lia.
Qed.

(** X17: for a positive number of columns, [_recode_bucket_data] returns,
    when every word of the bucket is at least two symbols shorter than the
    row, one row per word holding [BEGIN], the codes of the word with
    [UNKNOWN] for the symbols the table lacks, [END], and [PAD] up to the end
    of the row; when some word is longer than that it raises [ValueError] or
    [IndexError] and returns no matrix. *)
Theorem recode_bucket_data_spec (data : list (list string)) (bucket_length : Z)
    (encoding : string -> option nat)
    (Hcolumns : 0 < bucket_length) :
  (Forall (fun word => Z.of_nat (length word) + 2 <= bucket_length) data ->
   _recode_bucket_data data bucket_length encoding
   = Ok (map (padded_row encoding bucket_length) data)) /\
  (Exists (fun word => bucket_length < Z.of_nat (length word) + 2) data ->
   exists e, _recode_bucket_data data bucket_length encoding = Raise e /\
             (e = ValueError \/ e = IndexError)).
Proof.
  split; [ now apply recode_bucket_data_fits | ].
  intros Hlong. unfold _recode_bucket_data.
  destruct (Z.ltb_spec bucket_length 0); [ lia | ].
  destruct (Z.eqb_spec bucket_length 0); [ lia | ].
  induction data as [| word rest IH]; [ inversion Hlong | ].
  cbn [mapM].
  destruct (Z.le_gt_cases (Z.of_nat (length word) + 2) bucket_length)
    as [Hfit | Hword].
  - rewrite recode_word_fits by lia.
    inversion Hlong as [? ? Hw | ? ? Hrest]; subst; [ lia | ].
    destruct (IH Hrest) as [e [E He]]. rewrite E. eauto.
  - destruct (recode_word_too_long (Z.to_nat bucket_length) encoding word)
      as [e [E He]]; [ lia | lia | ].
    rewrite E. eauto.
Qed.

Lemma recode_word_Ok (L : nat) (encoding : string -> option nat)
    (word : list string) (row : list nat) :
  (1 <= L)%nat -> recode_word L encoding word = Ok row ->
  (length word + 2 <= L)%nat /\
  row = BEGIN :: map (encode encoding) word
              ++ END :: repeat PAD (L - length word - 2).
Proof.
  intros HL H.
  destruct (Nat.le_gt_cases (length word + 2) L) as [Hfit | Hlong].
  - split; [ exact Hfit | ]. rewrite recode_word_fits in H by assumption.
    now inversion H.
  - destruct (recode_word_too_long L encoding word HL) as [e [E _]];
      [ lia | congruence ].
Qed.

Lemma slice_codes (codes rest : list nat) :
  slice 1 (1 + length codes) (BEGIN :: codes ++ rest) = codes.
Proof.
  unfold slice. cbn [Nat.add firstn skipn].
  rewrite firstn_app, firstn_all, Nat.sub_diag. cbn [firstn].
  apply app_nil_r.
Qed.

(** X18: a matrix recoded with the code table of [_make_vocabulary] can be
    read back: in the row of a word, the cells between [BEGIN] and [END]
    hold, for every symbol of the vocabulary, a position of the vocabulary
    where that symbol stands, and [UNKNOWN] for every other symbol. *)
Theorem recode_round_trip (source data : list (list string))
    (bucket_length : Z) (rows : list (list nat))
    (Hrows : _recode_bucket_data data bucket_length
               (snd (Vocabulary._make_vocabulary source)) = Ok rows) :
  Forall2 (fun word row =>
             nth_error row 0 = Some BEGIN /\
             nth_error row (1 + length word) = Some END /\
             Forall2 (fun x c =>
                        (In x (fst (Vocabulary._make_vocabulary source)) ->
                         nth_error (fst (Vocabulary._make_vocabulary source)) c
                         = Some x) /\
                        (~ In x (fst (Vocabulary._make_vocabulary source)) ->
                         c = UNKNOWN))
                     word (slice 1 (1 + length word) row))
          data rows.
Proof.
  unfold _recode_bucket_data in Hrows.
  destruct (Z.ltb_spec bucket_length 0); [ discriminate | ].
  destruct (Z.eqb_spec bucket_length 0); [ discriminate | ].
  apply mapM_Forall2 in Hrows.
  eapply Forall2_impl; [ | exact Hrows ].
  intros word row Hrow. cbn beta in Hrow.
  apply recode_word_Ok in Hrow; [ | lia ].
  destruct Hrow as [Hfit ->].
  split; [ reflexivity | ]. split.
  - change (nth_error
              ((BEGIN :: map (encode (snd (Vocabulary._make_vocabulary source))) word)
               ++ END :: repeat PAD (Z.to_nat bucket_length - length word - 2))
              (1 + length word) = Some END).
    rewrite nth_error_app2 by (simpl; rewrite length_map; lia).
    simpl. now rewrite length_map, Nat.sub_diag.
  - replace (1 + length word)%nat
      with (1 + length (map (encode (snd (Vocabulary._make_vocabulary source)))
                            word))%nat
      by now rewrite length_map.
    rewrite slice_codes. clear Hfit.
    unfold Vocabulary._make_vocabulary. cbn [fst snd].
    set (symbols := (AUXILIARY ++ _)%list).
    induction word as [| x rest IH]; simpl; constructor; [ | exact IH ].
    unfold encode.
    destruct (Decoder.target_symbol_codes_ symbols x) as [c |] eqn:Ec.
    + apply codes_symbol in Ec. split; [ now intros _ | ].
      intros Hnot. exfalso. apply Hnot. now apply nth_error_In in Ec.
    + split; [ | reflexivity ].
      intros Hin. destruct (codes_In symbols x Hin) as [c Hc]. congruence.
Qed.

End RecodeFacts.

(** ** Preprocessing into buckets *)

Section PreprocessFacts.

Import Preprocess.

Local Open Scope Z_scope.

Variable use_inputs : bool.
Variable to_memorize_morphemes : bool.
Variable has_lm_embedder : bool.
Variable buckets_number : Z.
Variable symbol_codes_ : string -> option nat.
Variable target_symbol_codes_ : string -> option nat.
Variable memo : Type.
Variable embeddings : Type.
Variable _morpheme_memo_func : list (list string) -> Z -> result memo.
Variable _make_lm_embeddings_data : list (list string) -> Z -> result embeddings.

Local Abbreviation make_bucket_data :=
  (_make_bucket_data use_inputs to_memorize_morphemes has_lm_embedder
     symbol_codes_ target_symbol_codes_ memo embeddings _morpheme_memo_func
     _make_lm_embeddings_data).
Local Abbreviation preprocess :=
  (_preprocess use_inputs to_memorize_morphemes has_lm_embedder buckets_number
     symbol_codes_ target_symbol_codes_ memo embeddings _morpheme_memo_func
     _make_lm_embeddings_data).

Lemma collect_buckets_items (lengths : list Z) (K : Z) :
  (exists l, In l lengths /\ 0 < l) -> 1 <= K ->
  exists buckets,
    Bucketing.collect_buckets lengths K (-1) = Ok buckets /\
    Forall (fun b => snd b <> [] /\
                     Forall (fun i => (i < length lengths)%nat /\
                                      nth i lengths 0 <= fst b)
                            (snd b))
           buckets.
Proof.
  intros Hpos HK.
  destruct (collect_buckets_form lengths K (-1) Hpos HK (or_introl eq_refl))
    as [bl [indexes [_ [_ [_ [_ [[Hperm Hall] Ecollect]]]]]]].
  cbn [Z.eqb Pos.eqb] in Ecollect.
  eexists. split; [ exact Ecollect | ].
  destruct (Forall2_combine _ _ _ Hall) as [Hpairs _].
  apply Forall_forall. intros b Hb. apply filter_In in Hb.
  destruct Hb as [Hb Hnon]. split; [ now apply nonempty_true | ].
  rewrite Forall_forall in Hpairs. specialize (Hpairs b Hb). cbn beta in Hpairs.
  rewrite Forall_forall in *. intros i Hi. split; [ | now apply Hpairs ].
  assert (Hin : In i (concat indexes)).
  { apply in_concat. exists (snd b). split; [ | exact Hi ].
    destruct b as [L curr]. now apply in_combine_r in Hb. }
  apply (Permutation_in _ Hperm) in Hin. apply in_seq in Hin. lia.
Qed.

Lemma mapM_related {A B : Type} (R : A -> B -> Prop) (f : A -> result B)
    (l : list A) :
  (forall a, In a l -> exists b, f a = Ok b /\ R a b) ->
  exists bs, mapM f l = Ok bs /\ Forall2 R l bs.
Proof.
  induction l as [| a t IH]; intros H; simpl.
  - exists []. split; [ reflexivity | constructor ].
  - destruct (H a (or_introl eq_refl)) as [b [Eb Hb]]. rewrite Eb.
    destruct IH as [bs [Ebs Hbs]]; [ intros x Hx; apply H; now right | ].
    rewrite Ebs. exists (b :: bs). split; [ reflexivity | now constructor ].
Qed.

Lemma bucket_items {T : Type} (data : list T) (d : T) (indexes : list nat) :
  Forall (fun i => (i < length data)%nat) indexes ->
  mapM (index data) indexes = Ok (map (fun i => nth i data d) indexes).
Proof.
  intros H. apply mapM_map. intros i Hi. rewrite Forall_forall in H.
  apply index_Ok, nth_error_nth'. now apply H.
Qed.

(** X19: [_preprocess] does not raise on data that is not empty, with at
    least one bucket requested, targets that have the length of their words,
    and feature builders that do not raise.  The buckets are those of
    [collect_buckets] on the lengths of the words plus two; the targets of a
    bucket are the matrix of the padded rows of its items, and so is, when
    the inputs are used, the first input array of the bucket; without
    targets the same inputs and buckets are returned. *)
Theorem preprocess_defined (data targets : list (list string))
    (Hdata : data <> [])
    (Hnumber : 1 <= buckets_number)
    (Htargets : Forall2 (fun word target => length target = length word)
                        data targets)
    (Hmemo : to_memorize_morphemes = true ->
             forall d L, exists features, _morpheme_memo_func d L = Ok features)
    (Hlm : has_lm_embedder = true ->
           forall d L, exists vectors, _make_lm_embeddings_data d L = Ok vectors) :
  exists data_by_buckets buckets,
    Bucketing.collect_buckets (map (fun x => Z.of_nat (length x) + 2) data)
      buckets_number (-1) = Ok buckets /\
    preprocess data (Some targets)
    = Ok (data_by_buckets,
          Some (map (fun b =>
                       Target memo embeddings
                         (map (fun i => padded_row target_symbol_codes_ (fst b)
                                          (nth i targets []))
                              (snd b)))
                    buckets),
          buckets) /\
    preprocess data None = Ok (data_by_buckets, None, buckets) /\
    Forall2 (fun b inputs =>
               exists arrays,
                 inputs = Inputs memo embeddings arrays /\
                 (use_inputs = true ->
                  hd_error arrays
                  = Some (Codes memo embeddings
                            (map (fun i => padded_row symbol_codes_ (fst b)
                                             (nth i data []))
                                 (snd b)))))
            buckets data_by_buckets.
Proof.
  set (lengths := map (fun x => Z.of_nat (length x) + 2) data).
  assert (Hlen : length lengths = length data) by apply length_map.
  assert (Hnth : forall i, (i < length data)%nat ->
                           nth i lengths 0 = Z.of_nat (length (nth i data [])) + 2).
  { intros i Hi. unfold lengths.
    rewrite (nth_indep _ 0 (Z.of_nat (length (@nil string)) + 2))
      by (rewrite length_map; exact Hi).
    apply (map_nth (fun x => Z.of_nat (length x) + 2)). }
  destruct (collect_buckets_items lengths buckets_number) as [buckets [Eb Hitems]];
    [ | exact Hnumber | ].
  { destruct data as [| word rest]; [ congruence | ].
    exists (Z.of_nat (length word) + 2). split; [ now left | lia ]. }
  rewrite Hlen in Hitems. rewrite Forall_forall in Hitems.
  assert (Hfit : forall b, In b buckets ->
            0 < fst b /\
            Forall (fun i => (i < length data)%nat) (snd b) /\
            Forall (fun word => Z.of_nat (length word) + 2 <= fst b)
                   (map (fun i => nth i data []) (snd b))).
  { intros b Hb. destruct (Hitems b Hb) as [Hne Hall].
    rewrite Forall_forall in Hall. split; [ | split ].
    - destruct (snd b) as [| i rest]; [ congruence | ].
      destruct (Hall i (or_introl eq_refl)) as [Hi Hle].
      rewrite (Hnth i Hi) in Hle. lia.
    - apply Forall_forall. intros i Hi. now apply Hall.
    - apply Forall_forall. intros word Hword. apply in_map_iff in Hword.
      destruct Hword as [i [<- Hi]]. destruct (Hall i Hi) as [Hlt Hle].
      now rewrite (Hnth i Hlt) in Hle. }
  pose proof (Forall2_length Htargets) as Hsame.
  assert (Htarget : forall b, In b buckets ->
            make_bucket_data targets (fst b) (snd b) true
            = Ok (Target memo embeddings
                    (map (fun i => padded_row target_symbol_codes_ (fst b)
                                     (nth i targets []))
                         (snd b)))).
  { intros b Hb. destruct (Hfit b Hb) as [Hpos [Hin Hwords]].
    unfold _make_bucket_data.
    rewrite (bucket_items targets [] (snd b))
      by (eapply Forall_impl; [ | exact Hin ]; intros i Hi; cbn beta in Hi; lia).
    cbn [Py.bind].
    rewrite recode_bucket_data_fits; [ now rewrite map_map | exact Hpos | ].
    rewrite Forall_forall in *. intros target Ht. apply in_map_iff in Ht.
    destruct Ht as [i [<- Hi]]. specialize (Hin i Hi). cbn beta in Hin.
    assert (Hword : In (nth i data []) (map (fun i => nth i data []) (snd b)))
      by (apply in_map_iff; eauto).
    specialize (Hwords _ Hword). cbn beta in Hwords.
    assert (Hpair : length (nth i targets []) = length (nth i data [])).
    { destruct (nth_error data i) as [word |] eqn:Ew;
        [ | apply nth_error_None in Ew; lia ].
      destruct (nth_error targets i) as [target |] eqn:Et;
        [ | apply nth_error_None in Et; lia ].
      rewrite (nth_error_nth _ _ _ Ew), (nth_error_nth _ _ _ Et).
      exact (Forall2_nth_error _ _ _ _ _ _ Htargets Ew Et). }
    lia. }
  destruct (mapM_related
              (fun b inputs =>
                 exists arrays,
                   inputs = Inputs memo embeddings arrays /\
                   (use_inputs = true ->
                    hd_error arrays
                    = Some (Codes memo embeddings
                              (map (fun i => padded_row symbol_codes_ (fst b)
                                               (nth i data []))
                                   (snd b)))))
              (fun b => make_bucket_data data (fst b) (snd b) false) buckets)
    as [data_by_buckets [Ed Hd]].
  { intros b Hb. destruct (Hfit b Hb) as [Hpos [Hin Hwords]].
    unfold _make_bucket_data.
    rewrite (bucket_items data [] (snd b) Hin). cbn [Py.bind].
    rewrite (recode_bucket_data_fits _ _ symbol_codes_ Hpos Hwords), map_map.
    destruct use_inputs; cbn [Py.bind];
      [ destruct to_memorize_morphemes;
        [ destruct (Hmemo eq_refl (map (fun i => nth i data []) (snd b)) (fst b))
            as [features ->]; cbn [Py.bind] | ] | ];
      (destruct has_lm_embedder;
       [ destruct (Hlm eq_refl (map (fun i => nth i data []) (snd b)) (fst b))
           as [vectors ->]; cbn [Py.bind] | ]);
      (eexists; split; [ reflexivity | ]; eexists; split; [ reflexivity | ]);
      first [ discriminate | intros _; reflexivity ]. }
  exists data_by_buckets, buckets.
  split; [ exact Eb | ].
  unfold _preprocess. fold lengths. rewrite Eb. cbn [Py.bind].
  rewrite Ed. cbn [Py.bind].
  rewrite (mapM_map _ _ _ Htarget). cbn [Py.bind].
  split; [ reflexivity | ]. split; [ reflexivity | exact Hd ].
Qed.

End PreprocessFacts.

Section PreprocessExamples.

Import Vocabulary Preprocess.

Lemma recode_bucket_data_spec_witness :
  (0 < 4)%Z /\
  (Forall (fun word => (Z.of_nat (length word) + 2 <= 4)%Z) [["a"; "b"]; ["c"]] ->
   _recode_bucket_data [["a"; "b"]; ["c"]] 4
     (snd (_make_vocabulary [["a"; "b"]; ["c"]]))
   = Ok (map (padded_row (snd (_make_vocabulary [["a"; "b"]; ["c"]])) 4)
             [["a"; "b"]; ["c"]])) /\
  (Exists (fun word => (4 < Z.of_nat (length word) + 2)%Z) [["a"; "b"]; ["c"]] ->
   exists e,
     _recode_bucket_data [["a"; "b"]; ["c"]] 4
       (snd (_make_vocabulary [["a"; "b"]; ["c"]])) = Raise e /\
     (e = ValueError \/ e = IndexError)).
Proof.
  assert (Hcolumns : (0 < 4)%Z) by lia.
  split; [ exact Hcolumns | ].
  exact (recode_bucket_data_spec [["a"; "b"]; ["c"]] 4
           (snd (_make_vocabulary [["a"; "b"]; ["c"]])) Hcolumns).
Defined.

Lemma recode_round_trip_witness :
  _recode_bucket_data [["a"; "x"]] 4 (snd (_make_vocabulary [["b"; "a"]]))
  = Ok [[1; 4; 3; 2]] /\
  Forall2 (fun word row =>
             nth_error row 0 = Some BEGIN /\
             nth_error row (1 + length word) = Some END /\
             Forall2 (fun x c =>
                        (In x (fst (_make_vocabulary [["b"; "a"]])) ->
                         nth_error (fst (_make_vocabulary [["b"; "a"]])) c
                         = Some x) /\
                        (~ In x (fst (_make_vocabulary [["b"; "a"]])) ->
                         c = UNKNOWN))
                     word (slice 1 (1 + length word) row))
          [["a"; "x"]] [[1; 4; 3; 2]].
Proof.
  assert (Hrows :
            _recode_bucket_data [["a"; "x"]] 4
              (snd (_make_vocabulary [["b"; "a"]]))
            = Ok [[1; 4; 3; 2]])
    by (vm_compute; reflexivity).
  split; [ exact Hrows | ].
  exact (recode_round_trip [["b"; "a"]] [["a"; "x"]] 4 [[1; 4; 3; 2]] Hrows).
Defined.

Lemma preprocess_defined_witness :
  [["a"; "b"]; ["c"]] <> [] /\
  (1 <= 2)%Z /\
  Forall2 (fun word target => length target = length word)
          [["a"; "b"]; ["c"]] [["B-ROOT"; "E-ROOT"]; ["S-ROOT"]] /\
  (true = true ->
   forall (d : list (list string)) (L : Z),
     exists features, (fun _ _ => Ok tt) d L = Ok features) /\
  (false = true ->
   forall (d : list (list string)) (L : Z),
     exists vectors : unit, (fun _ _ => Raise ValueError) d L = Ok vectors) /\
  exists data_by_buckets buckets,
    Bucketing.collect_buckets
      (map (fun x => (Z.of_nat (length x) + 2)%Z) [["a"; "b"]; ["c"]]) 2 (-1)
    = Ok buckets /\
    _preprocess true true false 2
      (snd (_make_vocabulary [["a"; "b"]; ["c"]]))
      (snd (_make_vocabulary [["B-ROOT"; "E-ROOT"]; ["S-ROOT"]]))
      unit unit (fun _ _ => Ok tt) (fun _ _ => Raise ValueError)
      [["a"; "b"]; ["c"]] (Some [["B-ROOT"; "E-ROOT"]; ["S-ROOT"]])
    = Ok (data_by_buckets,
          Some (map (fun b =>
                       Target unit unit
                         (map (fun i =>
                                 padded_row
                                   (snd (_make_vocabulary
                                           [["B-ROOT"; "E-ROOT"]; ["S-ROOT"]]))
                                   (fst b)
                                   (nth i [["B-ROOT"; "E-ROOT"]; ["S-ROOT"]] []))
                              (snd b)))
                    buckets),
          buckets) /\
    _preprocess true true false 2
      (snd (_make_vocabulary [["a"; "b"]; ["c"]]))
      (snd (_make_vocabulary [["B-ROOT"; "E-ROOT"]; ["S-ROOT"]]))
      unit unit (fun _ _ => Ok tt) (fun _ _ => Raise ValueError)
      [["a"; "b"]; ["c"]] None
    = Ok (data_by_buckets, None, buckets) /\
    Forall2 (fun b inputs =>
               exists arrays,
                 inputs = Inputs unit unit arrays /\
                 (true = true ->
                  hd_error arrays
                  = Some (Codes unit unit
                            (map (fun i =>
                                    padded_row
                                      (snd (_make_vocabulary [["a"; "b"]; ["c"]]))
                                      (fst b) (nth i [["a"; "b"]; ["c"]] []))
                                 (snd b)))))
            buckets data_by_buckets.
Proof.
  assert (Hdata : [["a"; "b"]; ["c"]] <> []) by discriminate.
  assert (Hnumber : (1 <= 2)%Z) by lia.
  assert (Htargets :
            Forall2 (fun word target => length target = length word)
                    [["a"; "b"]; ["c"]] [["B-ROOT"; "E-ROOT"]; ["S-ROOT"]])
    by (repeat constructor).
  assert (Hmemo :
            true = true ->
            forall (d : list (list string)) (L : Z),
              exists features, (fun _ _ => Ok tt) d L = Ok features)
    by (intros _ d L; exists tt; reflexivity).
  assert (Hlm :
            false = true ->
            forall (d : list (list string)) (L : Z),
              exists vectors : unit,
                (fun _ _ => Raise ValueError) d L = Ok vectors)
    by discriminate.
  repeat (split; [ assumption | ]).
  exact (preprocess_defined true true false 2
           (snd (_make_vocabulary [["a"; "b"]; ["c"]]))
           (snd (_make_vocabulary [["B-ROOT"; "E-ROOT"]; ["S-ROOT"]]))
           unit unit (fun _ _ => Ok tt) (fun _ _ => Raise ValueError)
           [["a"; "b"]; ["c"]] [["B-ROOT"; "E-ROOT"]; ["S-ROOT"]]
           Hdata Hnumber Htargets Hmemo Hlm).
Defined.

End PreprocessExamples.

(** ** Penalties of the decoded paths *)

Section DecoderCosts.

Variable prob : Type.
Variable cost : Type.
Variable inf : cost.
Variable isinf : cost -> bool.
Variable neg_log : prob -> cost.
Variable sub_log : cost -> prob -> cost.
Variable cost_lt : cost -> cost -> bool.
Variable argsort : list cost -> list nat.
Variable target_symbols_ : list string.

Local Abbreviation relax := (Decoder.relax prob cost isinf sub_log).
Local Abbreviation expand :=
  (Decoder.expand prob cost isinf sub_log target_symbols_).
Local Abbreviation step :=
  (Decoder.step prob cost inf isinf sub_log argsort target_symbols_).
Local Abbreviation search_layers :=
  (Decoder.search_layers prob cost inf isinf neg_log sub_log argsort
     target_symbols_).
Local Abbreviation fallback :=
  (Decoder.fallback prob cost inf isinf neg_log sub_log cost_lt argsort
     target_symbols_).
Local Abbreviation path_cost := (Decoder.path_cost prob cost neg_log sub_log).
Local Abbreviation traced := Decoder.traced.
Local Abbreviation layer_costed := (Decoder.layer_costed prob cost sub_log).
Local Abbreviation search_costed :=
  (Decoder.search_costed prob cost neg_log sub_log).

(** [np.isinf(np.inf)]. *)
Hypothesis inf_isinf : isinf inf = true.

Lemma relax_costed (probs : list (list prob)) (i : nat) (last_costs : list cost)
    (prev_cost : cost) (prev_state state : nat) (st st' : Decoder.layer cost) :
  nth_error last_costs prev_state = Some prev_cost ->
  layer_costed probs i last_costs st ->
  relax probs i prev_cost prev_state st state = Ok st' ->
  layer_costed probs i last_costs st'.
Proof.
  intros Hnth Hst H. unfold Decoder.relax in H.
  bind_ok H c Ec. destruct (isinf c); [ | now inversion H; subst ].
  bind_ok H p Ep. bind_ok H costs' Ecosts. bind_ok H states' Estates.
  inversion H; subst st'. intros s q Hs. cbn [Decoder.prev_states] in Hs.
  cbn [Decoder.curr_costs].
  rewrite (set_index_nth_error _ _ _ s _ Estates) in Hs.
  rewrite (set_index_nth_error _ _ _ s _ Ecosts).
  destruct (Nat.eqb_spec s state) as [-> | Hne]; [ | now apply Hst ].
  inversion Hs; subst q. exists prev_cost, p. now repeat split.
Qed.

Lemma expand_costed (probs : list (list prob)) (i : nat)
    (last_costs : list cost) (state_order : list nat)
    (st st' : Decoder.layer cost) :
  layer_costed probs i last_costs st ->
  expand probs i last_costs state_order st = Ok st' ->
  layer_costed probs i last_costs st'.
Proof.
  revert st. induction state_order as [| prev_state rest IH]; intros st Hst H;
    simpl in H.
  - now inversion H; subst.
  - bind_ok H prev_cost Ecost. apply index_Ok in Ecost.
    destruct (isinf prev_cost); [ now inversion H; subst | ].
    destruct (Decoder.is_auxiliary prev_state && negb (Nat.eqb i 0)).
    + now apply (IH st).
    + bind_ok H possible Eposs. bind_ok H st1 Est1.
      assert (Hst1 : layer_costed probs i last_costs st1).
      { apply (foldM_invariant (fun st0 => layer_costed probs i last_costs st0)
                 (relax probs i prev_cost prev_state) possible)
          with (s := st); [ | assumption | assumption ].
        intros st0 state st0' _ Hst0 Hrelax.
        now apply (relax_costed probs i last_costs prev_cost prev_state state st0). }
      destruct (Z.eqb _ _); [ now inversion H; subst | now apply (IH st1) ].
Qed.

Lemma traced_length (states : list (list (option nat))) (path : list nat) :
  forall k, traced states k path -> length path = k + 1.
Proof.
  induction path as [| s rest IH]; intros k H; [ contradiction | ].
  destruct rest as [| p rest'].
  - destruct H as [-> _]. reflexivity.
  - destruct H as [k' [-> [_ H]]]. apply IH in H.
    change (length (s :: p :: rest')) with (S (length (p :: rest'))). lia.
Qed.

Lemma traced_before (states : list (list (option nat)))
    (layer : list (option nat)) (path : list nat) :
  forall k, k < length states ->
            traced (states ++ [layer]) k path -> traced states k path.
Proof.
  induction path as [| s rest IH]; intros k Hk H; [ contradiction | ].
  destruct rest as [| p rest'].
  - destruct H as [-> [q Hq]]. split; [ reflexivity | ]. exists q.
    apply pointer_snoc_inv in Hq. destruct Hq as [Hq | [E _]]; [ exact Hq | lia ].
  - destruct H as [k' [-> [Hptr H]]]. exists k'. split; [ reflexivity | ].
    split.
    + apply pointer_snoc_inv in Hptr.
      destruct Hptr as [Hptr | [E _]]; [ exact Hptr | lia ].
    + apply IH; [ lia | exact H ].
Qed.

Lemma step_costed (probs : list (list prob)) (i : nat)
    (s s' : Decoder.search cost) :
  search_costed probs i s -> step probs s i = Ok s' ->
  search_costed probs (i + 1) s'.
Proof.
  destruct s as [last_costs states]. intros [Hlen Hcost] H.
  unfold Decoder.step in H. bind_ok H st Est. inversion H; subst s'. clear H.
  apply (expand_costed probs i last_costs) in Est.
  - split; [ rewrite length_app; simpl; lia | ].
    intros path s Hhd Htr.
    destruct path as [| s0 rest]; [ contradiction | ].
    simpl in Hhd. inversion Hhd; subst s0.
    destruct rest as [| p rest'];
      [ destruct Htr as [E _]; lia | ].
    destruct Htr as [k' [E [Hptr Htr]]].
    assert (k' = i) by lia. subst k'.
    apply traced_before in Htr; [ | lia ].
    apply pointer_snoc_inv in Hptr.
    destruct Hptr as [[layer [Hk _]] | [_ Hs]].
    { assert (i + 1 < length states) by (apply nth_error_Some; congruence).
      lia. }
    destruct (Est s p Hs) as [c [pr [Hc [Hpr Hnew]]]].
    destruct (Hcost (p :: rest') p eq_refl Htr) as [c' [Hc' Hpath]].
    assert (c' = c) by congruence. subst c'.
    exists (sub_log c pr). split; [ exact Hnew | ].
    change (path_cost probs (s :: p :: rest'))
      with (c0 <- path_cost probs (p :: rest') ;;
            pr0 <- Decoder.at2 prob probs (length (p :: rest')) s ;;
            Ok (sub_log c0 pr0)).
    rewrite Hpath. cbn [Py.bind].
    rewrite (traced_length _ _ _ Htr), Hpr. reflexivity.
  - intros s p Hs. cbn [Decoder.prev_states] in Hs.
    apply nth_error_repeat_inv in Hs. discriminate.
Qed.

Lemma steps_costed (probs : list (list prob)) (n : nat) :
  forall i (s s' : Decoder.search cost),
    search_costed probs i s ->
    foldM (step probs) (seq i n) s = Ok s' ->
    search_costed probs (i + n) s'.
Proof.
  induction n as [| n IH]; intros i s s' Hs H; simpl in H.
  - inversion H; subst. now rewrite Nat.add_0_r.
  - destruct (step probs s i) as [s1 |] eqn:E; [ | discriminate ].
    apply (step_costed probs i) in E; [ | assumption ].
    replace (i + 1) with (S i) in E by lia.
    apply (IH (S i) s1) in H; [ | assumption ].
    now replace (i + S n) with (S i + n) by lia.
Qed.

Lemma search_layers_costed (probs : list (list prob)) (m : nat)
    (s : Decoder.search cost) :
  search_layers probs m = Ok s -> search_costed probs m s.
Proof.
  unfold Decoder.search_layers. intros H.
  bind_ok H p Ep. bind_ok H costs0 Ec. bind_ok H states0 Es.
  apply (steps_costed probs m 0) in H; [ exact H | ].
  split; [ reflexivity | ].
  intros path s0 Hhd Htr.
  destruct path as [| s1 rest]; [ contradiction | ].
  simpl in Hhd. inversion Hhd; subst s1.
  destruct rest as [| q rest'];
    [ | destruct Htr as [k' [E _]]; discriminate ].
  destruct Htr as [_ [q [layer [Hk Hq]]]].
  simpl in Hk. inversion Hk; subst layer.
  rewrite (set_index_nth_error _ _ _ s0 _ Es) in Hq.
  destruct (Nat.eqb_spec s0 BEGIN) as [-> | Hne];
    [ | apply nth_error_repeat_inv in Hq; discriminate ].
  exists (neg_log p). split.
  - rewrite (set_index_nth_error _ _ _ BEGIN _ Ec). now rewrite Nat.eqb_refl.
  - cbn [Decoder.path_cost]. rewrite Ep. reflexivity.
Qed.

Lemma linked_traced (states : list (list (option nat))) (rest : list nat) :
  forall k x path,
    hd_error path = Some x ->
    traced states k path ->
    Decoder.linked states k (map Some (x :: rest)) ->
    traced states (k + length rest) (rev rest ++ path).
Proof.
  induction rest as [| y t IH]; intros k x path Hhd Htr Hlink.
  - simpl. now rewrite Nat.add_0_r.
  - cbn [map Decoder.linked] in Hlink.
    destruct Hlink as [[sy [Ey Hptr]] Hlink]. inversion Ey; subst sy.
    cbn [rev length]. rewrite <- app_assoc. cbn [app].
    replace (k + S (length t)) with (S k + length t) by lia.
    apply (IH (S k) y (y :: path)); [ reflexivity | | exact Hlink ].
    destruct path as [| x' path']; [ contradiction | ].
    simpl in Hhd. inversion Hhd; subst x'.
    exists k. now repeat split.
Qed.

Lemma hd_rev_last {T : Type} (l : list T) (d : T) :
  l <> [] -> hd_error (rev l) = Some (last l d).
Proof.
  destruct l as [| a t] using rev_ind; [ congruence | intros _ ].
  rewrite rev_app_distr, last_last. reflexivity.
Qed.

(** X20: for a word of at least one letter, when the search hands back a
    sequence of states, the cost on which its last state was selected among
    the admissible end states is the penalty of that very sequence: minus
    the logarithm of the probability of its first state in row 0, minus the
    logarithm of the probability of each later state in its row. *)
Theorem fallback_path_cost (probs : list (list prob)) (m : nat)
    (path : list nat)
    (Hm : 1 <= m)
    (Hpath : fallback probs m = Ok (map Some path)) :
  exists last_costs states best c,
    search_layers probs m = Ok (last_costs, states) /\
    Decoder.min_by_cost cost cost_lt last_costs
      (Decoder.end_states target_symbols_) = Ok best /\
    last path 0 = best /\
    nth_error last_costs best = Some c /\
    path_cost probs (rev path) = Ok c.
Proof.
  unfold Decoder.fallback in Hpath.
  bind_ok Hpath s Es. bind_ok Hpath best Eb. bind_ok Hpath r Er.
  inversion Hpath as [Hrev]. clear Hpath.
  destruct s as [last_costs states]. cbn [fst snd] in *.
  pose proof (search_layers_ok prob cost inf isinf neg_log sub_log argsort
                target_symbols_ inf_isinf probs m _ Es) as Hok.
  pose proof (search_layers_costed _ _ _ Es) as [Hlen Hcost].
  pose proof (backtrack_linked states m [Some best] r Er I) as Hlink.
  pose proof (backtrack_length states m [Some best] r Er) as Hr.
  destruct (backtrack_prefix states m [Some best] r Er) as [more Hmore].
  rewrite Hrev in Hlink.
  assert (Elast : last path 0 = best).
  { assert (E : map Some (rev path) = Some best :: more).
    { rewrite map_rev, <- Hrev, rev_involutive. exact Hmore. }
    destruct (rev path) as [| b t] eqn:Erev; [ discriminate | ].
    simpl in E. inversion E; subst b.
    rewrite <- (rev_involutive path), Erev. simpl. apply last_last. }
  exists last_costs, states, best.
  assert (Hlength : length path = m + 1).
  { rewrite <- (length_map Some), <- Hrev, length_rev, Hr. simpl. lia. }
  destruct path as [| x0 rest]; [ simpl in Hlength; lia | ].
  destruct rest as [| x1 rest']; [ simpl in Hlength; lia | ].
  assert (Hbase : traced states 0 [x0]).
  { split; [ reflexivity | ].
    cbn [map Decoder.linked] in Hlink.
    destruct Hlink as [[s1 [E1 Hptr]] _].
    destruct Hok as [_ [_ [_ HP]]].
    destruct (HP 0 s1 x0 Hptr) as [_ Hq]. exact Hq. }
  pose proof (linked_traced states (x1 :: rest') 0 x0 [x0] eq_refl Hbase Hlink)
    as Htr.
  assert (Erev : rev (x1 :: rest') ++ [x0] = rev (x0 :: x1 :: rest'))
    by reflexivity.
  rewrite Erev in Htr.
  replace (0 + length (x1 :: rest')) with m in Htr by (simpl in *; lia).
  assert (Hhd : hd_error (rev (x0 :: x1 :: rest')) = Some best).
  { rewrite <- Elast. apply hd_rev_last. discriminate. }
  destruct (Hcost _ best Hhd Htr) as [c [Hc Hpc]].
  exists c. split; [ reflexivity | ]. split; [ exact Eb | ].
  split; [ exact Elast | ]. split; [ exact Hc | exact Hpc ].
Qed.

End DecoderCosts.

Section DecoderCostsExamples.

Import Dyadic Examples.

Lemma fallback_path_cost_witness :
  1 <= 3 /\
  Decoder.fallback prob cost None isinf neg_log sub_log cost_lt argsort
    labels9 probs_root_end 3 = Ok (map Some [1; 4; 5; 6]) /\
  exists last_costs states best c,
    Dyadic.search_layers labels9 probs_root_end 3 = Ok (last_costs, states) /\
    Decoder.min_by_cost cost cost_lt last_costs (Decoder.end_states labels9)
    = Ok best /\
    last [1; 4; 5; 6] 0 = best /\
    nth_error last_costs best = Some c /\
    Decoder.path_cost prob cost neg_log sub_log probs_root_end
      (rev [1; 4; 5; 6]) = Ok c.
Proof.
  assert (Hm : 1 <= 3) by lia.
  assert (Hpath :
            Decoder.fallback prob cost None isinf neg_log sub_log cost_lt
              argsort labels9 probs_root_end 3 = Ok (map Some [1; 4; 5; 6]))
    by (vm_compute; reflexivity).
  split; [ exact Hm | ]. split; [ exact Hpath | ].
  exact (fallback_path_cost prob cost None isinf neg_log sub_log cost_lt
           argsort labels9 eq_refl probs_root_end 3 [1; 4; 5; 6] Hm Hpath).
Defined.

End DecoderCostsExamples.

(** ** Names of the model files *)

Section ModelFileFacts.

Import ModelFile.

Lemma contains_char_cons (c a : ascii) (r : string) :
  contains (String c "") (String a r) = false ->
  Ascii.eqb a c = false /\ contains (String c "") r = false.
Proof.
  cbn [contains String.prefix]. intros H.
  apply orb_false_iff in H. destruct H as [Hp Hr].
  split; [ | assumption ].
  destruct (Ascii.eqb_spec a c) as [-> | Hne]; [ | reflexivity ].
  destruct (ascii_dec c c) as [_ | Hne]; [ | congruence ].
  destruct r; discriminate.
Qed.

Lemma rfind_absent (c : ascii) (s : string) :
  contains (String c "") s = false -> rfind c s = None.
Proof.
  induction s as [| a r IH]; intros H; [ reflexivity | ].
  apply contains_char_cons in H. destruct H as [Ha Hr].
  simpl. now rewrite (IH Hr), Ha.
Qed.

Lemma rfind_last (c : ascii) (stem ext : string) :
  rfind c ext = None ->
  rfind c (stem ++ String c ext)%string = Some (String.length stem).
Proof.
  intros Hext. induction stem as [| a r IH]; simpl.
  - now rewrite Hext, Ascii.eqb_refl.
  - now rewrite IH.
Qed.

Lemma substring_stem (stem rest : string) :
  substring 0 (String.length stem) (stem ++ rest)%string = stem.
Proof.
  induction stem as [| a r IH]; simpl.
  - now destruct rest.
  - now rewrite IH.
Qed.

Lemma substring_after (stem rest : string) (k n : nat) :
  substring (String.length stem + k) n (stem ++ rest)%string = substring k n rest.
Proof.
  induction stem as [| a r IH]; simpl; [ reflexivity | exact IH ].
Qed.

(** X21: [make_model_file] puts the number before the extension: a name
    made of a stem, a dot and an extension without dot becomes the stem, a
    dash, the decimal digits of the number, a dot and the extension; a name
    without any dot gets the dash and the digits at its end. *)
Theorem make_model_file_spec (stem ext : string) (i : Z)
    (Hext : contains "." ext = false) :
  (make_model_file (stem ++ "." ++ ext) i
   = stem ++ "-" ++ str i ++ "." ++ ext)%string /\
  (make_model_file ext i = ext ++ "-" ++ str i)%string.
Proof.
  pose proof (rfind_absent "." ext Hext) as Hnone. split.
  - unfold make_model_file.
    change (stem ++ "." ++ ext)%string with (stem ++ String "." ext)%string.
    rewrite (rfind_last "." stem ext Hnone), substring_stem.
    rewrite (substring_after stem (String "." ext) 1), length_append.
    cbn [String.length substring].
    replace (String.length stem + S (String.length ext)
             - (String.length stem + 1)) with (String.length ext) by lia.
    now rewrite substring_0_all.
  - unfold make_model_file. now rewrite Hnone.
Qed.

End ModelFileFacts.

Lemma make_model_file_spec_witness :
  contains "." "hdf5" = false /\
  (ModelFile.make_model_file ("models/run.v2/weights" ++ "." ++ "hdf5") 12
   = "models/run.v2/weights" ++ "-" ++ ModelFile.str 12 ++ "." ++ "hdf5")%string /\
  (ModelFile.make_model_file "hdf5" 12
   = "hdf5" ++ "-" ++ ModelFile.str 12)%string.
Proof.
  assert (Hext : contains "." "hdf5" = false) by reflexivity.
  split; [ exact Hext | ].
  exact (make_model_file_spec "models/run.v2/weights" "hdf5" 12 Hext).
Defined.

(** ** Probabilities back from the buckets *)

Section PredictFacts.

Import Preprocess.

Variable use_inputs : bool.
Variable to_memorize_morphemes : bool.
Variable has_lm_embedder : bool.
Variable buckets_number : Z.
Variable symbol_codes_ : string -> option nat.
Variable target_symbol_codes_ : string -> option nat.
Variable memo : Type.
Variable embeddings : Type.
Variable _morpheme_memo_func : list (list string) -> Z -> result memo.
Variable _make_lm_embeddings_data : list (list string) -> Z -> result embeddings.
Variable probabilities : Type.
Variable predict_bucket : bucket memo embeddings -> result (list probabilities).

Local Abbreviation preprocess :=
  (_preprocess use_inputs to_memorize_morphemes has_lm_embedder buckets_number
     symbol_codes_ target_symbol_codes_ memo embeddings _morpheme_memo_func
     _make_lm_embeddings_data).
Local Abbreviation predict_label_probs :=
  (_predict_label_probs use_inputs to_memorize_morphemes has_lm_embedder
     buckets_number symbol_codes_ target_symbol_codes_ memo embeddings
     _morpheme_memo_func _make_lm_embeddings_data probabilities predict_bucket).

Lemma collect_buckets_positions (lengths : list Z) (K : Z) :
  (exists l, In l lengths /\ (0 < l)%Z) -> (1 <= K)%Z ->
  exists buckets,
    Bucketing.collect_buckets lengths K (-1) = Ok buckets /\
    Permutation (concat (map snd buckets)) (seq 0 (length lengths)).
Proof.
  intros Hpos HK.
  destruct (collect_buckets_form lengths K (-1) Hpos HK (or_introl eq_refl))
    as [bl [indexes [_ [_ [_ [_ [[Hperm Hall] Ecollect]]]]]]].
  cbn [Z.eqb Pos.eqb] in Ecollect.
  eexists. split; [ exact Ecollect | ].
  destruct (Forall2_combine _ _ _ Hall) as [_ [_ Hsnd]].
  now rewrite concat_filter_nonempty, Hsnd.
Qed.

Lemma scatter_spec (bucket_indexes : list nat) :
  forall (bucket_probs : list probabilities)
         (word_probs word_probs' : list (option probabilities)),
    scatter probabilities word_probs bucket_indexes bucket_probs
    = Ok word_probs' ->
    length word_probs' = length word_probs /\
    (forall i p, nth_error word_probs' i = Some (Some p) ->
                 nth_error word_probs i = Some (Some p) \/
                 In (i, p) (combine bucket_indexes bucket_probs)) /\
    (forall i,
        (exists p, nth_error word_probs i = Some (Some p)) \/
        In i (firstn (length bucket_probs) bucket_indexes) ->
        exists p, nth_error word_probs' i = Some (Some p)).
Proof.
  unfold scatter.
  induction bucket_indexes as [| i0 t IH]; intros rows wp wp' H.
  - simpl in H. inversion H; subst. split; [ reflexivity | ].
    split; [ now left | ].
    intros i [Hi | Hi]; [ exact Hi | ]. rewrite firstn_nil in Hi. contradiction.
  - destruct rows as [| r0 rt].
    + simpl in H. inversion H; subst. split; [ reflexivity | ].
      split; [ now left | ]. intros i [Hi | Hi]; [ exact Hi | contradiction ].
    + cbn [combine foldM fst snd] in H.
      destruct (set_index wp i0 (Some r0)) as [wp1 |] eqn:E; [ | discriminate ].
      destruct (IH rt wp1 wp' H) as [Hlen [Hfrom Hkept]].
      assert (Hset : forall i, nth_error wp1 i
                               = if Nat.eqb i i0 then Some (Some r0)
                                 else nth_error wp i)
        by (intros i; exact (set_index_nth_error _ _ _ i _ E)).
      split; [ rewrite Hlen; now apply set_index_length in E | ]. split.
      * intros i p Hp. destruct (Hfrom i p Hp) as [H1 | Hin].
        -- rewrite Hset in H1. destruct (Nat.eqb_spec i i0) as [-> | _].
           ++ inversion H1; subst. right. now left.
           ++ now left.
        -- right. now right.
      * intros i Hi. apply Hkept.
        destruct (Nat.eqb_spec i i0) as [-> | Hne].
        -- left. exists r0. now rewrite Hset, Nat.eqb_refl.
        -- destruct Hi as [[p Hp] | Hin].
           ++ left. exists p. rewrite Hset.
              destruct (Nat.eqb_spec i i0); [ contradiction | exact Hp ].
           ++ right. cbn [length firstn] in Hin.
              destruct Hin as [E0 | Hin]; [ congruence | exact Hin ].
Qed.

Lemma in_combine_left {T U : Type} (l1 : list T) (l2 : list U) (b : U) :
  length l1 = length l2 -> In b l2 -> exists a, In (a, b) (combine l1 l2).
Proof.
  revert l2. induction l1 as [| x t IH]; intros [| y t2] Hlen Hin;
    simpl in *; try contradiction; try discriminate.
  destruct Hin as [-> | Hin]; [ exists x; now left | ].
  destruct (IH t2) as [a Ha]; [ lia | exact Hin | ]. exists a. now right.
Qed.

(** X22: [_predict_label_probs] leaves no word without probabilities.  On
    words that are not empty as a list, with at least one bucket requested,
    and networks that return at least one entry per item of a bucket, the
    list it returns has one entry per word, none of them [None], and the
    entry of a word is the one that came beside the position of the word in
    a bucket holding it. *)
Theorem predict_label_probs_scatter (words : list (list string))
    (data_by_buckets : list (bucket memo embeddings))
    (buckets : list (Z * list nat))
    (word_probs : list (option probabilities))
    (Hwords : words <> [])
    (Hnumber : (1 <= buckets_number)%Z)
    (Hpre : preprocess words None = Ok (data_by_buckets, None, buckets))
    (Hrows : forall d b rows,
        In (d, b) (combine data_by_buckets buckets) ->
        predict_bucket d = Ok rows -> length (snd b) <= length rows)
    (Hprobs : predict_label_probs words = Ok word_probs) :
  length word_probs = length words /\
  forall i, i < length words ->
    exists p d b rows,
      nth_error word_probs i = Some (Some p) /\
      In (d, b) (combine data_by_buckets buckets) /\
      predict_bucket d = Ok rows /\
      In (i, p) (combine (snd b) rows).
Proof.
  unfold _predict_label_probs in Hprobs. rewrite Hpre in Hprobs.
  cbn [Py.bind] in Hprobs.
  unfold _preprocess in Hpre.
  bind_ok Hpre buckets' Eb. bind_ok Hpre data' Ed.
  inversion Hpre; subst data' buckets'. clear Hpre.
  apply mapM_length in Ed.
  set (lengths := map (fun x => (Z.of_nat (length x) + 2)%Z) words) in *.
  destruct (collect_buckets_positions lengths buckets_number)
    as [buckets2 [Eb2 Hperm]]; [ | exact Hnumber | ].
  { destruct words as [| word rest]; [ congruence | ].
    exists (Z.of_nat (length word) + 2)%Z. split; [ now left | lia ]. }
  assert (buckets2 = buckets) by congruence. subst buckets2.
  unfold lengths in Hperm. rewrite length_map in Hperm.
  set (all := combine data_by_buckets buckets) in *.
  set (related := fun (i : nat) (p : probabilities) =>
         exists d b rows, In (d, b) all /\ predict_bucket d = Ok rows /\
                          In (i, p) (combine (snd b) rows)).
  assert (Hloop : forall rest done wp wp',
            all = done ++ rest ->
            length wp = length words ->
            (forall i p, nth_error wp i = Some (Some p) -> related i p) ->
            (forall d b i, In (d, b) done -> In i (snd b) ->
                           exists p, nth_error wp i = Some (Some p)) ->
            foldM (fun word_probs bb =>
                     let '(bucket_data, (_, bucket_indexes)) := bb in
                     bucket_probs <- predict_bucket bucket_data ;;
                     scatter probabilities word_probs bucket_indexes
                       bucket_probs)
                  rest wp = Ok wp' ->
            length wp' = length words /\
            (forall i p, nth_error wp' i = Some (Some p) -> related i p) /\
            (forall d b i, In (d, b) all -> In i (snd b) ->
                           exists p, nth_error wp' i = Some (Some p))).
  { induction rest as [| [d [L idxs]] rest' IH];
      intros done wp wp' Hall Hlen Hfrom Hcover H.
    - simpl in H. inversion H; subst wp'. rewrite app_nil_r in Hall.
      subst done. now repeat split.
    - cbn [foldM] in H.
      destruct (predict_bucket d) as [rows |] eqn:Erows; [ | discriminate ].
      cbn [Py.bind] in H.
      destruct (scatter probabilities wp idxs rows) as [wp1 |] eqn:Es;
        [ | discriminate ].
      destruct (scatter_spec idxs rows wp wp1 Es) as [Hlen1 [Hfrom1 Hkept1]].
      assert (Hin : In (d, (L, idxs)) all)
        by (rewrite Hall; apply in_or_app; right; now left).
      apply (IH (done ++ [(d, (L, idxs))]) wp1 wp');
        [ now rewrite <- app_assoc | congruence | | | exact H ].
      + intros i p Hp. destruct (Hfrom1 i p Hp) as [H1 | H1];
          [ now apply Hfrom | ].
        exists d, (L, idxs), rows. now repeat split.
      + intros d' b' i Hdone Hi. apply Hkept1.
        apply in_app_or in Hdone. destruct Hdone as [Hdone | [E | []]].
        * left. now apply (Hcover d' b').
        * inversion E; subst d' b'. right. cbn [snd] in Hi.
          rewrite firstn_all2; [ exact Hi | ].
          exact (Hrows d (L, idxs) rows Hin Erows). }
  destruct (Hloop all [] (repeat None (length words)) word_probs eq_refl)
    as [Hlen [Hfrom Hcover]]; [ apply repeat_length | | | exact Hprobs | ].
  { intros i p Hp. apply nth_error_repeat_inv in Hp. discriminate. }
  { intros d b i []. }
  split; [ exact Hlen | ].
  intros i Hi.
  assert (Hin : In i (concat (map snd buckets))).
  { apply (Permutation_in _ (Permutation_sym Hperm)). apply in_seq. lia. }
  apply in_concat in Hin. destruct Hin as [idxs [Hidxs Hi']].
  apply in_map_iff in Hidxs. destruct Hidxs as [b [<- Hb]].
  destruct (in_combine_left data_by_buckets buckets b Ed Hb) as [d Hd].
  destruct (Hcover d b i Hd Hi') as [p Hp].
  destruct (Hfrom i p Hp) as [d' [b' [rows [Hin' [Erows Hpair]]]]].
  exists p, d', b', rows. now repeat split.
Qed.

End PredictFacts.

Section PredictExamples.

Import Preprocess Examples.

Lemma predict_label_probs_scatter_witness :
  words3 <> [] /\
  (1 <= 2)%Z /\
  _preprocess true false false 2 codes3 codes3 unit unit
    (fun _ _ => Ok tt) (fun _ _ => Ok tt) words3 None
  = Ok ([Inputs unit unit [Codes unit unit [[1; 6; 2]]];
         Inputs unit unit [Codes unit unit [[1; 4; 5; 2]; [1; 7; 8; 2]]]],
        None, [(3%Z, [1]); (4%Z, [0; 2])]) /\
  (forall d b rows,
      In (d, b)
         (combine
            [Inputs unit unit [Codes unit unit [[1; 6; 2]]];
             Inputs unit unit [Codes unit unit [[1; 4; 5; 2]; [1; 7; 8; 2]]]]
            [(3%Z, [1]); (4%Z, [0; 2])]) ->
      first_codes d = Ok rows -> length (snd b) <= length rows) /\
  _predict_label_probs true false false 2 codes3 codes3 unit unit
    (fun _ _ => Ok tt) (fun _ _ => Ok tt) nat first_codes words3
  = Ok [Some 4; Some 6; Some 7] /\
  length [Some 4; Some 6; Some 7] = length words3 /\
  forall i, i < length words3 ->
    exists p d b rows,
      nth_error [Some 4; Some 6; Some 7] i = Some (Some p) /\
      In (d, b)
         (combine
            [Inputs unit unit [Codes unit unit [[1; 6; 2]]];
             Inputs unit unit [Codes unit unit [[1; 4; 5; 2]; [1; 7; 8; 2]]]]
            [(3%Z, [1]); (4%Z, [0; 2])]) /\
      first_codes d = Ok rows /\
      In (i, p) (combine (snd b) rows).
Proof.
  assert (Hwords : words3 <> []) by discriminate.
  assert (Hnumber : (1 <= 2)%Z) by lia.
  assert (Hpre :
            _preprocess true false false 2 codes3 codes3 unit unit
              (fun _ _ => Ok tt) (fun _ _ => Ok tt) words3 None
            = Ok ([Inputs unit unit [Codes unit unit [[1; 6; 2]]];
                   Inputs unit unit
                     [Codes unit unit [[1; 4; 5; 2]; [1; 7; 8; 2]]]],
                  None, [(3%Z, [1]); (4%Z, [0; 2])]))
    by (vm_compute; reflexivity).
  assert (Hrows :
            forall d b rows,
              In (d, b)
                 (combine
                    [Inputs unit unit [Codes unit unit [[1; 6; 2]]];
                     Inputs unit unit
                       [Codes unit unit [[1; 4; 5; 2]; [1; 7; 8; 2]]]]
                    [(3%Z, [1]); (4%Z, [0; 2])]) ->
              first_codes d = Ok rows -> length (snd b) <= length rows).
  { intros d b rows [E | [E | []]] H; inversion E; subst d b;
      simpl in H; inversion H; subst rows; simpl; lia. }
  assert (Hprobs :
            _predict_label_probs true false false 2 codes3 codes3 unit unit
              (fun _ _ => Ok tt) (fun _ _ => Ok tt) nat first_codes words3
            = Ok [Some 4; Some 6; Some 7])
    by (vm_compute; reflexivity).
  repeat (split; [ assumption | ]).
  exact (predict_label_probs_scatter true false false 2 codes3 codes3 unit unit
           (fun _ _ => Ok tt) (fun _ _ => Ok tt) nat first_codes words3
           _ _ _ Hwords Hnumber Hpre Hrows Hprobs).
Defined.

End PredictExamples.
